(** * nitrogame / automations: the asset scripts, embedded and verified

    The repository's [automations/] directory holds four command-line
    scripts: [fix-names.py] (strip the [-optimized] marker from model file
    names, backing up what it replaces), [optimize-assets.py] (run the
    external glTF optimizer over every model, keeping names and backing up
    originals), and the two listing scripts [get-names-files.py] and
    [get-names-from-glb.py] (dump a directory listing as JSON).

    The scripts are sequences of calls into [pathlib], [os], [shutil] and
    [json].  The embedding below has three layers:

    - byte strings and [pathlib.PurePath] operations ([name], [stem],
      [suffix], [parent], [parents], [relative_to], [/]) and [str.replace],
      [str.lower], [str.strip], [str.endswith];
    - a file system: a finite map from paths to nodes with the POSIX
      behaviour of [mkdir], [unlink], [rename] and the library routines
      [Path.mkdir], [Path.rglob], [shutil.move], [os.listdir] on top of it,
      in a state-and-exception monad;
    - the scripts themselves, function by function, under their own names.

    Strings are sequences of bytes (the UTF-8 encoding of Python's [str]);
    comparing them byte by byte is comparing them by code point. *)

From Stdlib Require Import String Ascii List Bool Arith Lia.
From Stdlib Require Import NArith DecimalString DecimalN.
From stdpp Require Import base tactics option list gmap sets strings sorting.

Open Scope string_scope.
Open Scope list_scope.

Set Warnings "-clear-no-such-hyp".

(** ** Byte strings *)

Module Str.

Definition chars (s : string) : list ascii := list_ascii_of_string s.
Definition str (l : list ascii) : string := string_of_list_ascii l.

Lemma str_chars s : str (chars s) = s.
Proof. apply string_of_list_ascii_of_string. Qed.

Lemma chars_str l : chars (str l) = l.
Proof. apply list_ascii_of_string_of_list_ascii. Qed.

Lemma chars_inj s t : chars s = chars t → s = t.
Proof. intros H. rewrite <- (str_chars s), <- (str_chars t). by rewrite H. Qed.

Lemma chars_app s t : chars (s +:+ t) = chars s ++ chars t.
Proof. unfold chars. induction s as [|c s IH]; simpl; [done|]. by f_equal. Qed.

(** [s.endswith(suf)] and [s.startswith(pre)]. *)
Definition endswith (s suf : string) : bool :=
  bool_decide (chars suf `suffix_of` chars s).

Definition startswith (s pre : string) : bool :=
  bool_decide (chars pre `prefix_of` chars s).

(** [s.replace(pat, "")]: every occurrence of [pat] is dropped, scanning
    from the left and never looking again at what a match consumed.  The
    counter [skip] is the number of bytes of the current match still to
    be consumed. *)
Fixpoint remove_from (pat : list ascii) (skip : nat) (l : list ascii) : list ascii :=
  match l with
  | [] => []
  | c :: l' =>
      match skip with
      | S k => remove_from pat k l'
      | O =>
          if bool_decide (pat `prefix_of` l)
          then remove_from pat (length pat - 1) l'
          else c :: remove_from pat 0 l'
      end
  end.

Definition remove_all (pat s : string) : string :=
  match chars pat with
  | [] => s
  | p => str (remove_from p 0 (chars s))
  end.

(** ASCII case folding and white space, as [str.lower] and [str.strip]
    act on ASCII text; bytes of multi-byte UTF-8 sequences are kept. *)
Definition lower_char (c : ascii) : ascii :=
  let n := nat_of_ascii c in
  if ((65 <=? n) && (n <=? 90))%nat then ascii_of_nat (n + 32) else c.

Definition lower (s : string) : string := str (map lower_char (chars s)).

Definition is_space (c : ascii) : bool :=
  let n := nat_of_ascii c in
  ((n =? 32) || ((9 <=? n) && (n <=? 13)) || ((28 <=? n) && (n <=? 31)))%nat.

Fixpoint lstrip_chars (l : list ascii) : list ascii :=
  match l with
  | c :: l' => if is_space c then lstrip_chars l' else l
  | [] => []
  end.

Definition strip (s : string) : string :=
  str (rev (lstrip_chars (rev (lstrip_chars (chars s))))).

End Str.

(** ** Orders: code points, strings, paths

    Python compares [str] values code point by code point and
    [PurePosixPath] values as the lists of their components. *)

Section Lex.
Context {A : Type} (cmp : A → A → comparison).

Fixpoint lex_cmp (l1 l2 : list A) : comparison :=
  match l1, l2 with
  | [], [] => Eq
  | [], _ :: _ => Lt
  | _ :: _, [] => Gt
  | x :: l1', y :: l2' =>
      match cmp x y with
      | Eq => lex_cmp l1' l2'
      | c => c
      end
  end.

Hypothesis cmp_eq : ∀ x y, cmp x y = Eq ↔ x = y.
Hypothesis cmp_opp : ∀ x y, cmp y x = CompOpp (cmp x y).
Hypothesis cmp_trans : ∀ x y z, cmp x y = Lt → cmp y z = Lt → cmp x z = Lt.

Lemma lex_cmp_eq l1 l2 : lex_cmp l1 l2 = Eq ↔ l1 = l2.
Proof using cmp_eq.
  revert l2; induction l1 as [|x l1 IH]; intros [|y l2]; simpl; try done.
  destruct (cmp x y) eqn:E.
  - apply cmp_eq in E as ->. rewrite IH. split; [by intros ->|by intros [=]].
  - split; [done|]. intros [= -> _]. assert (cmp y y = Eq) by by apply cmp_eq. congruence.
  - split; [done|]. intros [= -> _]. assert (cmp y y = Eq) by by apply cmp_eq. congruence.
Qed.

Lemma lex_cmp_opp l1 l2 : lex_cmp l2 l1 = CompOpp (lex_cmp l1 l2).
Proof using cmp_opp.
  revert l2; induction l1 as [|x l1 IH]; intros [|y l2]; simpl; try done.
  rewrite (cmp_opp x y). destruct (cmp x y); simpl; auto.
Qed.

Lemma lex_cmp_trans l1 l2 l3 :
  lex_cmp l1 l2 = Lt → lex_cmp l2 l3 = Lt → lex_cmp l1 l3 = Lt.
Proof using cmp_eq cmp_trans.
  revert l2 l3; induction l1 as [|x l1 IH]; intros [|y l2] [|z l3]; simpl; try done.
  destruct (cmp x y) eqn:Exy; try done.
  - apply cmp_eq in Exy as ->. destruct (cmp y z); try done. apply IH.
  - destruct (cmp y z) eqn:Eyz; try done.
    + apply cmp_eq in Eyz as <-. by rewrite Exy.
    + by rewrite (cmp_trans _ _ _ Exy Eyz).
Qed.

(** A proper prefix sorts before its extensions. *)
Lemma lex_cmp_app_r l t : t ≠ [] → lex_cmp l (l ++ t) = Lt.
Proof using cmp_eq.
  intros Ht. induction l as [|x l IH]; simpl.
  - by destruct t.
  - assert (cmp x x = Eq) as -> by by apply cmp_eq. done.
Qed.

(** Everything between a list and one of its extensions is itself an
    extension of that list. *)
Lemma lex_cmp_between l t m :
  lex_cmp l m = Lt → lex_cmp m (l ++ t) = Lt → l `prefix_of` m.
Proof using cmp_eq cmp_opp cmp_trans.
  revert m; induction l as [|x l IH]; intros m; simpl.
  - intros _ _. apply prefix_nil.
  - destruct m as [|y m]; [done|]. simpl.
    destruct (cmp x y) eqn:Exy; try done.
    + apply cmp_eq in Exy as ->.
      assert (cmp y y = Eq) as -> by by apply cmp_eq.
      intros H1 H2. by apply prefix_cons, IH.
    + rewrite (cmp_opp x y), Exy. simpl. done.
Qed.
End Lex.

Definition byte_cmp (a b : ascii) : comparison :=
  Nat.compare (nat_of_ascii a) (nat_of_ascii b).

Lemma byte_cmp_eq a b : byte_cmp a b = Eq ↔ a = b.
Proof.
  unfold byte_cmp. rewrite Nat.compare_eq_iff. split; [|by intros ->].
  intros H. rewrite <- (ascii_nat_embedding a), <- (ascii_nat_embedding b). by rewrite H.
Qed.

Lemma byte_cmp_opp a b : byte_cmp b a = CompOpp (byte_cmp a b).
Proof. unfold byte_cmp. apply Nat.compare_antisym. Qed.

Lemma byte_cmp_trans a b c : byte_cmp a b = Lt → byte_cmp b c = Lt → byte_cmp a c = Lt.
Proof. unfold byte_cmp. rewrite !Nat.compare_lt_iff. lia. Qed.

Definition str_cmp (s t : string) : comparison :=
  lex_cmp byte_cmp (Str.chars s) (Str.chars t).

Lemma str_cmp_eq s t : str_cmp s t = Eq ↔ s = t.
Proof.
  unfold str_cmp. rewrite (lex_cmp_eq _ byte_cmp_eq).
  split; [apply Str.chars_inj | by intros ->].
Qed.

Lemma str_cmp_opp s t : str_cmp t s = CompOpp (str_cmp s t).
Proof. apply (lex_cmp_opp _ byte_cmp_opp). Qed.

Lemma str_cmp_trans s t u : str_cmp s t = Lt → str_cmp t u = Lt → str_cmp s u = Lt.
Proof. apply (lex_cmp_trans _ byte_cmp_eq byte_cmp_trans). Qed.

(** [str_le] is the order of [list.sort()] on strings. *)
Definition str_le (s t : string) : Prop := str_cmp s t ≠ Gt.

#[global] Instance str_le_dec : RelDecision str_le.
Proof. intros s t. unfold str_le. apply _. Defined.

(** ** Paths ([pathlib.PurePosixPath])

    A path is the list of its components, read from the working directory;
    [[]] is [Path(".")].  [Path("./public/assets")] is
    [["public"; "assets"]]: pathlib drops the leading dot. *)

Abbreviation path := (list string).

Definition path_cmp (p q : path) : comparison := lex_cmp str_cmp p q.

Lemma path_cmp_eq p q : path_cmp p q = Eq ↔ p = q.
Proof. apply (lex_cmp_eq _ str_cmp_eq). Qed.

Lemma path_cmp_opp p q : path_cmp q p = CompOpp (path_cmp p q).
Proof. apply (lex_cmp_opp _ str_cmp_opp). Qed.

Lemma path_cmp_trans p q r : path_cmp p q = Lt → path_cmp q r = Lt → path_cmp p r = Lt.
Proof. apply (lex_cmp_trans _ str_cmp_eq str_cmp_trans). Qed.

(** The order of [sorted()] on paths. *)
Definition path_le (p q : path) : Prop := path_cmp p q ≠ Gt.

#[global] Instance path_le_dec : RelDecision path_le.
Proof. intros p q. unfold path_le. apply _. Defined.

Section OrderFromCmp.
Context {A : Type} (cmp : A → A → comparison).
Hypothesis cmp_eq : ∀ x y, cmp x y = Eq ↔ x = y.
Hypothesis cmp_opp : ∀ x y, cmp y x = CompOpp (cmp x y).
Hypothesis cmp_trans : ∀ x y z, cmp x y = Lt → cmp y z = Lt → cmp x z = Lt.

Let le (x y : A) : Prop := cmp x y ≠ Gt.

Lemma le_from_cmp_total x y : le x y ∨ le y x.
Proof using cmp_opp.
  unfold le. rewrite (cmp_opp x y). destruct (cmp x y); simpl; auto.
Qed.

Lemma le_from_cmp_trans x y z : le x y → le y z → le x z.
Proof using cmp_eq cmp_trans.
  unfold le. intros Hxy Hyz.
  destruct (cmp x y) eqn:E1; [apply cmp_eq in E1 as ->; done| |done].
  destruct (cmp y z) eqn:E2; [apply cmp_eq in E2 as <-; by rewrite E1| |done].
  by rewrite (cmp_trans _ _ _ E1 E2).
Qed.

Lemma le_from_cmp_antisym x y : le x y → le y x → x = y.
Proof using cmp_eq cmp_opp.
  unfold le. rewrite (cmp_opp x y).
  destruct (cmp x y) eqn:E; simpl; [by apply cmp_eq in E|done|done].
Qed.
End OrderFromCmp.

#[global] Instance str_le_total : Total str_le.
Proof. intros s t. apply (le_from_cmp_total _ str_cmp_opp). Qed.
#[global] Instance str_le_trans : Transitive str_le.
Proof. intros s t u. apply (le_from_cmp_trans _ str_cmp_eq str_cmp_trans). Qed.
#[global] Instance str_le_antisym : AntiSymm (=) str_le.
Proof. intros s t. apply (le_from_cmp_antisym _ str_cmp_eq str_cmp_opp). Qed.

#[global] Instance path_le_total : Total path_le.
Proof. intros s t. apply (le_from_cmp_total _ path_cmp_opp). Qed.
#[global] Instance path_le_trans : Transitive path_le.
Proof. intros s t u. apply (le_from_cmp_trans _ path_cmp_eq path_cmp_trans). Qed.
#[global] Instance path_le_antisym : AntiSymm (=) path_le.
Proof. intros s t. apply (le_from_cmp_antisym _ path_cmp_eq path_cmp_opp). Qed.

Module Pathlib.

(** [p.name]: the last component, [""] for [Path(".")]. *)
Definition name (p : path) : string := List.last p "".

(** [p.parent]; [Path(".").parent] is [Path(".")]. *)
Definition parent (p : path) : path := removelast p.

(** [d in p.parents]: [d] is a proper ancestor of [p]. *)
Definition in_parents (d p : path) : bool :=
  bool_decide (d `prefix_of` p) && negb (bool_decide (d = p)).

(** [d / n]: an empty or ["."] segment is dropped. *)
Definition joinpath (d : path) (n : string) : path :=
  if bool_decide (n = "") || bool_decide (n = ".") then d else d ++ [n].

(** [p.relative_to(base)]; [None] stands for the [ValueError]. *)
Definition relative_to (p base : path) : option path :=
  if bool_decide (base `prefix_of` p) then Some (drop (length base) p) else None.

(** Position of the last dot: [split_last_dot l = Some (a, b)] when
    [l = a ++ "." :: b] and [b] has no dot. *)
Fixpoint split_last_dot (l : list ascii) : option (list ascii * list ascii) :=
  match l with
  | [] => None
  | c :: l' =>
      match split_last_dot l' with
      | Some (a, b) => Some (c :: a, b)
      | None => if bool_decide (c = "."%char) then Some ([], l') else None
      end
  end.

(** [i = name.rfind('.')]; the suffix is [name[i:]] when
    [0 < i < len(name) - 1] and empty otherwise. *)
Definition split_name (n : string) : string * string :=
  match split_last_dot (Str.chars n) with
  | Some (a, b) =>
      match a, b with
      | _ :: _, _ :: _ => (Str.str a, Str.str ("."%char :: b))
      | _, _ => (n, "")
      end
  | None => (n, "")
  end.

Definition stem (p : path) : string := fst (split_name (name p)).
Definition suffix (p : path) : string := snd (split_name (name p)).

End Pathlib.

Import Pathlib.

Example name_ex : name ["public"; "assets"; "car-optimized.glb"] = "car-optimized.glb".
Proof. reflexivity. Qed.
Example stem_ex : stem ["public"; "assets"; "car-optimized.glb"] = "car-optimized".
Proof. reflexivity. Qed.
Example suffix_ex : suffix ["public"; "assets"; "car.v2.gltf"] = ".gltf".
Proof. reflexivity. Qed.
Example suffix_hidden : split_name ".glb" = (".glb", "").
Proof. reflexivity. Qed.
Example suffix_trailing_dot : split_name "car." = ("car.", "").
Proof. reflexivity. Qed.
Example replace_ex : Str.remove_all "-optimized" "a-optimized-b-optimized" = "a-b".
Proof. reflexivity. Qed.
Example replace_no_rescan : Str.remove_all "-optimized" "x-opti-optimizedmized" = "x-optimized".
Proof. reflexivity. Qed.
Example strip_lower_ex : Str.lower (Str.strip "  Sim ") = "sim".
Proof. reflexivity. Qed.
Example path_order_ex :
  path_cmp ["a"; "b"] ["a-b"] = Lt ∧ str_cmp "a-b" "a/b" = Lt.
Proof. split; reflexivity. Qed.

(** ** The file system

    A tree of directories and regular files, kept as a finite map from
    paths to nodes.  The working directory [[]] is not stored: it always
    exists and is a writable directory.  A directory carries the one
    permission bit the scripts can trip over: whether entries may be
    created in it, removed from it or renamed in it.  Symbolic links,
    several devices and read permissions are outside the model. *)

Inductive node :=
  | File (content : string)
  | Dir (writable : bool).

#[global] Instance node_eq_dec : EqDecision node.
Proof. solve_decision. Defined.

Abbreviation fs := (gmap path node).

(** The exceptions the modelled calls raise.  Those up to [ShutilError]
    are [OSError]s; [OSError] itself stands for the
    remaining error numbers (EINVAL, ENOTEMPTY) and [ShutilError] for
    [shutil.Error]. *)
Inductive exn :=
  | FileNotFoundError
  | FileExistsError
  | NotADirectoryError
  | IsADirectoryError
  | PermissionError
  | OSError
  | ShutilError
  | ValueError
  | ZeroDivisionError
  | RecursionError.

#[global] Instance exn_eq_dec : EqDecision exn.
Proof. solve_decision. Defined.

Inductive result (A : Type) :=
  | Ok (a : A)
  | Raise (e : exn).
Arguments Ok {A} a.
Arguments Raise {A} e.

(** Commands: a result or an exception, and the file system they leave. *)
Definition M (A : Type) : Type := fs → result A * fs.

Definition ret {A} (a : A) : M A := λ s, (Ok a, s).
Definition raise {A} (e : exn) : M A := λ s, (Raise e, s).
Definition bind {A B} (m : M A) (k : A → M B) : M B :=
  λ s, match m s with
       | (Ok a, s') => k a s'
       | (Raise e, s') => (Raise e, s')
       end.
(** [try: m except: h] *)
Definition try_except {A} (m : M A) (h : exn → M A) : M A :=
  λ s, match m s with
       | (Ok a, s') => (Ok a, s')
       | (Raise e, s') => h e s'
       end.
Definition get {A} (f : fs → A) : M A := λ s, (Ok (f s), s).

Notation "'let!' x ':=' m 'in' k" := (bind m (λ x, k))
  (at level 10, x name, m at level 100, k at level 200).
Notation "'let!' ' pat ':=' m 'in' k" :=
  (bind m (λ x, match x with pat => k end))
  (at level 10, pat pattern, m at level 100, k at level 200).
Notation "m '>>' k" := (bind m (λ _, k))
  (at level 90, right associativity).

Module FS.

Definition keys (s : fs) : list path := (map_to_list s).*1.

(** [os.stat]: what is at [p], if anything. *)
Definition stat (s : fs) (p : path) : option node :=
  match p with
  | [] => Some (Dir true)
  | _ => s !! p
  end.

Definition exists_ (s : fs) (p : path) : bool := bool_decide (is_Some (stat s p)).

Definition is_dir (s : fs) (p : path) : bool :=
  match stat s p with Some (Dir _) => true | _ => false end.

Definition is_file (s : fs) (p : path) : bool :=
  match stat s p with Some (File _) => true | _ => false end.

Definition dir_writable (s : fs) (d : path) : bool :=
  match stat s d with Some (Dir true) => true | _ => false end.

Definition has_children (s : fs) (d : path) : bool :=
  existsb (in_parents d) (keys s).

(** A tree: everything stored sits in a stored directory. *)
Definition wf (s : fs) : Prop :=
  ∀ p n, s !! p = Some n → p ≠ [] ∧ is_dir s (parent p) = true.

(** [os.mkdir(p)] *)
Definition os_mkdir (p : path) : M unit := λ s,
  match stat s p with
  | Some _ => (Raise FileExistsError, s)
  | None =>
      match stat s (parent p) with
      | None => (Raise FileNotFoundError, s)
      | Some (File _) => (Raise NotADirectoryError, s)
      | Some (Dir false) => (Raise PermissionError, s)
      | Some (Dir true) => (Ok (), <[p := Dir true]> s)
      end
  end.

(** [os.unlink(p)] *)
Definition os_unlink (p : path) : M unit := λ s,
  match stat s p with
  | None => (Raise FileNotFoundError, s)
  | Some (Dir _) => (Raise IsADirectoryError, s)
  | Some (File _) =>
      if dir_writable s (parent p) then (Ok (), delete p s)
      else (Raise PermissionError, s)
  end.

(** The tree at [src], copied to [dst]: the entry [src/t] becomes
    [dst/t]. *)
Definition shift_entry (src dst : path) (kv : path * node) : option (path * node) :=
  match relative_to kv.1 src with
  | Some t => Some (dst ++ t, kv.2)
  | None => None
  end.

Definition shifted (src dst : path) (s : fs) : fs :=
  list_to_map (omap (shift_entry src dst) (map_to_list s)).

(** The tree at [src] re-rooted at [dst]; whatever was at [dst] is
    replaced. *)
Definition reroot (src dst : path) (s : fs) : fs :=
  shifted src dst s ∪
  filter (λ kv, ¬ src `prefix_of` kv.1 ∧ ¬ dst `prefix_of` kv.1) s.

(** [os.rename(src, dst)] (rename(2)): a regular file replaces a regular
    file, a directory replaces an empty directory, nothing moves into
    itself, both parent directories must be writable, and so must a
    directory that changes parent. *)
Definition os_rename (src dst : path) : M unit := λ s,
  match src, stat s src with
  | [], _ => (Raise OSError, s)
  | _, None => (Raise FileNotFoundError, s)
  | _, Some n =>
      if bool_decide (src = dst) then (Ok (), s) else
      match stat s (parent dst) with
      | None => (Raise FileNotFoundError, s)
      | Some (File _) => (Raise NotADirectoryError, s)
      | Some (Dir _) =>
          if bool_decide (src `prefix_of` dst) then (Raise OSError, s) else
          let permitted :=
            dir_writable s (parent src) && dir_writable s (parent dst) &&
            match n with
            | Dir w => w || bool_decide (parent src = parent dst)
            | File _ => true
            end in
          let go := if permitted then (Ok (), reroot src dst s)
                    else (Raise PermissionError, s) in
          match n, stat s dst with
          | File _, Some (Dir _) => (Raise IsADirectoryError, s)
          | Dir _, Some (File _) => (Raise NotADirectoryError, s)
          | Dir _, Some (Dir _) =>
              if has_children s dst then (Raise OSError, s) else go
          | _, _ => go
          end
      end
  end.

(** [Path.mkdir(parents, exist_ok)], as pathlib writes it: try
    [os.mkdir]; on [FileNotFoundError] create the parent first (with
    [parents=True, exist_ok=True]) and try once more; on any other
    [OSError] give up unless [exist_ok] and the directory is there.
    The recursion climbs one component at a time: [fuel] is the number
    of components. *)
Fixpoint Path_mkdir_fuel (fuel : nat) (parents exist_ok : bool) (p : path) : M unit :=
  try_except (os_mkdir p) (λ e,
    match e with
    | FileNotFoundError =>
        if negb parents || bool_decide (parent p = p) then raise e else
        match fuel with
        | O => raise RecursionError
        | S k =>
            Path_mkdir_fuel k true true (parent p) >>
            try_except (os_mkdir p) (λ e',
              match e' with
              | FileNotFoundError => raise e'
              | _ => let! d := get (λ s, is_dir s p) in
                     if negb exist_ok || negb d then raise e' else ret ()
              end)
        end
    | _ => let! d := get (λ s, is_dir s p) in
           if negb exist_ok || negb d then raise e else ret ()
    end).

Definition Path_mkdir (parents exist_ok : bool) (p : path) : M unit :=
  Path_mkdir_fuel (length p) parents exist_ok p.

(** [os.makedirs(p)] with [exist_ok=False]: missing ancestors are
    created, then [p] itself. *)
Definition os_makedirs (p : path) : M unit :=
  let! e := get (λ s, exists_ s (parent p)) in
  (if e then ret () else Path_mkdir true true (parent p)) >>
  os_mkdir p.

(** [open(p, "wb").write(c)] *)
Definition write_file (p : path) (c : string) : M unit := λ s,
  match stat s p with
  | Some (File _) => (Ok (), <[p := File c]> s)
  | Some (Dir _) => (Raise IsADirectoryError, s)
  | None =>
      match stat s (parent p) with
      | Some (Dir true) => (Ok (), <[p := File c]> s)
      | Some (Dir false) => (Raise PermissionError, s)
      | Some (File _) => (Raise NotADirectoryError, s)
      | None => (Raise FileNotFoundError, s)
      end
  end.

(** [shutil.copytree(src, dst)]: create [dst] (and missing ancestors),
    copy what is below [src], then give [dst] the mode of [src]. *)
Definition copytree (src dst : path) : M unit :=
  os_makedirs dst >>
  (λ s, (Ok (), shifted src dst s ∪ s)).

(** [shutil.rmtree(src)].  It succeeds when [src] can be removed from
    its parent and every directory of the tree that holds something
    is writable.  When it fails, how much of the tree is already gone
    depends on the order in which the directories are scanned; the model
    then keeps the tree. *)
Definition rmtree_permitted (s : fs) (src : path) : bool :=
  dir_writable s (parent src) &&
  forallb (λ kv, match kv.2 with
                 | Dir false => negb (has_children s kv.1)
                 | _ => true
                 end)
          (filter (λ kv, bool_decide (src `prefix_of` kv.1)) (map_to_list s)).

Definition rmtree (src : path) : M unit := λ s,
  if rmtree_permitted s src
  then (Ok (), filter (λ kv, ¬ src `prefix_of` kv.1) s)
  else (Raise PermissionError, s).

(** [shutil.move(src, dst)]: into [dst] when it is a directory, by
    [os.rename] when that works, by copy and delete when it does not. *)
Definition shutil_move (src dst : path) : M unit := λ s,
  if is_dir s dst && bool_decide (src = dst) then os_rename src dst s else
  let real_dst := if is_dir s dst then joinpath dst (name src) else dst in
  if is_dir s dst && exists_ s real_dst then (Raise ShutilError, s) else
  try_except (os_rename src real_dst) (λ _,
    λ s, match stat s src with
         | Some (Dir _) =>
             if bool_decide (src `prefix_of` dst) then (Raise ShutilError, s)
             else (copytree src real_dst >> rmtree src) s
         | Some (File c) => (write_file real_dst c >> os_unlink src) s
         | None => (Raise FileNotFoundError, s)
         end) s.

(** [root.rglob("*" + tail)]: every entry below [root], of any kind,
    whose name ends with [tail] (on POSIX the match is case sensitive
    and hidden names are not special).  The order in which a directory
    scan yields entries is not specified; the callers sort. *)
Definition rglob (root : path) (tail : string) (s : fs) : list path :=
  if is_dir s root
  then filter (λ k, in_parents root k && Str.endswith (name k) tail = true) (keys s)
  else [].

(** [os.listdir(d)]: the names of the entries of [d]. *)
Definition listdir (d : path) (s : fs) : list string :=
  omap (λ k, match relative_to k d with Some [n] => Some n | _ => None end) (keys s).

End FS.

Import FS.

(** Shared by both asset scripts: [sorted()] on paths, and the lift of
    [relative_to] into the monad. *)
Definition sorted (l : list path) : list path := merge_sort path_le l.

Definition relative_to_M (p base : path) : M path :=
  match relative_to p base with
  | Some r => ret r
  | None => raise ValueError
  end.

(** How a script ends: [sys.exit(code)], or by running to the end of
    [main] with its summary.  (An exception nobody catches is a [Raise]
    of the command itself.) *)
Inductive outcome (S : Type) :=
  | Exit (code : nat)
  | Finished (summary : S).
Arguments Exit {S} code.
Arguments Finished {S} summary.

(** ** fix-names.py *)

Module FixNames.

Definition ASSETS_DIR : path := ["public"; "assets"].
Definition BACKUP_DIR : path := joinpath ASSETS_DIR "originals".

(** The [continue] test of the scan loops. *)
Definition in_backup (file_path : path) : bool :=
  in_parents BACKUP_DIR file_path || bool_decide (parent file_path = BACKUP_DIR).

Definition find_optimized_files : M (list path) :=
  get (λ s,
    sorted
      (flat_map
         (λ ext, filter (λ file_path, in_backup file_path = false)
                        (rglob ASSETS_DIR ("-optimized" +:+ ext) s))
         [".glb"; ".gltf"])).

Definition get_original_name (optimized_path : path) : path :=
  let original_name :=
    Str.remove_all "-optimized" (stem optimized_path) +:+ suffix optimized_path in
  joinpath (parent optimized_path) original_name.

(** What the script shows for a path: relative to the assets root when
    it lies below it, the bare name otherwise. *)
Definition rel_display (p : path) : path :=
  if in_parents ASSETS_DIR p then drop (length ASSETS_DIR) p else [name p].

(** The backup path of [original_path]: the mirrored one, or the flat
    one when the mirrored directory cannot be had. *)
Definition backup_path_for (original_path : path) : M path :=
  try_except
    (let! rel_to_assets := relative_to_M original_path ASSETS_DIR in
     let backup_subdir := BACKUP_DIR ++ parent rel_to_assets in
     Path_mkdir true true backup_subdir >>
     ret (joinpath backup_subdir (name original_path)))
    (λ _, ret (joinpath BACKUP_DIR (name original_path))).

Definition process_file (optimized_path : path) (dry_run : bool) : M bool :=
  let original_path := get_original_name optimized_path in
  let! original_exists := get (λ s, exists_ s original_path) in
  if dry_run then ret true else
  try_except
    ((if original_exists then
        let! backup_path := backup_path_for original_path in
        let! backed_up := get (λ s, exists_ s backup_path) in
        if negb backed_up
        then shutil_move original_path backup_path
        else os_unlink original_path
      else ret ()) >>
     shutil_move optimized_path original_path >>
     ret true)
    (λ _, ret false).

Record summary := Summary {
  success_count : nat;
  failed_files : list path;
}.

(** The preview loop and the execution loop of [main]. *)
Fixpoint preview (files : list path) : M unit :=
  match files with
  | [] => ret ()
  | file_path :: rest => process_file file_path true >> preview rest
  end.

Fixpoint execute (files : list path) (acc : summary) : M summary :=
  match files with
  | [] => ret acc
  | file_path :: rest =>
      let! ok := process_file file_path false in
      execute rest
        (if ok
         then Summary (S (success_count acc)) (failed_files acc)
         else Summary (success_count acc) (failed_files acc ++ [rel_display file_path]))
  end.

(** [resposta not in ['s', 'sim', 'y', 'yes']] decides the gate. *)
Definition affirmative (resposta : string) : bool :=
  bool_decide (resposta ∈ ["s"; "sim"; "y"; "yes"]).

(** [main]; [answer] is what [input()] gives: the line typed, or [None]
    when reading raises (closed or unreadable input). *)
Definition main (answer : option string) : M (outcome summary) :=
  let! root := get (λ s, exists_ s ASSETS_DIR) in
  if negb root then ret (Exit 1) else
  let! optimized_files := find_optimized_files in
  match optimized_files with
  | [] => ret (Exit 0)
  | _ =>
      preview optimized_files >>
      match answer with
      | None => ret (Exit 0)
      | Some line =>
          let resposta := Str.lower (Str.strip line) in
          if negb (affirmative resposta) then ret (Exit 0) else
          Path_mkdir false true BACKUP_DIR >>
          let! result := execute optimized_files (Summary 0 []) in
          ret (Finished result)
      end
  end.

End FixNames.

Definition fs_car : fs :=
  list_to_map
    [ (["public"], Dir true);
      (["public"; "assets"], Dir true);
      (["public"; "assets"; "car.glb"], File "fifty");
      (["public"; "assets"; "car-optimized.glb"], File "ten") ].

Example fix_names_scenario :
  let '(r, s) := FixNames.main (Some "s") fs_car in
  r = Ok (Finished (FixNames.Summary 1 [])) ∧
  s !! ["public"; "assets"; "car.glb"] = Some (File "ten") ∧
  s !! ["public"; "assets"; "originals"; "car.glb"] = Some (File "fifty") ∧
  s !! ["public"; "assets"; "car-optimized.glb"] = None.
Proof. vm_compute. done. Qed.

(** ** optimize-assets.py

    The optimizer ([npx gltf-transform optimize in out ...]) is a black
    box.  One run of it is described by what the script can observe:
    whether the command came back with exit status 0 within the time
    limit, and what, if anything, it left at its output path (a failed or
    timed-out run may leave a partial file).  The box touches nothing but
    its output path. *)

Record tool_run := ToolRun {
  exit_ok : bool;
  written : option string;
}.

Record env := Env {
  (** the optimizer, given its input path, its output path and the tree *)
  optimizer : path → path → fs → tool_run;
  (** [npx gltf-transform --version] succeeds *)
  version_check_ok : bool;
  (** [npm install -g @gltf-transform/cli] succeeds *)
  install_ok : bool;
}.

(** ** Sizes in the report ([format_size])

    [f"{bytes_size / 1024 / 1024:.2f}MB"].  Dividing an [int] by an [int]
    gives the double nearest to the quotient; dividing by 1024 only
    changes the exponent, so the value formatted is the double nearest to
    [bytes_size] (the size itself below [2^53]) over [2^20].  The format
    [.2f] prints the decimal with two places nearest to that value, ties
    going to the even neighbour.  Sizes are Python integers, here [N]
    ([N.of_nat] of the sizes the summary adds up); from [2^1034] bytes on
    the division overflows, far beyond any file. *)

(** [a / b] rounded to the nearest integer, ties to even. *)
Definition round_half_even (a b : N) : N :=
  let q := (a / b)%N in
  let r := (a mod b)%N in
  if (2 * r <? b)%N then q
  else if (b <? 2 * r)%N then (q + 1)%N
  else if N.even q then q else (q + 1)%N.

(** The double nearest to an integer: 53 significant bits. *)
Definition float_of_int (n : N) : N :=
  let bits := N.size n in
  if (bits <=? 53)%N then n
  else let e := (bits - 53)%N in (round_half_even n (2 ^ e) * 2 ^ e)%N.

(** The number printed, in hundredths of a MiB. *)
Definition hundredths (bytes_size : N) : N :=
  round_half_even (float_of_int bytes_size * 100) (2 ^ 20).

Definition digit (k : N) : ascii := ascii_of_N (48 + k).

(** [h] hundredths as a decimal with two places. *)
Definition fixed2 (h : N) : string :=
  NilZero.string_of_uint (N.to_uint (h / 100)) +:+
  Str.str ["."%char; digit (h mod 100 / 10); digit (h mod 10)].

Definition format_size (bytes_size : N) : string :=
  fixed2 (hundredths bytes_size) +:+ "MB".

Example format_size_ex :
  map format_size [0; 5242; 5243; 131072; 393216; 1048576; 1572864; 123456789]%N
  = ["0.00MB"; "0.00MB"; "0.01MB"; "0.12MB"; "0.38MB"; "1.00MB"; "1.50MB"; "117.74MB"].
Proof. vm_compute. reflexivity. Qed.

Module OptimizeAssets.

Definition ASSETS_DIR : path := ["public"; "assets"].
Definition BACKUP_DIR : path := joinpath ASSETS_DIR "originals".
Definition SUPPORTED_EXTENSIONS : list string := [".glb"; ".gltf"].

Section WithEnv.
Variable E : env.

(** [run_command_with_encoding] on the optimize command: the output
    (if the tool could write it) and the success flag; a timeout or
    any exception of [subprocess.run] is a [False]. *)
Definition run_optimizer (input_path output_path : path) : M bool := λ s,
  let r := optimizer E input_path output_path s in
  let s' := match written r with
            | Some c => snd (write_file output_path c s)
            | None => s
            end in
  (Ok (exit_ok r), s').

(** [st_size]; a directory has the size of its entry table. *)
Definition st_size (p : path) : M nat := λ s,
  match stat s p with
  | Some (File c) => (Ok (String.length c), s)
  | Some (Dir _) => (Ok 4096, s)
  | None => (Raise FileNotFoundError, s)
  end.

(** [optimize_file]: the flag and the two sizes.  The reduction
    percentage [(1 - new_size / original_size) * 100] is a float that
    only the report uses; what matters to the control flow is that
    computing it divides by [original_size]. *)
Definition optimize_file (input_path output_path : path) : M (bool * nat * nat) :=
  let! success := run_optimizer input_path output_path in
  let! out := get (λ s, exists_ s output_path) in
  if success && out then
    let! original_size := st_size input_path in
    let! new_size := st_size output_path in
    if bool_decide (original_size = 0) then raise ZeroDivisionError
    else ret (true, original_size, new_size)
  else ret (false, 0, 0).

Definition get_relative_path (full_path base_dir : path) : path :=
  match relative_to full_path base_dir with
  | Some r => r
  | None => [name full_path]
  end.

Definition in_backup (file_path : path) : bool :=
  in_parents BACKUP_DIR file_path || bool_decide (parent file_path = BACKUP_DIR).

Definition find_files_to_process : M (list path) :=
  get (λ s,
    sorted
      (flat_map
         (λ ext, filter (λ file_path, in_backup file_path = false)
                        (rglob ASSETS_DIR ext s))
         SUPPORTED_EXTENSIONS)).

Definition temp_path_of (file_path : path) : path :=
  let ext := suffix file_path in
  let temp_name := stem file_path +:+ "-temp-optimized" +:+ ext in
  joinpath (parent file_path) temp_name.

Definition backup_path_for (file_path : path) : M path :=
  try_except
    (let! rel_to_assets := relative_to_M file_path ASSETS_DIR in
     let backup_subdir := BACKUP_DIR ++ parent rel_to_assets in
     Path_mkdir true true backup_subdir >>
     ret (joinpath backup_subdir (name file_path)))
    (λ _, ret (joinpath BACKUP_DIR (name file_path))).

Definition process_file (file_path : path) : M (bool * nat * nat) :=
  let temp_path := temp_path_of file_path in
  let! '(success, orig_size, new_size) := optimize_file file_path temp_path in
  if negb success then
    let! leftover := get (λ s, exists_ s temp_path) in
    (if leftover then os_unlink temp_path else ret ()) >>
    ret (false, 0, 0)
  else
    let! backup_path := backup_path_for file_path in
    let! backed_up := get (λ s, exists_ s backup_path) in
    (if negb backed_up
     then shutil_move file_path backup_path
     else os_unlink file_path) >>
    shutil_move temp_path file_path >>
    ret (true, orig_size, new_size).

Record summary := Summary {
  success_count : nat;
  failed_files : list path;
  total_original : nat;
  total_optimized : nat;
}.

Fixpoint execute (files : list path) (acc : summary) : M summary :=
  match files with
  | [] => ret acc
  | file_path :: rest =>
      let rel_path := get_relative_path file_path ASSETS_DIR in
      let! '(success, orig_size, new_size) := process_file file_path in
      execute rest
        (if success
         then Summary (S (success_count acc)) (failed_files acc)
                      (total_original acc + orig_size)
                      (total_optimized acc + new_size)
         else Summary (success_count acc) (failed_files acc ++ [rel_path])
                      (total_original acc) (total_optimized acc))
  end.

(** [main]: nothing is read from the operator. *)
Definition main : M (outcome summary) :=
  let! root := get (λ s, exists_ s ASSETS_DIR) in
  if negb root then ret (Exit 1) else
  Path_mkdir false true BACKUP_DIR >>
  if negb (version_check_ok E) && negb (install_ok E) then ret (Exit 1) else
  let! files_to_process := find_files_to_process in
  match files_to_process with
  | [] => ret (Exit 0)
  | _ =>
      let! result := execute files_to_process (Summary 0 [] 0 0) in
      ret (Finished result)
  end.

End WithEnv.

End OptimizeAssets.


(** ** json.dump(names, f, indent=2, ensure_ascii=False)

    With [ensure_ascii=False] the encoder escapes exactly the quote, the
    backslash and the control characters below U+0020, and copies every
    other character.  On the UTF-8 bytes this is a byte-wise map: the
    bytes of a multi-byte sequence are all at least 128. *)

Module Json.

Definition hex_digit (n : nat) : ascii :=
  ascii_of_nat (if (n <? 10)%nat then 48 + n else 87 + n).

Definition dquote : ascii := ascii_of_nat 34.

Definition escape_char (c : ascii) : list ascii :=
  let n := nat_of_ascii c in
  if bool_decide (c = dquote) then ["\"%char; dquote]
  else if bool_decide (c = "\"%char) then ["\"%char; "\"%char]
  else if bool_decide (n = 8) then ["\"%char; "b"%char]
  else if bool_decide (n = 12) then ["\"%char; "f"%char]
  else if bool_decide (n = 10) then ["\"%char; "n"%char]
  else if bool_decide (n = 13) then ["\"%char; "r"%char]
  else if bool_decide (n = 9) then ["\"%char; "t"%char]
  else if (n <? 32)%nat then
    ["\"%char; "u"%char; "0"%char; "0"%char; hex_digit (n / 16); hex_digit (n mod 16)]
  else [c].

(** [encode_basestring]: the quoted, escaped string. *)
Definition encode_string (s : string) : list ascii :=
  dquote :: flat_map escape_char (Str.chars s) ++ [dquote].

Definition newline : ascii := ascii_of_nat 10.

(** The items of a non-empty array, each on its own line behind the
    indentation, separated by commas. *)
Fixpoint encode_items (indent : nat) (l : list string) : list ascii :=
  match l with
  | [] => []
  | [s] => newline :: repeat " "%char indent ++ encode_string s
  | s :: rest =>
      newline :: repeat " "%char indent ++ encode_string s ++ ","%char :: encode_items indent rest
  end.

Definition dump (l : list string) (indent : nat) : string :=
  match l with
  | [] => "[]"
  | _ => Str.str ("["%char :: encode_items indent l ++ [newline; "]"%char])
  end.

End Json.

(** ** The prompt of the listing scripts ([pedir_pasta])

    Both listing scripts start with the same loop: read a line, strip
    white space and then double quotes from both ends, and ask again
    until what is left is not empty, is an absolute path and names a
    directory.  [answers] are the lines [input()] will return, in order;
    running out of them is the [EOFError] of a closed input, which
    nothing catches ([None]).  [isdir] is [os.path.isdir], the one
    question the loop asks the operating system; [os.path.isabs] is the
    POSIX one (a leading slash). *)

(** [s.lstrip(chars)] on the list of characters. *)
Fixpoint lstrip_set (set : list ascii) (l : list ascii) : list ascii :=
  match l with
  | c :: l' => if bool_decide (c ∈ set) then lstrip_set set l' else l
  | [] => []
  end.

(** [s.strip(chars)] *)
Definition strip_set (set s : string) : string :=
  Str.str (rev (lstrip_set (Str.chars set) (rev (lstrip_set (Str.chars set) (Str.chars s))))).

(** [os.path.isabs] *)
Definition isabs (pasta : string) : bool := Str.startswith pasta "/".

Section PedirPasta.
Variable isdir : string → bool.

Fixpoint pedir_pasta (answers : list string) : option (string * list string) :=
  match answers with
  | [] => None
  | line :: rest =>
      let pasta := strip_set (Str.str [Json.dquote]) (Str.strip line) in
      if bool_decide (pasta = "") then pedir_pasta rest
      else if negb (isabs pasta) then pedir_pasta rest
      else if negb (isdir pasta) then pedir_pasta rest
      else Some (pasta, rest)
  end.

End PedirPasta.

Example pedir_pasta_ex :
  pedir_pasta (λ p, bool_decide (p = "/srv/models"))
    [""; "models"; "/srv/nothing"; Str.str (Str.chars "  " ++ [Json.dquote] ++ Str.chars "/srv/models" ++ [Json.dquote]); "/tmp"]
  = Some ("/srv/models", ["/tmp"]).
Proof. vm_compute. reflexivity. Qed.

(** ** get-names-files.py and get-names-from-glb.py

    [pedir_pasta] asks until it is given an absolute path of a directory;
    the functions below start from the directory it returns. *)

Module GetNamesFiles.

Definition listar_arquivos (pasta : path) : M (list string) :=
  get (λ s,
    merge_sort str_le
      (filter (λ nome, is_file s (pasta ++ [nome]) = true) (listdir pasta s))).

Definition main (pasta : path) : M nat :=
  let! arquivos := listar_arquivos pasta in
  write_file ["automations"; "arquivos.json"] (Json.dump arquivos 2) >>
  ret (length arquivos).

End GetNamesFiles.

Module GetNamesFromGlb.

Definition listar_glb (pasta : path) : M (list string) :=
  get (λ s,
    merge_sort str_le
      (filter (λ nome, Str.endswith (Str.lower nome) ".glb" = true) (listdir pasta s))).

Definition main (pasta : path) : M nat :=
  let! arquivos := listar_glb pasta in
  write_file ["modelos.json"] (Json.dump arquivos 2) >>
  ret (length arquivos).

End GetNamesFromGlb.

Definition fs_models : fs :=
  list_to_map
    [ (["models"], Dir true);
      (["models"; "kart.glb"], File "k");
      (["models"; "Track.GLB"], File "t");
      (["models"; "old.glb"], Dir true);
      (["models"; "old.glb"; "inner.glb"], File "i");
      (["models"; "notes.txt"], File "n") ].

Example listar_glb_ex :
  fst (GetNamesFromGlb.listar_glb ["models"] fs_models) = Ok ["Track.GLB"; "kart.glb"; "old.glb"].
Proof. vm_compute. reflexivity. Qed.

Example listar_arquivos_ex :
  fst (GetNamesFiles.listar_arquivos ["models"] fs_models) = Ok ["Track.GLB"; "kart.glb"; "notes.txt"].
Proof. vm_compute. reflexivity. Qed.

Example dump_ex :
  let q := [Json.dquote] in
  Json.dump [Str.str (Str.chars "a" ++ q ++ Str.chars "b"); "çé"] 2 =
  Str.str (Str.chars "[" ++ [Json.newline]
           ++ Str.chars "  " ++ q ++ Str.chars "a\" ++ q ++ Str.chars "b" ++ q ++ Str.chars ","
           ++ [Json.newline]
           ++ Str.chars "  " ++ q ++ Str.chars "çé" ++ q ++ [Json.newline] ++ Str.chars "]").
Proof. vm_compute. reflexivity. Qed.


(** * Properties *)

(** ** Commands *)

Lemma bind_ok {A B} (m : M A) (k : A → M B) s a s' :
  m s = (Ok a, s') → bind m k s = k a s'.
Proof. unfold bind. by intros ->. Qed.

Lemma bind_raise {A B} (m : M A) (k : A → M B) s e s' :
  m s = (Raise e, s') → bind m k s = (Raise e, s').
Proof. unfold bind. by intros ->. Qed.

Lemma bind_inv_ok {A B} (m : M A) (k : A → M B) s b s' :
  bind m k s = (Ok b, s') → ∃ a s1, m s = (Ok a, s1) ∧ k a s1 = (Ok b, s').
Proof.
  unfold bind. destruct (m s) as [[a|e] s1]; [eauto|done].
Qed.

(** ** Keys and scans *)

Lemma elem_of_keys (s : fs) (p : path) : p ∈ keys s ↔ is_Some (s !! p).
Proof.
  unfold keys. rewrite list_elem_of_fmap. split.
  - intros [[q n] [-> H]]. apply elem_of_map_to_list in H. eauto.
  - intros [n H]. exists (p, n). split; [done|]. by apply elem_of_map_to_list.
Qed.

Lemma NoDup_keys (s : fs) : NoDup (keys s).
Proof. apply NoDup_fst_map_to_list. Qed.

Lemma elem_of_rglob (root : path) (tail : string) (s : fs) (p : path) :
  p ∈ rglob root tail s ↔
  is_dir s root = true ∧ is_Some (s !! p) ∧ in_parents root p = true ∧
  Str.endswith (name p) tail = true.
Proof.
  unfold rglob. destruct (is_dir s root).
  - rewrite list_elem_of_filter, elem_of_keys, andb_true_iff. tauto.
  - split; [by intros ?%elem_of_nil|by intros [? _]].
Qed.

Lemma NoDup_rglob (root : path) (tail : string) (s : fs) : NoDup (rglob root tail s).
Proof.
  unfold rglob. destruct (is_dir s root); [|constructor].
  apply NoDup_filter, NoDup_keys.
Qed.

Lemma listdir_entry (k d : path) (n : string) :
  match relative_to k d with Some [m] => Some m | _ => None end = Some n ↔ k = d ++ [n].
Proof.
  unfold relative_to. split.
  - case_bool_decide as Hp; [|done]. destruct Hp as [t ->].
    rewrite drop_app_length. destruct t as [|m [|]]; by intros [= ->].
  - intros ->. rewrite bool_decide_eq_true_2 by by apply prefix_app_r.
    by rewrite drop_app_length.
Qed.

Lemma elem_of_listdir (d : path) (s : fs) (n : string) :
  n ∈ listdir d s ↔ is_Some (s !! (d ++ [n])).
Proof.
  unfold listdir. rewrite list_elem_of_omap. split.
  - intros (k & Hk & ->%listdir_entry). by apply elem_of_keys.
  - intros H. exists (d ++ [n]). split; [by apply elem_of_keys|]. by apply listdir_entry.
Qed.

Lemma NoDup_listdir (d : path) (s : fs) : NoDup (listdir d s).
Proof.
  unfold listdir. assert (NoDup (keys s)) as H by apply NoDup_keys.
  induction H as [|k l Hk Hl IH]; simpl; [constructor|].
  destruct (match relative_to k d with Some [m] => Some m | _ => None end) as [n|] eqn:Hr;
    [|done].
  apply listdir_entry in Hr as ->.
  constructor; [|done].
  rewrite list_elem_of_omap. intros (k' & Hk' & ->%listdir_entry). done.
Qed.

(** ** Sorting *)

Lemma sorted_spec (l : list path) :
  NoDup l →
  StronglySorted path_le (sorted l) ∧ NoDup (sorted l) ∧ ∀ p, p ∈ sorted l ↔ p ∈ l.
Proof.
  intros Hnd. unfold sorted. split; [|split].
  - apply StronglySorted_merge_sort; apply _.
  - by rewrite merge_sort_Permutation.
  - intros p. by rewrite merge_sort_Permutation.
Qed.


(** ** Names *)

Lemma suffix_last_eq {A} (a b l : list A) x y :
  (a ++ [x]) `suffix_of` l → (b ++ [y]) `suffix_of` l → x = y.
Proof.
  intros [k ->] [k' H]. rewrite !app_assoc in H.
  by apply app_inj_tail in H as [_ ?].
Qed.

Lemma endswith_glb_gltf n pre :
  Str.endswith n (pre +:+ ".glb") = true → Str.endswith n (pre +:+ ".gltf") = true → False.
Proof.
  unfold Str.endswith. rewrite !bool_decide_eq_true, !Str.chars_app.
  change (Str.chars ".glb") with (Str.chars ".gl" ++ ["b"%char]).
  change (Str.chars ".gltf") with (Str.chars ".glt" ++ ["f"%char]).
  rewrite !app_assoc. intros H1 H2.
  by pose proof (suffix_last_eq _ _ _ _ _ H1 H2).
Qed.

(** The shape shared by the two scans: two patterns, one exclusion test,
    then [sorted]. *)
Lemma scan_spec (root : path) (excl : path → bool) (pre : string) (s : fs) :
  let l := sorted (flat_map (λ ext, filter (λ p, excl p = false) (rglob root (pre +:+ ext) s))
                            [".glb"; ".gltf"]) in
  StronglySorted path_le l ∧ NoDup l ∧
  ∀ p, p ∈ l ↔
       is_dir s root = true ∧ is_Some (s !! p) ∧ in_parents root p = true ∧
       excl p = false ∧
       (Str.endswith (name p) (pre +:+ ".glb") = true ∨
        Str.endswith (name p) (pre +:+ ".gltf") = true).
Proof.
  simpl. rewrite app_nil_r.
  set (l1 := filter _ (rglob root (pre +:+ ".glb") s)).
  set (l2 := filter _ (rglob root (pre +:+ ".gltf") s)).
  assert (∀ p, p ∈ l1 ↔ excl p = false ∧ p ∈ rglob root (pre +:+ ".glb") s) as H1
    by (intros p; unfold l1; by rewrite list_elem_of_filter).
  assert (∀ p, p ∈ l2 ↔ excl p = false ∧ p ∈ rglob root (pre +:+ ".gltf") s) as H2
    by (intros p; unfold l2; by rewrite list_elem_of_filter).
  assert (NoDup (l1 ++ l2)) as Hnd.
  { apply NoDup_app. split; [apply NoDup_filter, NoDup_rglob|].
    split; [|apply NoDup_filter, NoDup_rglob].
    intros p [_ Hp1]%H1 [_ Hp2]%H2.
    apply elem_of_rglob in Hp1 as (_ & _ & _ & E1).
    apply elem_of_rglob in Hp2 as (_ & _ & _ & E2).
    eapply endswith_glb_gltf; eauto. }
  destruct (sorted_spec _ Hnd) as (Hs & Hn & Hm).
  split; [done|]. split; [done|].
  intros p. rewrite Hm, elem_of_app, H1, H2, !elem_of_rglob. tauto.
Qed.

(** ** Discovery (both asset scripts) *)

(** What a scan is asked to find. *)
Definition optimized_name (n : string) : Prop :=
  Str.endswith n "-optimized.glb" = true ∨ Str.endswith n "-optimized.gltf" = true.

Definition model_name (n : string) : Prop :=
  Str.endswith n ".glb" = true ∨ Str.endswith n ".gltf" = true.

(** An entry below the backup root.  The scripts test it twice over
    ([BACKUP_DIR in p.parents or p.parent == BACKUP_DIR]); the second
    test adds nothing. *)
Lemma in_backup_parents (p : path) :
  FixNames.in_backup p = in_parents FixNames.BACKUP_DIR p.
Proof.
  unfold FixNames.in_backup. destruct (in_parents _ p) eqn:E; [done|]. simpl.
  apply bool_decide_eq_false. intros Hp. apply not_true_iff_false in E. apply E.
  unfold in_parents. apply andb_true_iff. split.
  - apply bool_decide_eq_true. rewrite <- Hp. unfold parent.
    destruct p as [|x p] using rev_ind; [done|].
    rewrite removelast_last. by apply prefix_app_r.
  - apply negb_true_iff, bool_decide_eq_false. intros <-. by vm_compute in Hp.
Qed.

(** C3, as the code has it: the scan returns, sorted and without
    repetition, exactly the entries below the assets root and outside the
    backup subtree whose name matches, directories as well as regular
    files, and leaves the tree as it found it.  For [fix-names.py] the name
    ends in [-optimized.glb] or [-optimized.gltf]; for [optimize-assets.py]
    in [.glb] or [.gltf]. *)
Theorem discovery_exact (s : fs) :
  (∃ l, FixNames.find_optimized_files s = (Ok l, s) ∧
        StronglySorted path_le l ∧ NoDup l ∧
        ∀ p, p ∈ l ↔
             is_dir s FixNames.ASSETS_DIR = true ∧ is_Some (s !! p) ∧
             in_parents FixNames.ASSETS_DIR p = true ∧
             in_parents FixNames.BACKUP_DIR p = false ∧
             optimized_name (name p)) ∧
  (∃ l, OptimizeAssets.find_files_to_process s = (Ok l, s) ∧
        StronglySorted path_le l ∧ NoDup l ∧
        ∀ p, p ∈ l ↔
             is_dir s OptimizeAssets.ASSETS_DIR = true ∧ is_Some (s !! p) ∧
             in_parents OptimizeAssets.ASSETS_DIR p = true ∧
             in_parents OptimizeAssets.BACKUP_DIR p = false ∧
             model_name (name p)).
Proof.
  split.
  - eexists. split; [reflexivity|].
    pose proof (scan_spec FixNames.ASSETS_DIR FixNames.in_backup "-optimized" s)
      as (Hs & Hn & Hm).
    split; [exact Hs|]. split; [exact Hn|].
    intros p. rewrite <- in_backup_parents. apply Hm.
  - eexists. split; [reflexivity|].
    pose proof (scan_spec OptimizeAssets.ASSETS_DIR OptimizeAssets.in_backup "" s)
      as (Hs & Hn & Hm).
    split; [exact Hs|]. split; [exact Hn|].
    intros p. change OptimizeAssets.BACKUP_DIR with FixNames.BACKUP_DIR.
    rewrite <- in_backup_parents. apply Hm.
Qed.

(** A directory whose name matches is discovered like a file. *)
Definition fs_pack : fs :=
  list_to_map
    [ (["public"], Dir true);
      (["public"; "assets"], Dir true);
      (["public"; "assets"; "pack-optimized.glb"], Dir true) ].

Lemma discovery_returns_directories :
  ∃ l p, fst (FixNames.find_optimized_files fs_pack) = Ok l ∧
         p ∈ l ∧ is_file fs_pack p = false ∧ is_dir fs_pack p = true.
Proof.
  exists [["public"; "assets"; "pack-optimized.glb"]], ["public"; "assets"; "pack-optimized.glb"].
  split; [vm_compute; reflexivity|]. split; [apply list_elem_of_here|].
  split; vm_compute; reflexivity.
Qed.

(** ** Names with an extension *)

Lemma split_last_dot_None (l : list ascii) :
  "."%char ∉ l → split_last_dot l = None.
Proof.
  induction l as [|c l IH]; simpl; [done|].
  rewrite not_elem_of_cons. intros [Hc Hl]. rewrite IH by done.
  by rewrite bool_decide_eq_false_2.
Qed.

Lemma split_last_dot_app (a b : list ascii) :
  "."%char ∉ b → split_last_dot (a ++ "."%char :: b) = Some (a, b).
Proof.
  intros Hb. induction a as [|c a IH]; simpl.
  - by rewrite split_last_dot_None.
  - by rewrite IH.
Qed.

(** A name [x.ext] with [x] not empty and no dot in [ext] splits into the
    stem [x] and the suffix [.ext]. *)
Lemma split_name_ext (x e : list ascii) :
  x ≠ [] → e ≠ [] → "."%char ∉ e →
  split_name (Str.str (x ++ "."%char :: e)) = (Str.str x, Str.str ("."%char :: e)).
Proof.
  intros Hx He Hd. unfold split_name.
  rewrite Str.chars_str, split_last_dot_app by done.
  destruct x; [done|]. destruct e; done.
Qed.

Lemma endswith_inv (n suf : string) :
  Str.endswith n suf = true → ∃ x, n = Str.str (x ++ Str.chars suf).
Proof.
  unfold Str.endswith. rewrite bool_decide_eq_true. intros [x Hx].
  exists x. by rewrite <- Hx, Str.str_chars.
Qed.

Lemma str_app (a b : list ascii) : Str.str (a ++ b) = Str.str a +:+ Str.str b.
Proof. apply Str.chars_inj. by rewrite Str.chars_app, !Str.chars_str. Qed.

Definition model_ext (ext : string) : Prop := ext = ".glb" ∨ ext = ".gltf".

(** The names [fix-names.py] looks for: a stem ending in the marker, then
    one of the two extensions. *)
Lemma optimized_name_inv (n : string) :
  optimized_name n →
  ∃ x ext, model_ext ext ∧
           n = Str.str (x ++ Str.chars "-optimized") +:+ ext ∧
           split_name n = (Str.str (x ++ Str.chars "-optimized"), ext).
Proof.
  intros [H|H]; apply endswith_inv in H as [x ->].
  - exists x, ".glb". split; [by left|].
    change (Str.chars "-optimized.glb")
      with (Str.chars "-optimized" ++ "."%char :: Str.chars "glb").
    rewrite app_assoc. split.
    + by rewrite str_app.
    + apply split_name_ext; [by destruct x|done|].
      rewrite list_elem_of_In. simpl. intuition discriminate.
  - exists x, ".gltf". split; [by right|].
    change (Str.chars "-optimized.gltf")
      with (Str.chars "-optimized" ++ "."%char :: Str.chars "gltf").
    rewrite app_assoc. split.
    + by rewrite str_app.
    + apply split_name_ext; [by destruct x|done|].
      rewrite list_elem_of_In. simpl. intuition discriminate.
Qed.

Lemma str_length_app (a b : string) :
  String.length (a +:+ b) = String.length a + String.length b.
Proof. induction a as [|c a IH]; simpl; [done|]. by rewrite IH. Qed.

Lemma str_app_nonempty (a ext : string) : model_ext ext → a +:+ ext ≠ "" ∧ a +:+ ext ≠ ".".
Proof.
  intros Hext. split; intros H%(f_equal String.length); rewrite str_length_app in H;
    destruct Hext as [-> | ->]; simpl in H; lia.
Qed.

(** The destination of a discovered entry: same directory, same
    extension, and the stem with every occurrence of the marker dropped. *)
Lemma get_original_name_shape (p : path) :
  optimized_name (name p) →
  ∃ ext, model_ext ext ∧ suffix p = ext ∧
         FixNames.get_original_name p = parent p ++ [Str.remove_all "-optimized" (stem p) +:+ ext].
Proof.
  intros (x & ext & Hext & Hn & Hs)%optimized_name_inv.
  exists ext. split; [done|]. unfold FixNames.get_original_name, suffix, stem. rewrite Hs. simpl.
  split; [done|]. unfold joinpath.
  destruct (str_app_nonempty (Str.remove_all "-optimized" (Str.str (x ++ Str.chars "-optimized")))
              ext Hext) as [H1 H2].
  by rewrite !bool_decide_eq_false_2.
Qed.

(** ** Suffix stripping (fix-names.py, [get_original_name])

    The docstring of [get_original_name] and the specification speak of
    removing the [-optimized] suffix of the stem.  [strip_marker_suffix]
    is that operation, written from those words, for comparison with what
    [str.replace] does. *)

Definition strip_marker_suffix (stem : string) : string :=
  let l := Str.chars stem in
  let m := Str.chars "-optimized" in
  if bool_decide (m `suffix_of` l) then Str.str (take (length l - length m) l) else stem.

Definition canonical_name (optimized_path : path) : path :=
  joinpath (parent optimized_path)
           (strip_marker_suffix (stem optimized_path) +:+ suffix optimized_path).

Lemma remove_from_cons (pat : list ascii) (c : ascii) (l : list ascii) :
  Str.remove_from pat 0 (c :: l) =
  if bool_decide (pat `prefix_of` c :: l)
  then Str.remove_from pat (length pat - 1) l
  else c :: Str.remove_from pat 0 l.
Proof. done. Qed.

Lemma remove_all_marker (s : string) :
  Str.remove_all "-optimized" s =
  Str.str (Str.remove_from (Str.chars "-optimized") 0 (Str.chars s)).
Proof. reflexivity. Qed.

Lemma remove_from_no_dash (x : list ascii) :
  "-"%char ∉ x →
  Str.remove_from (Str.chars "-optimized") 0 (x ++ Str.chars "-optimized") = x.
Proof.
  induction x as [|c x IH]; [done|].
  rewrite not_elem_of_cons. intros [Hc Hx].
  rewrite <- app_comm_cons, remove_from_cons, bool_decide_eq_false_2.
  - by rewrite IH.
  - intros [k Hk]. injection Hk as Hk _. by subst c.
Qed.

(** Where the marker occurs once, at the end of the stem, the script
    computes the canonical name: same directory, same extension, marker
    gone, the rest of the stem as it was. *)
Lemma get_original_name_single_marker (d : path) (x : list ascii) (ext : string) :
  "-"%char ∉ x → model_ext ext →
  let p := d ++ [Str.str (x ++ Str.chars "-optimized") +:+ ext] in
  FixNames.get_original_name p = d ++ [Str.str x +:+ ext] ∧
  FixNames.get_original_name p = canonical_name p.
Proof.
  intros Hx Hext p.
  assert (name p = Str.str (x ++ Str.chars "-optimized") +:+ ext) as Hn
    by (unfold p, name; by rewrite last_last).
  assert (parent p = d) as Hp by (unfold p, parent; by rewrite removelast_last).
  assert (split_name (name p) = (Str.str (x ++ Str.chars "-optimized"), ext)) as Hs.
  { rewrite Hn. destruct Hext as [-> | ->].
    - change ".glb" with (Str.str ("."%char :: Str.chars "glb")) at 1.
      rewrite <- str_app. apply split_name_ext; [by destruct x|done|].
      rewrite list_elem_of_In. simpl. intuition discriminate.
    - change ".gltf" with (Str.str ("."%char :: Str.chars "gltf")) at 1.
      rewrite <- str_app. apply split_name_ext; [by destruct x|done|].
      rewrite list_elem_of_In. simpl. intuition discriminate. }
  unfold FixNames.get_original_name, canonical_name, stem, suffix. rewrite Hs, Hp.
  cbn [fst snd].
  assert (Str.remove_all "-optimized" (Str.str (x ++ Str.chars "-optimized")) = Str.str x) as ->.
  { rewrite remove_all_marker, Str.chars_str. f_equal. by apply remove_from_no_dash. }
  assert (strip_marker_suffix (Str.str (x ++ Str.chars "-optimized")) = Str.str x) as ->.
  { unfold strip_marker_suffix. rewrite Str.chars_str.
    rewrite bool_decide_eq_true_2 by by apply suffix_app_r.
    rewrite length_app, Nat.add_sub, take_app_length. done. }
  destruct (str_app_nonempty (Str.str x) ext Hext) as [H1 H2].
  unfold joinpath. by rewrite !bool_decide_eq_false_2.
Qed.

Definition fs_car_v2 : fs :=
  list_to_map
    [ (["public"], Dir true);
      (["public"; "assets"], Dir true);
      (["public"; "assets"; "car-optimized-v2-optimized.glb"], File "v2") ].

(** C4: the file [car-optimized-v2-optimized.glb] is discovered, and
    [get_original_name] sends it to [car-v2.glb]; removing the marker
    suffix of the stem, as the docstring and the specification describe
    it, gives [car-optimized-v2.glb].  [str.replace] drops every
    occurrence of the marker, not the trailing one alone. *)
Theorem get_original_name_drops_inner_marker :
  let p := ["public"; "assets"; "car-optimized-v2-optimized.glb"] in
  fst (FixNames.find_optimized_files fs_car_v2) = Ok [p] ∧
  FixNames.get_original_name p = ["public"; "assets"; "car-v2.glb"] ∧
  canonical_name p = ["public"; "assets"; "car-optimized-v2.glb"] ∧
  FixNames.get_original_name p ≠ canonical_name p.
Proof.
  intros p. split; [by vm_compute|].
  assert (FixNames.get_original_name p = ["public"; "assets"; "car-v2.glb"]) as H1
    by by vm_compute.
  assert (canonical_name p = ["public"; "assets"; "car-optimized-v2.glb"]) as H2
    by by vm_compute.
  split; [exact H1|]. split; [exact H2|].
  rewrite H1, H2. intros [=].
Qed.

(** ** The confirmation gate (fix-names.py) *)

Lemma process_file_dry_run (p : path) (s : fs) :
  FixNames.process_file p true s = (Ok true, s).
Proof. reflexivity. Qed.

Lemma preview_pure (files : list path) (s : fs) :
  FixNames.preview files s = (Ok (), s).
Proof.
  induction files as [|p files IH]; [done|].
  cbn [FixNames.preview]. by rewrite (bind_ok _ _ _ _ _ (process_file_dry_run p s)).
Qed.

(** What the operator's answer amounts to: [None] is an input stream that
    cannot be read. *)
Definition confirms (answer : option string) : bool :=
  match answer with
  | Some line => FixNames.affirmative (Str.lower (Str.strip line))
  | None => false
  end.

(** The prompt is reached when the assets root exists and the scan found
    something. *)
Definition prompt_reached (s : fs) : Prop :=
  exists_ s FixNames.ASSETS_DIR = true ∧ fst (FixNames.find_optimized_files s) ≠ Ok [].

Lemma main_unconfirmed (answer : option string) (s : fs) :
  confirms answer = false →
  ∃ code, FixNames.main answer s = (Ok (Exit code), s) ∧
          (prompt_reached s → code = 0).
Proof.
  intros Hc. unfold FixNames.main, prompt_reached.
  unfold bind at 1. unfold get at 1.
  destruct (exists_ s FixNames.ASSETS_DIR) eqn:Hroot; cbn [negb].
  2:{ exists 1. split; [done|]. by intros [? _]. }
  unfold bind at 1.
  destruct (FixNames.find_optimized_files s) as [r s1] eqn:Hfind.
  assert (s1 = s ∧ ∃ l, r = Ok l) as [-> [l ->]].
  { unfold FixNames.find_optimized_files, get in Hfind. injection Hfind as <- <-. eauto. }
  destruct l as [|p l]; [exists 0; by split|].
  exists 0. split; [|done].
  rewrite (bind_ok _ _ _ _ _ (preview_pure _ s)).
  destruct answer as [line|]; [|done].
  simpl in Hc. by rewrite Hc.
Qed.





(** [optimize-assets.py] asks nothing: [main] takes no answer, and on a
    tree with an empty assets root it has already created the backup
    directory when it finds that there is nothing to do. *)
Definition fs_empty_assets : fs :=
  list_to_map [ (["public"], Dir true); (["public"; "assets"], Dir true) ].

(** An installed optimizer that compresses whatever it is given. *)
Definition env_ok : env :=
  Env (λ _ _ _, ToolRun true (Some "opt")) true true.


(** ** Errors of the file system, file by file *)

(** [fix-names.py]: whatever happens while a file is processed ends in
    [True] or [False], never in an exception. *)
Lemma fix_names_process_file_total (p : path) (dry_run : bool) (s : fs) :
  ∃ ok s', FixNames.process_file p dry_run s = (Ok ok, s').
Proof.
  unfold FixNames.process_file, bind at 1, get at 1.
  destruct dry_run; [by eexists _, _|].
  unfold try_except.
  match goal with |- context [match ?m s with _ => _ end] => destruct (m s) as [[ok|e] s'] end;
    by eexists _, _.
Qed.

(** The execution loop therefore runs to its end, counts every file
    once, and lists the files whose processing returned [False]. *)
Lemma fix_names_execute_total (files : list path) (acc : FixNames.summary) (s : fs) :
  ∃ r s', FixNames.execute files acc s = (Ok r, s') ∧
          FixNames.success_count r + length (FixNames.failed_files r) =
          FixNames.success_count acc + length (FixNames.failed_files acc) + length files.
Proof.
  revert acc s. induction files as [|p files IH]; intros acc s.
  - exists acc, s. split; [done|]. simpl. lia.
  - destruct (fix_names_process_file_total p false s) as (ok & s1 & Hp).
    cbn [FixNames.execute]. rewrite (bind_ok _ _ _ _ _ Hp).
    match goal with |- context [FixNames.execute files ?a s1] =>
      destruct (IH a s1) as (r & s' & Hr & Hc) end.
    exists r, s'. split; [done|]. rewrite Hc.
    destruct ok; simpl; rewrite ?length_app; simpl; lia.
Qed.

(** A backup directory that cannot be written to, and two models. *)
Definition fs_readonly_backup : fs :=
  list_to_map
    [ (["public"], Dir true);
      (["public"; "assets"], Dir true);
      (["public"; "assets"; "originals"], Dir false);
      (["public"; "assets"; "a.glb"], File "aaaaaaaa");
      (["public"; "assets"; "b.glb"], File "bbbbbbbb") ].

(** The same for [fix-names.py]: [a.glb] is in the way of
    [a-optimized.glb] and cannot be moved to the backup directory. *)
Definition fs_readonly_backup_names : fs :=
  list_to_map
    [ (["public"], Dir true);
      (["public"; "assets"], Dir true);
      (["public"; "assets"; "originals"], Dir false);
      (["public"; "assets"; "a.glb"], File "old a");
      (["public"; "assets"; "a-optimized.glb"], File "new a");
      (["public"; "assets"; "b-optimized.glb"], File "new b") ].

(** C6: with a read-only backup directory, moving [a.glb] to its backup
    raises [PermissionError] in both scripts.  [fix-names.py] catches it,
    lists [a-optimized.glb] as failed and goes on to rename
    [b-optimized.glb].  In [optimize-assets.py] nothing catches it: [main]
    ends with the exception, no summary is produced and [b.glb] is never
    processed. *)
Theorem optimize_move_error_aborts_run :
  (fst (FixNames.main (Some "s") fs_readonly_backup_names)
     = Ok (Finished (FixNames.Summary 1 [["a-optimized.glb"]])) ∧
   snd (FixNames.main (Some "s") fs_readonly_backup_names) !! ["public"; "assets"; "b.glb"]
     = Some (File "new b")) ∧
  (let r := OptimizeAssets.main env_ok fs_readonly_backup in
   fst r = Raise PermissionError ∧
   snd r !! ["public"; "assets"; "a.glb"] = Some (File "aaaaaaaa") ∧
   snd r !! ["public"; "assets"; "a-temp-optimized.glb"] = Some (File "opt") ∧
   snd r !! ["public"; "assets"; "b.glb"] = Some (File "bbbbbbbb") ∧
   snd r !! ["public"; "assets"; "b-temp-optimized.glb"] = None).
Proof.
  split.
  - split; vm_compute; reflexivity.
  - cbv zeta. repeat split; vm_compute; reflexivity.
Qed.

(** ** Paths: ancestors *)

Lemma relative_to_Some (q d t : path) : relative_to q d = Some t ↔ q = d ++ t.
Proof.
  unfold relative_to. case_bool_decide as Hp.
  - destruct Hp as [t' ->]. rewrite drop_app_length. split.
    + by intros [= ->].
    + by intros ->%app_inv_head.
  - split; [done|]. intros ->. destruct Hp. by apply prefix_app_r.
Qed.

Lemma relative_to_None (q d : path) : relative_to q d = None ↔ ¬ d `prefix_of` q.
Proof. unfold relative_to. case_bool_decide; naive_solver. Qed.

Lemma in_parents_spec (d p : path) :
  in_parents d p = true ↔ ∃ t, t ≠ [] ∧ p = d ++ t.
Proof.
  unfold in_parents. rewrite andb_true_iff, negb_true_iff, bool_decide_eq_true,
    bool_decide_eq_false. split.
  - intros [[t ->] Hne]. exists t. split; [|done]. intros ->. by rewrite app_nil_r in Hne.
  - intros (t & Ht & ->). split; [by apply prefix_app_r|].
    intros H. apply Ht. rewrite <- (app_nil_r d) in H at 1. by apply app_inv_head in H.
Qed.

Lemma parent_snoc (d : path) (n : string) : parent (d ++ [n]) = d.
Proof. unfold parent. apply removelast_last. Qed.

Lemma name_snoc (d : path) (n : string) : name (d ++ [n]) = n.
Proof. unfold name. apply last_last. Qed.

Lemma path_snoc (p : path) : p ≠ [] → p = parent p ++ [name p].
Proof. intros Hp. unfold parent, name. by apply app_removelast_last. Qed.

Lemma parent_app (d t : path) : t ≠ [] → parent (d ++ t) = d ++ parent t.
Proof. intros Ht. unfold parent. by apply removelast_app. Qed.

Lemma prefix_parent (d p : path) : in_parents d p = true → d `prefix_of` parent p.
Proof.
  intros (t & Ht & ->)%in_parents_spec. rewrite parent_app by done. by apply prefix_app_r.
Qed.

Lemma prefix_snoc_inv (d e : path) (n : string) :
  d `prefix_of` e ++ [n] → d = e ++ [n] ∨ d `prefix_of` e.
Proof.
  intros [t Ht]. destruct t as [|x t _] using rev_ind.
  - left. by rewrite app_nil_r in Ht.
  - right. rewrite app_assoc in Ht. apply app_inj_tail in Ht as [-> _].
    by apply prefix_app_r.
Qed.

(** ** Re-rooting a tree *)

Lemma elem_of_shifted_list (src dst : path) (s : fs) (q : path) (v : node) :
  (q, v) ∈ omap (shift_entry src dst) (map_to_list s) ↔
  ∃ t, q = dst ++ t ∧ s !! (src ++ t) = Some v.
Proof.
  rewrite list_elem_of_omap. split.
  - intros ([k v'] & Hk & Hf). apply elem_of_map_to_list in Hk.
    unfold shift_entry in Hf. simpl in Hf.
    destruct (relative_to k src) as [t|] eqn:Hr; [|done].
    apply relative_to_Some in Hr as ->. injection Hf as <- <-. eauto.
  - intros (t & -> & Ht). exists (src ++ t, v). split; [by apply elem_of_map_to_list|].
    unfold shift_entry. simpl.
    by rewrite (proj2 (relative_to_Some (src ++ t) src t) eq_refl).
Qed.

Lemma shifted_lookup (src dst : path) (s : fs) (q : path) :
  shifted src dst s !! q =
  match relative_to q dst with
  | Some t => s !! (src ++ t)
  | None => None
  end.
Proof.
  unfold shifted. destruct (relative_to q dst) as [t|] eqn:Hr.
  - apply relative_to_Some in Hr as ->.
    destruct (s !! (src ++ t)) as [v|] eqn:Hv.
    + apply elem_of_list_to_map_1'.
      * intros y (t' & Ht' & Hy)%elem_of_shifted_list.
        apply app_inv_head in Ht' as <-. congruence.
      * apply elem_of_shifted_list. eauto.
    + apply not_elem_of_list_to_map_1. rewrite list_elem_of_fmap.
      intros ([q' v] & Hq & (t' & Ht' & Hy)%elem_of_shifted_list). simpl in Hq. subst q'.
      apply app_inv_head in Ht' as <-. congruence.
  - apply not_elem_of_list_to_map_1. rewrite list_elem_of_fmap.
    intros ([q' v] & Hq & (t' & Ht' & Hy)%elem_of_shifted_list). simpl in Hq. subst q'.
    apply relative_to_None in Hr. apply Hr. subst q. by apply prefix_app_r.
Qed.

Lemma reroot_lookup (src dst : path) (s : fs) (q : path) :
  reroot src dst s !! q =
  match relative_to q dst with
  | Some t => s !! (src ++ t)
  | None => if bool_decide (src `prefix_of` q) then None else s !! q
  end.
Proof.
  unfold reroot.
  assert (∀ A (o : option A), union_with (λ x _, Some x) o None = o) as Hu
    by (by intros ? []).
  rewrite lookup_union, shifted_lookup.
  destruct (relative_to q dst) as [t|] eqn:Hr.
  - apply relative_to_Some in Hr as ->.
    rewrite (map_lookup_filter_None_2 _ s (dst ++ t)); [apply Hu|].
    right. intros x _ [_ H]. apply H. by apply prefix_app_r.
  - apply relative_to_None in Hr. case_bool_decide as Hs.
    + rewrite map_lookup_filter_None_2; [done|]. right. by intros x _ [H _].
    + destruct (s !! q) as [v|] eqn:Hv.
      * by rewrite (map_lookup_filter_Some_2 _ s q v).
      * rewrite map_lookup_filter_None_2; [done|]. by left.
Qed.

(** ** Well-formed trees *)

Lemma stat_lookup (s : fs) (p : path) : p ≠ [] → stat s p = s !! p.
Proof. by destruct p. Qed.

Lemma is_dir_stat (s : fs) (p : path) :
  is_dir s p = true ↔ ∃ w, stat s p = Some (Dir w).
Proof.
  unfold is_dir. destruct (stat s p) as [[c|w]|]; split; try done; eauto.
  - by intros [? ?].
  - by intros [? ?].
Qed.

Lemma wf_lookup_nonempty (s : fs) (p : path) (n : node) :
  wf s → s !! p = Some n → p ≠ [].
Proof. intros Hwf Hp. by destruct (Hwf p n Hp). Qed.

Lemma wf_stat_parent (s : fs) (p : path) (n : node) :
  wf s → stat s p = Some n → is_dir s (parent p) = true.
Proof.
  intros Hwf Hp. destruct p as [|x p]; [done|].
  by destruct (Hwf (x :: p) n Hp).
Qed.

(** Every proper ancestor of a stored entry is a directory. *)
Lemma wf_ancestor_dir (s : fs) (d t : path) :
  wf s → t ≠ [] → is_Some (s !! (d ++ t)) → is_dir s d = true.
Proof.
  intros Hwf. induction t as [|x t IH] using rev_ind; [done|].
  intros _ [n Hn]. destruct (Hwf _ _ Hn) as [_ Hp].
  rewrite app_assoc, parent_snoc in Hp.
  destruct t as [|y t]; [by rewrite app_nil_r in Hp|].
  apply IH; [done|].
  apply is_dir_stat in Hp as [w Hw]. rewrite stat_lookup in Hw by by destruct d.
  eauto.
Qed.

Lemma wf_below_missing (s : fs) (d q : path) :
  wf s → stat s d = None → in_parents d q = true → s !! q = None.
Proof.
  intros Hwf Hd (t & Ht & ->)%in_parents_spec.
  destruct (s !! (d ++ t)) eqn:E; [|done].
  assert (is_dir s d = true) as H by (eapply wf_ancestor_dir; eauto).
  apply is_dir_stat in H as [w Hw]. congruence.
Qed.

Lemma wf_below_file (s : fs) (d q : path) (c : string) :
  wf s → stat s d = Some (File c) → in_parents d q = true → s !! q = None.
Proof.
  intros Hwf Hd (t & Ht & ->)%in_parents_spec.
  destruct (s !! (d ++ t)) eqn:E; [|done].
  assert (is_dir s d = true) as H by (eapply wf_ancestor_dir; eauto).
  apply is_dir_stat in H as [w Hw]. congruence.
Qed.

(** Adding an entry to a directory, where nothing or a regular file was. *)
Lemma wf_insert (s : fs) (p : path) (n : node) :
  wf s → p ≠ [] → is_dir s (parent p) = true → is_dir s p = false →
  wf (<[p := n]> s).
Proof.
  intros Hwf Hp Hpar Hnd q m Hq.
  assert (∀ d, is_dir s d = true → is_dir (<[p := n]> s) d = true) as Hmono.
  { intros d Hd. destruct d as [|x d]; [done|].
    destruct (decide (p = x :: d)) as [->|Hne]; [congruence|].
    unfold is_dir in *. rewrite stat_lookup by done. rewrite stat_lookup in Hd by done.
    by rewrite lookup_insert_ne. }
  destruct (decide (p = q)) as [->|Hne].
  - split; [done|]. by apply Hmono.
  - rewrite lookup_insert_ne in Hq by done.
    destruct (Hwf q m Hq) as [Hq1 Hq2]. split; [done|]. by apply Hmono.
Qed.

(** Removing an entry that has nothing below it. *)
Lemma wf_delete (s : fs) (p : path) :
  wf s → (∀ q, in_parents p q = true → s !! q = None) → wf (delete p s).
Proof.
  intros Hwf Hch q m Hq.
  destruct (decide (p = q)) as [->|Hne]; [by rewrite lookup_delete_eq in Hq|].
  rewrite lookup_delete_ne in Hq by done.
  destruct (Hwf q m Hq) as [Hq1 Hq2]. split; [done|].
  destruct (decide (parent q = [])) as [->|Hpq]; [done|].
  unfold is_dir in *. rewrite stat_lookup by done. rewrite stat_lookup in Hq2 by done.
  destruct (decide (p = parent q)) as [->|Hne'].
  - rewrite Hch in Hq; [done|]. apply in_parents_spec. exists [name q].
    split; [done|]. by apply path_snoc.
  - by rewrite lookup_delete_ne.
Qed.

Lemma prefix_of_parent (d q : path) : d `prefix_of` parent q → d `prefix_of` q.
Proof.
  intros H. destruct (decide (q = [])) as [->|Hq]; [done|].
  rewrite (path_snoc q Hq). by apply prefix_app_r.
Qed.

Lemma not_prefix_parent (d : path) : d ≠ [] → ¬ d `prefix_of` parent d.
Proof.
  intros Hd H%prefix_length. rewrite (path_snoc d Hd) in H at 1.
  rewrite length_app in H. simpl in H. lia.
Qed.

Lemma is_dir_lookup (s : fs) (d : path) :
  is_dir s d = true ↔ d = [] ∨ ∃ w, s !! d = Some (Dir w).
Proof.
  rewrite is_dir_stat. destruct d as [|x d]; [simpl; split; eauto|].
  rewrite stat_lookup by done. split; [eauto|]. by intros [|].
Qed.

(** A tree stays a tree when a subtree is re-rooted below a directory
    outside of it. *)
Lemma wf_reroot (s : fs) (src dst : path) :
  wf s → src ≠ [] → dst ≠ [] → is_dir s (parent dst) = true → ¬ src `prefix_of` dst →
  wf (reroot src dst s).
Proof.
  intros Hwf Hsrc Hdst Hpd Hns q n. rewrite reroot_lookup.
  assert (∀ d, is_dir s d = true → ¬ src `prefix_of` d → ¬ dst `prefix_of` d →
               is_dir (reroot src dst s) d = true) as Hkeep.
  { intros d Hd H1 H2. apply is_dir_lookup in Hd as [->|[w Hw]]; [done|].
    apply is_dir_lookup. right. exists w. rewrite reroot_lookup.
    rewrite (proj2 (relative_to_None d dst)) by done.
    by rewrite bool_decide_eq_false_2. }
  destruct (relative_to q dst) as [t|] eqn:Hr.
  - apply relative_to_Some in Hr as ->. intros Hn.
    split; [by destruct dst|].
    destruct (decide (t = [])) as [->|Ht].
    + rewrite app_nil_r. apply Hkeep; [done| |by apply not_prefix_parent].
      intros H. by apply Hns, prefix_of_parent.
    + rewrite parent_app by done. apply is_dir_lookup. right.
      destruct (Hwf _ _ Hn) as [_ Hp]. rewrite parent_app in Hp by done.
      apply is_dir_lookup in Hp as [Hp|[w Hw]]; [by destruct src|].
      exists w. rewrite reroot_lookup.
      by rewrite (proj2 (relative_to_Some (dst ++ parent t) dst (parent t)) eq_refl).
  - apply relative_to_None in Hr. case_bool_decide as Hs; [done|]. intros Hn.
    destruct (Hwf _ _ Hn) as [Hq Hp]. split; [done|].
    apply Hkeep; [done| |]; intros H; [apply Hs|apply Hr]; by apply prefix_of_parent.
Qed.

(** Removing a whole subtree. *)
Lemma wf_remove_subtree (s : fs) (src : path) :
  wf s → wf (filter (λ kv : path * node, ¬ src `prefix_of` kv.1) s).
Proof.
  intros Hwf q n [Hn Hq]%map_lookup_filter_Some. simpl in Hq.
  destruct (Hwf _ _ Hn) as [Hq1 Hq2]. split; [done|].
  apply is_dir_lookup in Hq2 as [Hq2|[w Hw]]; apply is_dir_lookup; [by left|right].
  exists w. apply map_lookup_filter_Some. split; [done|]. simpl.
  intros H. by apply Hq, prefix_of_parent.
Qed.

(** ** The primitives, read backwards from their result *)

Lemma os_mkdir_inv (p : path) (s s' : fs) (r : result ()) :
  os_mkdir p s = (r, s') →
  (r = Ok () ∧ p ≠ [] ∧ s !! p = None ∧ stat s (parent p) = Some (Dir true) ∧
   s' = <[p := Dir true]> s) ∨
  (∃ e, r = Raise e ∧ s' = s ∧
        (e = FileNotFoundError → stat s p = None ∧ stat s (parent p) = None)).
Proof.
  unfold os_mkdir. intros H.
  destruct (stat s p) as [n|] eqn:Hp.
  { right. injection H as <- <-. eexists. by repeat split. }
  assert (p ≠ []) as Hne by (by intros ->).
  pose proof Hp as Hp'. rewrite stat_lookup in Hp' by done.
  destruct (stat s (parent p)) as [[c|[|]]|] eqn:Hpar; injection H as <- <-.
  - right. eexists. by repeat split.
  - left. by repeat split.
  - right. eexists. by repeat split.
  - right. eexists. by repeat split.
Qed.

Lemma os_unlink_inv (p : path) (s s' : fs) (r : result ()) :
  os_unlink p s = (r, s') →
  (r = Ok () ∧ (∃ c, s !! p = Some (File c)) ∧ dir_writable s (parent p) = true ∧
   s' = delete p s) ∨
  (∃ e, r = Raise e ∧ s' = s).
Proof.
  unfold os_unlink. intros H.
  destruct (stat s p) as [[c|w]|] eqn:Hp.
  - assert (p ≠ []) as Hne by (by intros ->).
    rewrite stat_lookup in Hp by done.
    destruct (dir_writable s (parent p)) eqn:Hw; injection H as <- <-.
    + left. repeat split; eauto.
    + right. eauto.
  - right. injection H as <- <-. eauto.
  - right. injection H as <- <-. eauto.
Qed.

Lemma write_file_inv (p : path) (c : string) (s s' : fs) (r : result ()) :
  write_file p c s = (r, s') →
  (r = Ok () ∧ p ≠ [] ∧ is_dir s p = false ∧
   (is_Some (s !! p) ∨ dir_writable s (parent p) = true) ∧
   s' = <[p := File c]> s) ∨
  (∃ e, r = Raise e ∧ s' = s).
Proof.
  unfold write_file, is_dir, dir_writable. intros H.
  destruct (stat s p) as [[c'|w]|] eqn:Hp.
  - assert (p ≠ []) as Hne by (by intros ->).
    rewrite stat_lookup in Hp by done. injection H as <- <-.
    left. repeat split; eauto.
  - right. injection H as <- <-. eauto.
  - assert (p ≠ []) as Hne by (by intros ->).
    destruct (stat s (parent p)) as [[c'|[|]]|] eqn:Hpar; injection H as <- <-;
      try (right; by eauto).
    left. repeat split; eauto.
Qed.

(** When [os.rename] may replace what is at the destination. *)
Definition rename_replaces (s : fs) (src dst : path) : Prop :=
  stat s dst = None ∨
  (is_file s src = true ∧ is_file s dst = true) ∨
  (is_dir s src = true ∧ is_dir s dst = true ∧ has_children s dst = false).

Lemma os_rename_inv (src dst : path) (s s' : fs) (r : result ()) :
  os_rename src dst s = (r, s') →
  (∃ e, r = Raise e ∧ s' = s) ∨
  (r = Ok () ∧ src ≠ [] ∧ is_Some (s !! src) ∧
   (src = dst ∧ s' = s ∨
    src ≠ dst ∧ is_dir s (parent dst) = true ∧ ¬ src `prefix_of` dst ∧
    rename_replaces s src dst ∧ s' = reroot src dst s)).
Proof.
  unfold os_rename. intros H.
  destruct src as [|x src]; [left; injection H as <- <-; eauto|].
  destruct (stat s (x :: src)) as [n|] eqn:Hsrc; [|left; injection H as <- <-; eauto].
  assert (is_Some (s !! (x :: src))) as Hsome by (rewrite <- stat_lookup by done; eauto).
  case_bool_decide as Heq.
  { right. injection H as <- <-. repeat split; eauto. }
  destruct (stat s (parent dst)) as [[c|w]|] eqn:Hpar;
    [left; injection H as <- <-; eauto| |left; injection H as <- <-; eauto].
  case_bool_decide as Hpre; [left; injection H as <- <-; eauto|].
  assert (is_dir s (parent dst) = true) as Hpd by (unfold is_dir; by rewrite Hpar).
  match type of H with
  | context [if ?b then (Ok (), reroot _ _ _) else _] => destruct b eqn:Hperm
  end.
  - destruct n as [c|w'], (stat s dst) as [[c'|w'']|] eqn:Hdst;
      try (left; injection H as <- <-; by eauto);
      try (right; injection H as <- <-; repeat split; try done; right; repeat split; try done).
    + right. left. unfold is_file. by rewrite Hsrc, Hdst.
    + by left.
    + destruct (has_children s dst) eqn:Hch; [left; injection H as <- <-; eauto|].
      right. injection H as <- <-. repeat split; try done. right. repeat split; try done.
      right. right. unfold is_dir. by rewrite Hsrc, Hdst.
    + by left.
  - left. destruct n as [c|w'], (stat s dst) as [[c'|w'']|] eqn:Hdst;
      try (injection H as <- <-; by eauto).
    destruct (has_children s dst); injection H as <- <-; eauto.
Qed.

(** ** [Path.mkdir] *)

(** What [Path.mkdir(parents=True)] may do to a tree: add writable
    directories along the path, where nothing was. *)
Definition grows_by_dirs (p : path) (s s' : fs) : Prop :=
  ∀ q, s' !! q = s !! q ∨
       (s !! q = None ∧ s' !! q = Some (Dir true) ∧ q `prefix_of` p ∧ q ≠ []).

Lemma grows_by_dirs_refl (p : path) (s : fs) : grows_by_dirs p s s.
Proof. intros q. by left. Qed.

Lemma grows_by_dirs_trans (p p' : path) (s1 s2 s3 : fs) :
  p' `prefix_of` p → grows_by_dirs p' s1 s2 → grows_by_dirs p s2 s3 → grows_by_dirs p s1 s3.
Proof.
  intros Hpp H12 H23 q. destruct (H23 q) as [E3|(E2 & E3 & Hq & Hne)].
  - rewrite E3. destruct (H12 q) as [E2|(E1 & E2 & Hq & Hne)]; [by left|].
    right. repeat split; try done. by etrans.
  - destruct (H12 q) as [E1|(E1 & E2' & _)]; [|congruence].
    right. repeat split; try done. congruence.
Qed.

Lemma mkdir_tail_inv (exist_ok : bool) (p : path) (e : exn) (s s' : fs) (r : result ()) :
  (let! d := get (λ s, is_dir s p) in
   if negb exist_ok || negb d then raise e else ret ()) s = (r, s') →
  s' = s ∧ (r = Ok () → is_dir s p = true).
Proof.
  unfold bind, get. destruct (is_dir s p), exist_ok; simpl; intros [= <- <-]; by split.
Qed.

Lemma os_mkdir_spec (p : path) (s s' : fs) :
  wf s → os_mkdir p s = (Ok (), s') →
  wf s' ∧ grows_by_dirs p s s' ∧ is_dir s' p = true.
Proof.
  intros Hwf [(_ & Hne & Hp & Hpar & ->)|(e & [=] & _)]%os_mkdir_inv.
  split; [|split].
  - apply wf_insert; try done.
    + unfold is_dir. by rewrite Hpar.
    + unfold is_dir. rewrite stat_lookup by done. by rewrite Hp.
  - intros q. destruct (decide (q = p)) as [->|Hq].
    + right. by rewrite lookup_insert_eq.
    + left. by rewrite lookup_insert_ne.
  - apply is_dir_lookup. right. exists true. by rewrite lookup_insert_eq.
Qed.

Lemma Path_mkdir_fuel_unfold (fuel : nat) (parents exist_ok : bool) (p : path) :
  Path_mkdir_fuel fuel parents exist_ok p =
  try_except (os_mkdir p) (λ e,
    match e with
    | FileNotFoundError =>
        if negb parents || bool_decide (parent p = p) then raise e else
        match fuel with
        | O => raise RecursionError
        | S k =>
            Path_mkdir_fuel k true true (parent p) >>
            try_except (os_mkdir p) (λ e',
              match e' with
              | FileNotFoundError => raise e'
              | _ => let! d := get (λ s, is_dir s p) in
                     if negb exist_ok || negb d then raise e' else ret ()
              end)
        end
    | _ => let! d := get (λ s, is_dir s p) in
           if negb exist_ok || negb d then raise e else ret ()
    end).
Proof. by destruct fuel. Qed.

Lemma Path_mkdir_fuel_spec (fuel : nat) (parents exist_ok : bool) (p : path)
    (s s' : fs) (r : result ()) :
  wf s → Path_mkdir_fuel fuel parents exist_ok p s = (r, s') →
  wf s' ∧ grows_by_dirs p s s' ∧ (r = Ok () → is_dir s' p = true).
Proof.
  revert parents exist_ok p s s' r.
  induction fuel as [|k IH]; intros parents exist_ok p s s' r Hwf;
    rewrite Path_mkdir_fuel_unfold; unfold try_except at 1;
    destruct (os_mkdir p s) as [[[]|e] s1] eqn:Hm.
  - intros [= <- <-]. destruct (os_mkdir_spec _ _ _ Hwf Hm) as (? & ? & ?). done.
  - apply os_mkdir_inv in Hm as [(? & _)|(e' & [= <-] & -> & _)]; [done|].
    destruct e;
      try (intros (-> & Hd)%mkdir_tail_inv; split; [done|split; [apply grows_by_dirs_refl|done]]).
    destruct (negb parents || bool_decide (parent p = p));
      intros [= <- <-]; split; try done; split; try done; apply grows_by_dirs_refl.
  - intros [= <- <-]. destruct (os_mkdir_spec _ _ _ Hwf Hm) as (? & ? & ?). done.
  - apply os_mkdir_inv in Hm as [(? & _)|(e' & [= <-] & -> & _)]; [done|].
    destruct e;
      try (intros (-> & Hd)%mkdir_tail_inv; split; [done|split; [apply grows_by_dirs_refl|done]]).
    destruct (negb parents || bool_decide (parent p = p)).
    { intros [= <- <-]; split; try done; split; try done; apply grows_by_dirs_refl. }
    unfold bind at 1.
    destruct (Path_mkdir_fuel k true true (parent p) s) as [[[]|e] s2] eqn:Hrec;
      destruct (IH _ _ _ _ _ _ Hwf Hrec) as (Hwf2 & Hg2 & Hd2).
    2:{ intros [= <- <-]. split; [done|]. split; [|done].
        eapply grows_by_dirs_trans; [|exact Hg2|apply grows_by_dirs_refl].
        apply prefix_of_parent. done. }
    assert (parent p `prefix_of` p) as Hpp by by apply prefix_of_parent.
    unfold try_except. destruct (os_mkdir p s2) as [[[]|e] s3] eqn:Hm2.
    + intros [= <- <-]. destruct (os_mkdir_spec _ _ _ Hwf2 Hm2) as (? & ? & ?).
      split; [done|]. split; [|done]. eapply grows_by_dirs_trans; eauto.
    + apply os_mkdir_inv in Hm2 as [(? & _)|(e' & [= <-] & -> & _)]; [done|].
      destruct e;
        try (intros (-> & Hd)%mkdir_tail_inv; split; [done|split; [|done]];
             eapply grows_by_dirs_trans; [exact Hpp|exact Hg2|apply grows_by_dirs_refl]).
      intros [= <- <-]. split; [done|]. split; [|done].
      eapply grows_by_dirs_trans; [exact Hpp|exact Hg2|apply grows_by_dirs_refl].
Qed.

Lemma Path_mkdir_spec (parents exist_ok : bool) (p : path) (s s' : fs) (r : result ()) :
  wf s → Path_mkdir parents exist_ok p s = (r, s') →
  wf s' ∧ grows_by_dirs p s s' ∧ (r = Ok () → is_dir s' p = true).
Proof. apply Path_mkdir_fuel_spec. Qed.

(** ** [shutil.move] *)

Lemma copy_lookup (src dst : path) (m : fs) (q : path) :
  is_Some (m !! src) → (∀ t, t ≠ [] → m !! (dst ++ t) = None) →
  (shifted src dst m ∪ m) !! q =
  match relative_to q dst with
  | Some t => m !! (src ++ t)
  | None => m !! q
  end.
Proof.
  intros Hsrc Hbelow.
  destruct (relative_to q dst) as [t|] eqn:Hr.
  - apply relative_to_Some in Hr as Hq.
    destruct (m !! (src ++ t)) as [v|] eqn:Hv.
    + apply lookup_union_Some_l. by rewrite shifted_lookup, Hr.
    + rewrite lookup_union_r by by rewrite shifted_lookup, Hr.
      destruct (decide (t = [])) as [->|Ht].
      * rewrite app_nil_r in Hv. destruct Hsrc as [v Hv']. congruence.
      * subst q. by apply Hbelow.
  - apply lookup_union_r. by rewrite shifted_lookup, Hr.
Qed.

Lemma wf_copy (src dst : path) (m : fs) :
  wf m → is_Some (m !! src) → is_Some (m !! dst) →
  (∀ t, t ≠ [] → m !! (dst ++ t) = None) →
  wf (shifted src dst m ∪ m).
Proof.
  intros Hwf Hsrc [nd Hdst] Hbelow q n.
  assert (dst ≠ []) as Hne by (by eapply wf_lookup_nonempty).
  assert (∀ d, is_dir m d = true → ¬ dst `prefix_of` d →
               is_dir (shifted src dst m ∪ m) d = true) as Hkeep.
  { intros d Hd H1. apply is_dir_lookup in Hd as [->|[w Hw]]; [done|].
    apply is_dir_lookup. right. exists w. rewrite copy_lookup by done.
    by rewrite (proj2 (relative_to_None d dst)). }
  rewrite copy_lookup by done.
  destruct (relative_to q dst) as [t|] eqn:Hr.
  - apply relative_to_Some in Hr as ->. intros Hn.
    split; [by destruct dst|].
    destruct (decide (t = [])) as [->|Ht].
    + rewrite app_nil_r. apply Hkeep; [|by apply not_prefix_parent].
      by destruct (Hwf _ _ Hdst).
    + rewrite parent_app by done. apply is_dir_lookup. right.
      destruct (Hwf _ _ Hn) as [_ Hp]. rewrite parent_app in Hp by done.
      apply is_dir_lookup in Hp as [Hp|[w Hw]].
      { destruct Hsrc as [? Hsrc]. apply wf_lookup_nonempty in Hsrc; [|done].
        by destruct src. }
      exists w. rewrite copy_lookup by done.
      by rewrite (proj2 (relative_to_Some (dst ++ parent t) dst (parent t)) eq_refl).
  - apply relative_to_None in Hr. intros Hn.
    destruct (Hwf _ _ Hn) as [Hq Hp]. split; [done|].
    apply Hkeep; [done|]. intros H. by apply Hr, prefix_of_parent.
Qed.

Lemma prefix_comparable (a b q : path) :
  a `prefix_of` q → b `prefix_of` q → a `prefix_of` b ∨ b `prefix_of` a.
Proof.
  intros Ha Hb. destruct (prefix_weak_total a b q Ha Hb); auto.
Qed.

Lemma remove_subtree_lookup (src : path) (m : fs) (q : path) :
  filter (λ kv : path * node, ¬ src `prefix_of` kv.1) m !! q =
  if bool_decide (src `prefix_of` q) then None else m !! q.
Proof.
  case_bool_decide as Hs.
  - apply map_lookup_filter_None_2. right. intros x _ H. by apply H.
  - destruct (m !! q) as [v|] eqn:Hv.
    + by apply map_lookup_filter_Some_2.
    + apply map_lookup_filter_None_2. by left.
Qed.

Lemma in_parents_of_prefix_parent (q dst : path) :
  dst ≠ [] → q `prefix_of` parent dst → in_parents q dst = true.
Proof.
  intros Hd [t Ht]. apply in_parents_spec. exists (t ++ [name dst]). split.
  - by destruct t.
  - rewrite app_assoc, <- Ht. by apply path_snoc.
Qed.

Lemma dir_writable_is_dir (s : fs) (d : path) : dir_writable s d = true → is_dir s d = true.
Proof. unfold dir_writable, is_dir. by destruct (stat s d) as [[|[|]]|]. Qed.

Lemma os_makedirs_ok (dst : path) (s sb : fs) :
  wf s → os_makedirs dst s = (Ok (), sb) →
  ∃ sa, wf sa ∧ grows_by_dirs (parent dst) s sa ∧ sa !! dst = None ∧ dst ≠ [] ∧
        sb = <[dst := Dir true]> sa ∧ wf sb.
Proof.
  intros Hwf. unfold os_makedirs, bind at 1, get at 1.
  intros ([] & sa & Hpre & Hmk)%bind_inv_ok.
  assert (wf sa ∧ grows_by_dirs (parent dst) s sa) as [Hwfa Hga].
  { destruct (exists_ s (parent dst)).
    - injection Hpre as <-. split; [done|apply grows_by_dirs_refl].
    - by destruct (Path_mkdir_spec _ _ _ _ _ _ Hwf Hpre) as (? & ? & _). }
  destruct (os_mkdir_spec _ _ _ Hwfa Hmk) as (Hwfb & _ & _).
  apply os_mkdir_inv in Hmk as [(_ & Hne & Hd & _ & ->)|(e & [=] & _)].
  exists sa. split_and!; done.
Qed.

(** A move that succeeds onto a free path re-roots the tree at [src]; the
    only other change a fall-back copy can make is to create missing
    ancestors of the destination. *)
Lemma shutil_move_ok (src dst : path) (s s' : fs) :
  wf s → stat s dst = None → shutil_move src dst s = (Ok (), s') →
  wf s' ∧ src ≠ [] ∧ is_Some (s !! src) ∧ ¬ src `prefix_of` dst ∧
  ∀ q, s' !! q = reroot src dst s !! q ∨
       (s !! q = None ∧ s' !! q = Some (Dir true) ∧ in_parents q dst = true ∧ q ≠ []).
Proof.
  intros Hwf Hdst.
  assert (dst ≠ []) as Hdne by (by intros ->).
  assert (s !! dst = None) as Hdst' by (by rewrite <- stat_lookup).
  unfold shutil_move.
  assert (is_dir s dst = false) as -> by (unfold is_dir; by rewrite Hdst).
  cbn [andb]. unfold try_except.
  destruct (os_rename src dst s) as [[[]|e] s1] eqn:Hren.
  - intros [= <-].
    apply os_rename_inv in Hren
      as [(e & [=] & _)|(_ & Hne & Hsome & [[-> ->]|(Hneq & Hpd & Hnp & _ & ->)])].
    + rewrite Hdst' in Hsome. by destruct Hsome.
    + split; [by apply wf_reroot|]. repeat split; try done. intros q. by left.
  - apply os_rename_inv in Hren as [(e' & [= <-] & ->)|(? & _)]; [|done].
    destruct (stat s src) as [[c|w]|] eqn:Hsrc; [| |done].
    + (* a regular file: copy, then unlink *)
      assert (src ≠ []) as Hsne by (by intros ->).
      pose proof Hsrc as Hsrc'. rewrite stat_lookup in Hsrc' by done.
      intros ([] & s2 & Hw & Hu)%bind_inv_ok.
      apply write_file_inv in Hw as [(_ & _ & _ & Hpw & ->)|(e' & [=] & _)].
      apply os_unlink_inv in Hu as [(_ & _ & _ & ->)|(e' & [=] & _)].
      destruct Hpw as [Hpw|Hpw]; [rewrite Hdst' in Hpw; by destruct Hpw|].
      apply dir_writable_is_dir in Hpw.
      assert (src ≠ dst) as Hneq by congruence.
      assert (¬ src `prefix_of` dst) as Hnp.
      { intros Hp. assert (in_parents src dst = true) as Hin.
        { unfold in_parents. by rewrite bool_decide_eq_true_2, bool_decide_eq_false_2. }
        apply prefix_parent in Hin.
        destruct (decide (src = parent dst)) as [Heq|Hneq'].
        - apply is_dir_stat in Hpw as [w Hw]. congruence.
        - assert (s !! parent dst = None) as Hnone.
          { eapply wf_below_file; [done..|]. unfold in_parents.
            by rewrite bool_decide_eq_true_2, bool_decide_eq_false_2. }
          apply is_dir_lookup in Hpw as [Hpw|[w Hw]]; [|congruence].
          rewrite Hpw in Hin. apply prefix_nil_inv in Hin. done. }
      assert (∀ q, in_parents src q = true → s !! q = None) as Hbelow
        by (intros q; by eapply wf_below_file).
      split.
      { apply wf_delete.
        - apply wf_insert; try done. unfold is_dir. by rewrite Hdst.
        - intros q Hq. rewrite lookup_insert_ne; [by apply Hbelow|].
          intros <-. apply in_parents_spec in Hq as (t & _ & ->). apply Hnp.
          by apply prefix_app_r. }
      repeat split; [done|by eauto|done|].
      intros q. left. rewrite reroot_lookup.
      destruct (decide (q = dst)) as [->|Hqd].
      { rewrite (proj2 (relative_to_Some dst dst []) (eq_sym (app_nil_r dst))).
        rewrite app_nil_r, lookup_delete_ne, lookup_insert_eq by done. done. }
      destruct (relative_to q dst) as [t|] eqn:Hr.
      * apply relative_to_Some in Hr as ->.
        assert (in_parents dst (dst ++ t) = true) as Hin.
        { apply in_parents_spec. exists t. split; [|done]. intros ->.
          by rewrite app_nil_r in Hqd. }
        pose proof (wf_below_missing _ _ _ Hwf Hdst Hin) as Hnone.
        rewrite lookup_delete_ne by congruence.
        rewrite lookup_insert_ne, Hnone by done.
        symmetry. apply Hbelow. apply in_parents_spec. exists t. split; [|done].
        intros ->. by rewrite app_nil_r in Hqd.
      * case_bool_decide as Hs.
        -- destruct (decide (q = src)) as [->|Hqs]; [by rewrite lookup_delete_eq|].
           rewrite lookup_delete_ne, lookup_insert_ne by done.
           apply Hbelow. unfold in_parents.
           by rewrite bool_decide_eq_true_2, bool_decide_eq_false_2.
        -- rewrite lookup_delete_ne, lookup_insert_ne; [done..|].
           intros ->. by apply Hs.
    + (* a directory: copy the tree, then remove the source *)
      case_bool_decide as Hnp; [done|].
      assert (src ≠ []) as Hsne by (intros ->; apply Hnp, prefix_nil).
      pose proof Hsrc as Hsrc'. rewrite stat_lookup in Hsrc' by done.
      intros ([] & s2 & Hc & Hr)%bind_inv_ok.
      unfold copytree in Hc. apply bind_inv_ok in Hc as ([] & sb & Hmk & [= <-]).
      destruct (os_makedirs_ok _ _ _ Hwf Hmk) as (sa & Hwfa & Hga & Hda & _ & -> & Hwfb).
      unfold rmtree in Hr. destruct (rmtree_permitted _ src); [|done].
      injection Hr as <-.
      assert (∀ t, <[dst := Dir true]> sa !! (src ++ t) = s !! (src ++ t)) as Hsb.
      { intros t. rewrite lookup_insert_ne.
        - destruct (Hga (src ++ t)) as [E|(_ & _ & Hp & _)]; [done|].
          destruct Hnp. etrans; [by apply prefix_app_r|]. by apply prefix_of_parent.
        - intros ->. apply Hnp. by apply prefix_app_r. }
      assert (is_Some (<[dst := Dir true]> sa !! src)) as Hsome.
      { specialize (Hsb []). rewrite app_nil_r in Hsb. rewrite Hsb. eauto. }
      assert (∀ t, t ≠ [] → <[dst := Dir true]> sa !! (dst ++ t) = None) as Hbelow.
      { intros t Ht. rewrite lookup_insert_ne.
        - eapply wf_below_missing; [done| |].
          + by rewrite stat_lookup.
          + apply in_parents_spec. eauto.
        - intros H. rewrite <- (app_nil_r dst) in H at 1. apply app_inv_head in H. done. }
      split.
      { apply wf_remove_subtree, wf_copy; try done. by rewrite lookup_insert_eq. }
      repeat split; [done|by eauto|done|].
      intros q. rewrite remove_subtree_lookup, copy_lookup, reroot_lookup by done.
      destruct (relative_to q dst) as [t|] eqn:Hrel.
      * apply relative_to_Some in Hrel as ->. left.
        rewrite bool_decide_eq_false_2; [apply Hsb|].
        intros Hp.
        destruct (prefix_comparable src dst (dst ++ t) Hp) as [H|H];
          [by apply prefix_app_r|done|].
        assert (in_parents dst src = true) as Hin.
        { unfold in_parents. rewrite bool_decide_eq_true_2, bool_decide_eq_false_2; [done| |done].
          intros ->. by apply Hnp. }
        rewrite (wf_below_missing _ _ _ Hwf Hdst Hin) in Hsrc'. done.
      * case_bool_decide as Hs; [by left|].
        apply relative_to_None in Hrel.
        rewrite lookup_insert_ne by (intros <-; by apply Hrel).
        destruct (Hga q) as [E|(E1 & E2 & Hp & Hq)]; [by left|].
        right. repeat split; try done. by apply in_parents_of_prefix_parent.
Qed.

(** ** Where the backups go *)

(** The mirrored backup path of a path below the assets root, and the
    flat one the scripts fall back to. *)
Definition mirrored_backup (original_path : path) : path :=
  FixNames.BACKUP_DIR ++ drop (length FixNames.ASSETS_DIR) original_path.

Definition flat_backup (original_path : path) : path :=
  FixNames.BACKUP_DIR ++ [name original_path].

(** A proper file name: what a directory entry can be called. *)
Definition entry_name (n : string) : Prop := n ≠ "" ∧ n ≠ ".".

Lemma joinpath_entry (d : path) (n : string) : entry_name n → joinpath d n = d ++ [n].
Proof. intros [H1 H2]. unfold joinpath. by rewrite !bool_decide_eq_false_2. Qed.

Lemma asset_path_inv (p : path) :
  in_parents FixNames.ASSETS_DIR p = true →
  ∃ r, p = FixNames.ASSETS_DIR ++ r ++ [name p] ∧ parent p = FixNames.ASSETS_DIR ++ r.
Proof.
  intros (t & Ht & ->)%in_parents_spec.
  destruct t as [|n t _] using rev_ind; [done|].
  exists t. rewrite !app_assoc, name_snoc, parent_snoc. done.
Qed.

Lemma mirrored_backup_asset (r : path) (n : string) :
  mirrored_backup (FixNames.ASSETS_DIR ++ r ++ [n]) = FixNames.BACKUP_DIR ++ r ++ [n].
Proof. unfold mirrored_backup. by rewrite drop_app_length. Qed.

Lemma backup_path_for_spec (original_path : path) (s s1 : fs) (r : result path) :
  wf s → in_parents FixNames.ASSETS_DIR original_path = true →
  entry_name (name original_path) →
  FixNames.backup_path_for original_path s = (r, s1) →
  wf s1 ∧ grows_by_dirs (parent (mirrored_backup original_path)) s s1 ∧
  (r = Ok (mirrored_backup original_path) ∧
   is_dir s1 (parent (mirrored_backup original_path)) = true ∨
   r = Ok (flat_backup original_path)).
Proof.
  intros Hwf Hin Hname.
  destruct (asset_path_inv _ Hin) as (r0 & Hp & Hpar).
  unfold FixNames.backup_path_for, try_except, relative_to_M.
  assert (relative_to original_path FixNames.ASSETS_DIR = Some (r0 ++ [name original_path]))
    as -> by by apply relative_to_Some.
  rewrite (bind_ok _ _ s (r0 ++ [name original_path]) s) by done.
  rewrite parent_snoc.
  assert (parent (mirrored_backup original_path) = FixNames.BACKUP_DIR ++ r0) as Hpm.
  { rewrite Hp at 1. rewrite mirrored_backup_asset, app_assoc. apply parent_snoc. }
  rewrite Hpm.
  destruct (Path_mkdir true true (FixNames.BACKUP_DIR ++ r0) s) as [[[]|e] s2] eqn:Hmk;
    destruct (Path_mkdir_spec _ _ _ _ _ _ Hwf Hmk) as (Hwf2 & Hg & Hd).
  - rewrite (bind_ok _ _ _ _ _ Hmk). intros [= <- <-].
    split; [done|]. split; [done|]. left. split; [|by apply Hd].
    rewrite joinpath_entry by done. f_equal.
    rewrite Hp at 2. by rewrite mirrored_backup_asset, app_assoc.
  - rewrite (bind_raise _ _ _ _ _ Hmk). intros [= <- <-].
    split; [done|]. split; [done|]. right.
    by rewrite joinpath_entry.
Qed.

(** ** Names and the backup subtree *)

Lemma endswith_app_r (a b : string) : Str.endswith (a +:+ b) b = true.
Proof.
  unfold Str.endswith. apply bool_decide_eq_true. rewrite Str.chars_app.
  by apply suffix_app_r.
Qed.

Lemma model_name_of_ext (a ext : string) : model_ext ext → model_name (a +:+ ext).
Proof. intros [-> | ->]; [left|right]; apply endswith_app_r. Qed.

Lemma optimized_is_model (n : string) : optimized_name n → model_name n.
Proof.
  unfold optimized_name, model_name, Str.endswith.
  rewrite !bool_decide_eq_true. intros [H|H]; [left|right];
    (etrans; [|exact H]); by eexists (Str.chars "-optimized").
Qed.

Lemma model_name_entry (n : string) : model_name n → entry_name n ∧ n ≠ "originals".
Proof.
  intros H. repeat split; intros ->; destruct H as [H|H]; by vm_compute in H.
Qed.

Lemma not_backup_prefix (p : path) :
  in_parents FixNames.BACKUP_DIR p = false → name p ≠ "originals" →
  ¬ FixNames.BACKUP_DIR `prefix_of` p.
Proof.
  intros Hb Hn Hp. unfold in_parents in Hb.
  rewrite bool_decide_eq_true_2 in Hb by done. simpl in Hb.
  apply negb_false_iff, bool_decide_eq_true in Hb. subst p. by apply Hn.
Qed.

(** A path below the assets root and outside the backup subtree is no
    ancestor of anything in the backup subtree. *)
Lemma outside_backup_not_prefix (x b : path) :
  in_parents FixNames.ASSETS_DIR x = true → ¬ FixNames.BACKUP_DIR `prefix_of` x →
  FixNames.BACKUP_DIR `prefix_of` b → ¬ x `prefix_of` b.
Proof.
  intros (t & Ht & ->)%in_parents_spec Hnb Hb Hx.
  destruct (prefix_comparable _ _ _ Hx Hb) as [H|H]; [|done].
  change FixNames.BACKUP_DIR with (FixNames.ASSETS_DIR ++ ["originals"]) in H.
  apply prefix_app_inv in H. apply Hnb.
  destruct t as [|y t]; [done|]. destruct H as [k Hk]. injection Hk as <- Hk.
  destruct t; [|done]. by exists [].
Qed.

Lemma sibling_outside_backup (d : path) (n : string) :
  ¬ FixNames.BACKUP_DIR `prefix_of` d → n ≠ "originals" →
  ¬ FixNames.BACKUP_DIR `prefix_of` d ++ [n].
Proof.
  intros Hd Hn [H|H]%prefix_snoc_inv; [|done].
  apply (f_equal name) in H. rewrite name_snoc in H. by apply Hn.
Qed.

(** ** One file of [fix-names.py], processed with success *)

Lemma try_except_false_inv (m : M bool) (s s' : fs) :
  try_except m (λ _, ret false) s = (Ok true, s') → m s = (Ok true, s').
Proof.
  unfold try_except, ret. destruct (m s) as [[b|e] s1]; intros [= ]; by subst.
Qed.

Lemma proper_ancestor_exists (s : fs) (q d : path) :
  wf s → is_dir s (parent d) = true → in_parents q d = true → q ≠ [] → is_Some (s !! q).
Proof.
  intros Hwf Hd Hq Hne. apply prefix_parent in Hq as [t Ht].
  destruct (decide (t = [])) as [->|Hte].
  - rewrite app_nil_r in Ht. rewrite Ht in Hd.
    apply is_dir_lookup in Hd as [Hd|[w Hw]]; [done|eauto].
  - assert (is_dir s q = true) as H.
    { eapply (wf_ancestor_dir s q t); [done..|]. rewrite <- Ht.
      apply is_dir_lookup in Hd as [Hd|[w Hw]]; [|eauto].
      rewrite Ht in Hd. by destruct q. }
    apply is_dir_lookup in H as [H|[w Hw]]; [done|eauto].
Qed.

(** A successful move into an existing directory is exactly a
    re-rooting. *)
Lemma shutil_move_exact (src dst : path) (s s' : fs) :
  wf s → stat s dst = None → is_dir s (parent dst) = true →
  shutil_move src dst s = (Ok (), s') →
  wf s' ∧ src ≠ [] ∧ is_Some (s !! src) ∧ ¬ src `prefix_of` dst ∧
  ∀ q, s' !! q = reroot src dst s !! q.
Proof.
  intros Hwf Hdst Hpd Hmv.
  destruct (shutil_move_ok _ _ _ _ Hwf Hdst Hmv) as (Hwf' & Hne & Hsome & Hnp & Hq).
  split_and!; try done. intros q.
  destruct (Hq q) as [E|(E1 & _ & Hin & Hqne)]; [done|].
  destruct (proper_ancestor_exists s q dst Hwf Hpd Hin Hqne) as [? ?]. congruence.
Qed.

(** What a discovered path and its destination look like. *)
Lemma destination_facts (p : path) :
  in_parents FixNames.ASSETS_DIR p = true → ¬ FixNames.BACKUP_DIR `prefix_of` p →
  optimized_name (name p) →
  let dst := FixNames.get_original_name p in
  parent dst = parent p ∧ length dst = length p ∧
  in_parents FixNames.ASSETS_DIR dst = true ∧ ¬ FixNames.BACKUP_DIR `prefix_of` dst ∧
  model_name (name dst) ∧ dst ≠ [].
Proof.
  intros Hin Hnb Hname dst.
  destruct (get_original_name_shape p Hname) as (ext & Hext & _ & Hdst).
  fold dst in Hdst.
  pose proof (model_name_of_ext (Str.remove_all "-optimized" (stem p)) ext Hext) as Hm.
  destruct (model_name_entry _ Hm) as [_ Hno].
  destruct (asset_path_inv _ Hin) as (r & Hp & Hpar).
  rewrite Hdst. rewrite parent_snoc, name_snoc.
  split_and!; try done.
  - apply (f_equal length) in Hp. rewrite !length_app in Hp.
    rewrite Hpar, !length_app. simpl in *. lia.
  - apply in_parents_spec. eexists (r ++ [_]). split; [by destruct r|].
    by rewrite Hpar, <- app_assoc.
  - apply sibling_outside_backup; [|done]. intros H. by apply Hnb, prefix_of_parent.
  - by destruct (parent p).
Qed.

(** The three ways of clearing the destination. *)
Definition backup_phase (dst : path) (s s2 : fs) : Prop :=
  (s !! dst = None ∧ s2 = s) ∨
  (∃ bk s1, is_Some (s !! dst) ∧ FixNames.backup_path_for dst s = (Ok bk, s1) ∧
            s1 !! bk = None ∧ shutil_move dst bk s1 = (Ok (), s2)) ∨
  (∃ bk s1, is_Some (s !! dst) ∧ FixNames.backup_path_for dst s = (Ok bk, s1) ∧
            is_Some (s1 !! bk) ∧ os_unlink dst s1 = (Ok (), s2)).

Lemma backup_path_is_in_backup (dst : path) (s s1 : fs) (bk : path) :
  wf s → in_parents FixNames.ASSETS_DIR dst = true → entry_name (name dst) →
  FixNames.backup_path_for dst s = (Ok bk, s1) →
  in_parents FixNames.BACKUP_DIR bk = true.
Proof.
  intros Hwf Hin Hn Hb.
  destruct (backup_path_for_spec _ _ _ _ Hwf Hin Hn Hb) as (_ & _ & [[[= ->] _]|[= ->]]).
  - destruct (asset_path_inv _ Hin) as (r & Hp & _). rewrite Hp, mirrored_backup_asset.
    apply in_parents_spec. eexists. split; [|done]. by destruct r.
  - apply in_parents_spec. exists [name dst]. by split.
Qed.

Lemma in_parents_prefix (d p : path) : in_parents d p = true → d `prefix_of` p.
Proof. intros (t & _ & ->)%in_parents_spec. by apply prefix_app_r. Qed.

Lemma fix_names_step (p : path) (s s' : fs) :
  wf s → in_parents FixNames.ASSETS_DIR p = true → ¬ FixNames.BACKUP_DIR `prefix_of` p →
  optimized_name (name p) →
  FixNames.process_file p false s = (Ok true, s') →
  let dst := FixNames.get_original_name p in
  ∃ s2, backup_phase dst s s2 ∧ wf s2 ∧ wf s' ∧ s2 !! dst = None ∧
        is_Some (s2 !! p) ∧ dst ≠ p ∧
        ∀ q, s' !! q = reroot p dst s2 !! q.
Proof.
  intros Hwf Hin Hnb Hname Hrun dst.
  destruct (destination_facts p Hin Hnb Hname) as (Hpar & Hlen & Hdin & Hdnb & Hdm & Hdne).
  fold dst in Hpar, Hlen, Hdin, Hdnb, Hdm, Hdne.
  destruct (model_name_entry _ Hdm) as [Hentry _].
  unfold FixNames.process_file in Hrun. fold dst in Hrun.
  unfold bind at 1, get at 1 in Hrun.
  apply try_except_false_inv in Hrun.
  apply bind_inv_ok in Hrun as ([] & s2 & Hphase & Hrun).
  apply bind_inv_ok in Hrun as ([] & s3 & Hmove & [= <-]).
  assert (backup_phase dst s s2 ∧ wf s2 ∧ s2 !! dst = None) as (Hbp & Hwf2 & Hd2).
  { destruct (exists_ s dst) eqn:Hex.
    - apply bool_decide_eq_true in Hex. rewrite stat_lookup in Hex by done.
      apply bind_inv_ok in Hphase as (bk & s1 & Hbk & Hphase).
      unfold bind at 1, get at 1 in Hphase.
      destruct (backup_path_for_spec _ _ _ _ Hwf Hdin Hentry Hbk) as (Hwf1 & Hg & _).
      pose proof (backup_path_is_in_backup _ _ _ _ Hwf Hdin Hentry Hbk) as Hbin.
      assert (s1 !! dst = s !! dst) as Hd1.
      { destruct (Hg dst) as [E|(E & _)]; [done|]. rewrite E in Hex. by destruct Hex. }
      destruct (exists_ s1 bk) eqn:Hex1; cbn [negb] in Hphase.
      + apply bool_decide_eq_true in Hex1.
        assert (bk ≠ []) as Hbne by (intros ->; done).
        rewrite stat_lookup in Hex1 by done.
        pose proof Hphase as Hu.
        apply os_unlink_inv in Hu as [(_ & [c Hc] & _ & ->)|(e & [=] & _)].
        split; [right; right; by eauto 10|]. split; [|by rewrite lookup_delete_eq].
        apply wf_delete; [done|]. intros q Hq. eapply wf_below_file; [done| |done].
        by rewrite stat_lookup.
      + apply bool_decide_eq_false in Hex1.
        assert (stat s1 bk = None) as Hst.
        { destruct (stat s1 bk) eqn:E; [|done]. destruct Hex1. eauto. }
        assert (bk ≠ []) as Hbne by (intros ->; done).
        pose proof Hst as Hst'. rewrite stat_lookup in Hst' by done.
        split; [right; left; by eauto 10|].
        destruct (shutil_move_ok _ _ _ _ Hwf1 Hst Hphase) as (Hwf2 & _ & _ & _ & Hq).
        split; [done|].
        destruct (Hq dst) as [E|(E & _)].
        * rewrite E, reroot_lookup.
          rewrite (proj2 (relative_to_None dst bk)).
          -- by rewrite bool_decide_eq_true_2.
          -- intros H. apply Hdnb. etrans; [|exact H]. by apply in_parents_prefix.
        * rewrite Hd1 in E. rewrite E in Hex. by destruct Hex.
    - apply bool_decide_eq_false in Hex. injection Hphase as <-.
      assert (s !! dst = None) as Hd.
      { rewrite <- stat_lookup by done. destruct (stat s dst) eqn:E; [|done].
        destruct Hex. eauto. }
      split; [by left|]. done. }
  assert (stat s2 dst = None) as Hst2 by by rewrite stat_lookup.
  destruct (shutil_move_ok _ _ _ _ Hwf2 Hst2 Hmove) as (_ & Hpne & Hsome & _ & _).
  assert (is_dir s2 (parent dst) = true) as Hpd.
  { rewrite Hpar. destruct Hsome as [n Hn]. eapply wf_stat_parent; [done|].
    rewrite stat_lookup by done. done. }
  destruct (shutil_move_exact _ _ _ _ Hwf2 Hst2 Hpd Hmove) as (Hwf' & _ & _ & _ & Hq).
  exists s2. split_and!; try done.
  intros ->. rewrite Hd2 in Hsome. by destruct Hsome.
Qed.

Lemma prefix_of_backup_inv (q : path) :
  q `prefix_of` FixNames.BACKUP_DIR → ¬ FixNames.BACKUP_DIR `prefix_of` q →
  q `prefix_of` FixNames.ASSETS_DIR.
Proof.
  change FixNames.BACKUP_DIR with (FixNames.ASSETS_DIR ++ ["originals"]).
  intros [->|H]%prefix_snoc_inv Hn; [by destruct Hn|done].
Qed.

(** Below the assets root, what is not in the backup subtree and is a
    proper ancestor of something in it is an ancestor of the root, and so
    exists as soon as anything below the root does. *)
Lemma outer_ancestor_exists (s : fs) (q b x : path) :
  wf s → in_parents FixNames.ASSETS_DIR x = true → is_Some (s !! x) →
  FixNames.BACKUP_DIR `prefix_of` b → q `prefix_of` b →
  ¬ FixNames.BACKUP_DIR `prefix_of` q → q ≠ [] →
  is_Some (s !! q).
Proof.
  intros Hwf (t & Ht & ->)%in_parents_spec Hx Hb Hq Hnb Hne.
  destruct (prefix_comparable _ _ _ Hq Hb) as [H|H]; [|done].
  apply prefix_of_backup_inv in H as [u Hu]; [|done].
  assert (is_dir s q = true) as Hd.
  { apply (wf_ancestor_dir s q (u ++ t)); [done|by destruct u|].
    by rewrite app_assoc, <- Hu. }
  apply is_dir_lookup in Hd as [Hd|[w Hw]]; [done|eauto].
Qed.

(** Clearing the destination touches the destination and the backup
    subtree, nothing else. *)
Lemma backup_phase_frame (dst : path) (s s2 : fs) (q : path) :
  wf s → in_parents FixNames.ASSETS_DIR dst = true → entry_name (name dst) →
  backup_phase dst s s2 →
  ¬ FixNames.BACKUP_DIR `prefix_of` q → ¬ dst `prefix_of` q →
  s2 !! q = s !! q.
Proof.
  intros Hwf Hdin Hentry Hph Hqb Hqd.
  destruct Hph as [[_ ->]|[(bk & s1 & Hsome & Hbk & Hnone & Hmv)|(bk & s1 & Hsome & Hbk & _ & Hu)]];
    [done| |].
  - destruct (backup_path_for_spec _ _ _ _ Hwf Hdin Hentry Hbk) as (Hwf1 & Hg & _).
    pose proof (backup_path_is_in_backup _ _ _ _ Hwf Hdin Hentry Hbk) as Hbin.
    apply in_parents_prefix in Hbin.
    assert (s1 !! q = s !! q) as H1.
    { destruct (Hg q) as [E|(E & _ & Hp & Hne)]; [done|].
      assert (is_Some (s !! q)) as [? ?]; [|congruence].
      eapply (outer_ancestor_exists s q (parent (mirrored_backup dst)) dst); try done.
      destruct (asset_path_inv _ Hdin) as (r & Hp' & _).
      rewrite Hp' at 1. rewrite mirrored_backup_asset, app_assoc, parent_snoc.
      by apply prefix_app_r. }
    assert (stat s1 bk = None) as Hst.
    { rewrite stat_lookup; [done|]. intros ->. by apply prefix_nil_inv in Hbin. }
    destruct (shutil_move_ok _ _ _ _ Hwf1 Hst Hmv) as (_ & _ & _ & _ & Hq).
    destruct (Hq q) as [E|(E & _ & Hin & Hne)].
    + rewrite E, reroot_lookup, (proj2 (relative_to_None q bk)).
      * by rewrite bool_decide_eq_false_2.
      * intros H. apply Hqb. by etrans.
    + assert (is_Some (s !! q)) as [? ?]; [|congruence].
      eapply (outer_ancestor_exists s q bk dst); try done.
      by apply in_parents_prefix.
  - destruct (backup_path_for_spec _ _ _ _ Hwf Hdin Hentry Hbk) as (Hwf1 & Hg & _).
    pose proof (backup_path_is_in_backup _ _ _ _ Hwf Hdin Hentry Hbk) as Hbin.
    apply in_parents_prefix in Hbin.
    apply os_unlink_inv in Hu as [(_ & _ & _ & ->)|(e & [=] & _)].
    rewrite lookup_delete_ne by (intros <-; by apply Hqd).
    destruct (Hg q) as [E|(E & _ & Hp & Hne)]; [done|].
    assert (is_Some (s !! q)) as [? ?]; [|congruence].
    eapply (outer_ancestor_exists s q (parent (mirrored_backup dst)) dst); try done.
    destruct (asset_path_inv _ Hdin) as (r & Hp' & _).
    rewrite Hp' at 1. rewrite mirrored_backup_asset, app_assoc, parent_snoc.
    by apply prefix_app_r.
Qed.






Lemma same_length_not_prefix (a b : path) : length a = length b → a ≠ b → ¬ a `prefix_of` b.
Proof.
  intros Hl Hne [t ->]. rewrite length_app in Hl.
  destruct t; [by rewrite app_nil_r in Hne|simpl in Hl; lia].
Qed.

(** ** Backup or discard (both asset scripts) *)


(** *** The temporary path of [optimize-assets.py] *)

Lemma split_last_dot_Some (l a b : list ascii) :
  split_last_dot l = Some (a, b) → l = a ++ "."%char :: b.
Proof.
  revert a b. induction l as [|c l IH]; intros a b; simpl; [done|].
  destruct (split_last_dot l) as [[a' b']|].
  - intros [= <- <-]. by rewrite (IH a' b' eq_refl).
  - case_bool_decide as Hc; [|done]. intros [= <- <-]. by subst c.
Qed.

Lemma split_name_join (n a b : string) : split_name n = (a, b) → n = a +:+ b.
Proof.
  unfold split_name.
  destruct (split_last_dot (Str.chars n)) as [[x y]|] eqn:Hs.
  - apply split_last_dot_Some in Hs.
    destruct x as [|c x], y as [|d y]; intros [= <- <-];
      apply Str.chars_inj; rewrite Str.chars_app, ?Str.chars_str;
      try (change (Str.chars "") with (@nil ascii); by rewrite app_nil_r).
    change (String c (Str.str x)) with (Str.str (c :: x)).
    change (String "." (String d (Str.str y))) with (Str.str ("."%char :: d :: y)).
    by rewrite !Str.chars_str.
  - intros [= <- <-]. apply Str.chars_inj. rewrite Str.chars_app.
    change (Str.chars "") with (@nil ascii). by rewrite app_nil_r.
Qed.

Lemma temp_path_facts (file_path : path) :
  file_path ≠ [] →
  let temp := OptimizeAssets.temp_path_of file_path in
  parent temp = parent file_path ∧ length temp = length file_path ∧ temp ≠ file_path ∧
  entry_name (name temp) ∧ name temp ≠ "originals".
Proof.
  intros Hne temp. unfold temp, OptimizeAssets.temp_path_of, stem, suffix.
  destruct (split_name (name file_path)) as [a b] eqn:Hs. cbn [fst snd].
  apply split_name_join in Hs.
  set (tn := a +:+ "-temp-optimized" +:+ b).
  assert (String.length tn = String.length (name file_path) + 15) as Hlen.
  { unfold tn. rewrite Hs, !str_length_app. simpl. lia. }
  assert (entry_name tn ∧ tn ≠ "originals" ∧ tn ≠ name file_path) as (Hentry & Hno & Hnn).
  { repeat split; intros E; rewrite E in Hlen; simpl in Hlen; lia. }
  rewrite joinpath_entry by done. rewrite parent_snoc, name_snoc.
  split_and!; try done.
  - rewrite (path_snoc file_path Hne) at 2. by rewrite !length_app.
  - intros E. apply (f_equal name) in E. rewrite name_snoc in E. done.
Qed.

(** *** One run of the optimizer *)

Lemma run_optimizer_spec (E : env) (input_path output_path : path) (s : fs) :
  wf s →
  let r := OptimizeAssets.run_optimizer E input_path output_path s in
  fst r = Ok (exit_ok (optimizer E input_path output_path s)) ∧
  wf (snd r) ∧
  (∀ q, q ≠ output_path → snd r !! q = s !! q) ∧
  (snd r !! output_path = s !! output_path ∨ ∃ c, snd r !! output_path = Some (File c)).
Proof.
  intros Hwf. unfold OptimizeAssets.run_optimizer. cbn [fst snd].
  split; [done|].
  destruct (written (optimizer E input_path output_path s)) as [c|]; [|by split_and!; auto].
  destruct (write_file output_path c s) as [r s1] eqn:Hw. cbn [snd].
  apply write_file_inv in Hw as [(_ & Hne & Hnd & Hpar & ->)|(e & _ & ->)]; [|by split_and!; auto].
  split_and!.
  - apply wf_insert; try done. destruct Hpar as [[n Hn]|Hpar].
    + eapply wf_stat_parent; [done|]. by rewrite stat_lookup.
    + by apply dir_writable_is_dir.
  - intros q Hq. by rewrite lookup_insert_ne.
  - right. exists c. by rewrite lookup_insert_eq.
Qed.


(** *** One file of [optimize-assets.py], processed with success *)




(** A decision procedure for [wf]. *)
Definition wfb (s : fs) : bool :=
  forallb (λ p, negb (bool_decide (p = [])) && is_dir s (parent p)) (keys s).

Lemma wfb_wf (s : fs) : wfb s = true → wf s.
Proof.
  unfold wfb. rewrite forallb_forall. intros H p n Hp.
  assert (In p (keys s)) as Hin by (apply list_elem_of_In, elem_of_keys; eauto).
  apply H, andb_true_iff in Hin as [H1 H2].
  split; [|done]. by apply negb_true_iff, bool_decide_eq_false in H1.
Qed.



(** ** When the optimizer fails *)

Lemma run_optimizer_frame (E : env) (input_path output_path : path) (s : fs) (q : path) :
  q ≠ output_path →
  snd (OptimizeAssets.run_optimizer E input_path output_path s) !! q = s !! q.
Proof.
  intros Hq. unfold OptimizeAssets.run_optimizer. cbn [snd].
  destruct (written _) as [c|]; [|done].
  destruct (write_file output_path c s) as [r s1] eqn:Hw. cbn [snd].
  apply write_file_inv in Hw as [(_ & _ & _ & _ & ->)|(e & _ & ->)]; [|done].
  by rewrite lookup_insert_ne.
Qed.

Lemma temp_path_fresh (file_path : path) : OptimizeAssets.temp_path_of file_path ≠ file_path.
Proof.
  destruct (decide (file_path = [])) as [->|Hne]; [by vm_compute|].
  by destruct (temp_path_facts file_path Hne) as (_ & _ & ? & _).
Qed.

Lemma temp_path_nonempty (file_path : path) : OptimizeAssets.temp_path_of file_path ≠ [].
Proof.
  destruct (decide (file_path = [])) as [->|Hne]; [by vm_compute|].
  destruct (temp_path_facts file_path Hne) as (_ & Hl & _). intros E. rewrite E in Hl.
  by destruct file_path.
Qed.







(** ** Running [fix-names.py] twice *)

(** What [find_optimized_files] returns on a tree. *)
Definition discovered (s : fs) : list path :=
  match fst (FixNames.find_optimized_files s) with
  | Ok l => l
  | Raise _ => []
  end.

(** An entry the scan is looking for. *)
Definition actionable (q : path) : Prop :=
  in_parents FixNames.ASSETS_DIR q = true ∧ in_parents FixNames.BACKUP_DIR q = false ∧
  optimized_name (name q).

Lemma discovered_spec (s : fs) :
  StronglySorted path_le (discovered s) ∧ NoDup (discovered s) ∧
  ∀ p, p ∈ discovered s ↔
       is_dir s FixNames.ASSETS_DIR = true ∧ is_Some (s !! p) ∧ actionable p.
Proof.
  pose proof (scan_spec FixNames.ASSETS_DIR FixNames.in_backup "-optimized" s)
    as (Hs & Hn & Hm).
  split; [exact Hs|]. split; [exact Hn|].
  intros p. unfold actionable. rewrite <- in_backup_parents.
  etrans; [apply Hm|]. unfold optimized_name. tauto.
Qed.

Lemma actionable_outside_backup (q : path) :
  actionable q → ¬ FixNames.BACKUP_DIR `prefix_of` q.
Proof.
  intros (_ & Hb & Hn). apply not_backup_prefix; [done|].
  by destruct (model_name_entry _ (optimized_is_model _ Hn)).
Qed.

(** A run of the execution loop in which every file is processed with
    success. *)
Inductive run_ok : list path → fs → fs → Prop :=
  | run_ok_nil s : run_ok [] s s
  | run_ok_cons p rest s s1 s' :
      FixNames.process_file p false s = (Ok true, s1) →
      run_ok rest s1 s' →
      run_ok (p :: rest) s s'.

Lemma execute_failed_grows (files : list path) (acc r : FixNames.summary) (s s' : fs) :
  FixNames.execute files acc s = (Ok r, s') →
  ∃ more, FixNames.failed_files r = FixNames.failed_files acc ++ more.
Proof.
  revert acc s. induction files as [|p files IH]; intros acc s.
  - intros [= <- <-]. exists []. by rewrite app_nil_r.
  - cbn [FixNames.execute]. intros (ok & s1 & _ & Hrest)%bind_inv_ok.
    apply IH in Hrest as [more Hmore]. rewrite Hmore.
    destruct ok; simpl; [by eauto|]. rewrite <- app_assoc. by eauto.
Qed.

Lemma execute_all_ok (files : list path) (acc r : FixNames.summary) (s s' : fs) :
  FixNames.execute files acc s = (Ok r, s') → FixNames.failed_files r = [] →
  run_ok files s s'.
Proof.
  revert acc s. induction files as [|p files IH]; intros acc s.
  - intros [= <- <-] _. constructor.
  - cbn [FixNames.execute]. intros (ok & s1 & Hp & Hrest)%bind_inv_ok Hnil.
    destruct ok.
    + econstructor; [exact Hp|]. by eapply IH.
    + apply execute_failed_grows in Hrest as [more Hmore]. simpl in Hmore.
      rewrite Hnil in Hmore. by destruct (FixNames.failed_files acc).
Qed.

Lemma main_finished_inv (answer : option string) (s s' : fs) (r : FixNames.summary) :
  FixNames.main answer s = (Ok (Finished r), s') →
  confirms answer = true ∧
  ∃ s0, Path_mkdir false true FixNames.BACKUP_DIR s = (Ok (), s0) ∧
        FixNames.execute (discovered s) (FixNames.Summary 0 []) s0 = (Ok r, s').
Proof.
  destruct (confirms answer) eqn:Hc.
  2:{ destruct (main_unconfirmed answer s Hc) as (code & -> & _). done. }
  intros Hmain. split; [done|].
  unfold FixNames.main in Hmain. unfold bind at 1, get at 1 in Hmain.
  destruct (exists_ s FixNames.ASSETS_DIR); [|done]. cbn [negb] in Hmain.
  unfold bind at 1 in Hmain.
  unfold discovered.
  destruct (FixNames.find_optimized_files s) as [rl s1] eqn:Hfind.
  assert (s1 = s ∧ ∃ l, rl = Ok l) as [-> [l ->]].
  { unfold FixNames.find_optimized_files, get in Hfind. injection Hfind as <- <-. eauto. }
  cbn [fst]. destruct l as [|p l]; [done|].
  rewrite (bind_ok _ _ _ _ _ (preview_pure _ s)) in Hmain.
  destruct answer as [line|]; [|done]. simpl in Hc. rewrite Hc in Hmain. cbn [negb] in Hmain.
  apply bind_inv_ok in Hmain as ([] & s0 & Hmk & Hmain).
  apply bind_inv_ok in Hmain as (r' & s2 & Hex & [= <- <-]).
  eauto.
Qed.

Lemma name_app (d t : path) : t ≠ [] → name (d ++ t) = name t.
Proof.
  intros Ht. destruct t as [|x t _] using rev_ind; [done|].
  by rewrite app_assoc, !name_snoc.
Qed.

Lemma same_length_prefixes (a b q : path) :
  length a = length b → a `prefix_of` q → b `prefix_of` q → a = b.
Proof.
  intros Hl Ha Hb. destruct (decide (a = b)) as [|Hne]; [done|].
  destruct (prefix_comparable _ _ _ Ha Hb) as [H|H].
  - by apply same_length_not_prefix in H.
  - by apply same_length_not_prefix in H.
Qed.

Lemma below_outside_backup (p t : path) :
  in_parents FixNames.ASSETS_DIR p = true → ¬ FixNames.BACKUP_DIR `prefix_of` p →
  ¬ FixNames.BACKUP_DIR `prefix_of` p ++ t.
Proof.
  intros Hin Hnb Hb.
  assert (p `prefix_of` p ++ t) as Hp by by apply prefix_app_r.
  destruct (prefix_comparable _ _ _ Hb Hp) as [H|H]; [done|].
  by apply (outside_backup_not_prefix p FixNames.BACKUP_DIR).
Qed.

Lemma not_prefix_in_parents (d q : path) : ¬ d `prefix_of` q → in_parents d q = false.
Proof.
  intros H. destruct (in_parents d q) eqn:E; [|done]. by apply in_parents_prefix in E.
Qed.

(** What a successful step does to the actionable entries: the one
    processed is gone with everything below it; the others were there
    before, unless they lay below the one processed and moved with it. *)
Lemma step_effect (p : path) (s s1 : fs) :
  wf s → actionable p → ¬ optimized_name (name (FixNames.get_original_name p)) →
  FixNames.process_file p false s = (Ok true, s1) →
  wf s1 ∧ (∀ q, p `prefix_of` q → s1 !! q = None) ∧
  ∀ q, actionable q → is_Some (s1 !! q) →
       (¬ p `prefix_of` q ∧ is_Some (s !! q)) ∨
       (∃ t, t ≠ [] ∧ actionable (p ++ t) ∧ is_Some (s !! (p ++ t))).
Proof.
  intros Hwf Hact Hdest Hrun.
  pose proof (actionable_outside_backup p Hact) as Hnb.
  destruct Hact as (Hin & Hnib & Hname).
  destruct (destination_facts p Hin Hnb Hname) as (Hpar & Hlen & Hdin & Hdnb & Hdm & Hdne).
  destruct (model_name_entry _ Hdm) as [Hentry _].
  destruct (fix_names_step p s s1 Hwf Hin Hnb Hname Hrun)
    as (s2 & Hph & Hwf2 & Hwf1 & Hd2 & Hp2 & Hne & Hq).
  set (dst := FixNames.get_original_name p) in *.
  split; [done|]. split.
  - intros q Hpq. rewrite Hq, reroot_lookup.
    destruct (relative_to q dst) as [t|] eqn:Hr.
    + apply relative_to_Some in Hr as ->. destruct Hne.
      apply (same_length_prefixes dst p (dst ++ t)); [done|by apply prefix_app_r|done].
    + by rewrite bool_decide_eq_true_2.
  - intros q Hqa. pose proof (actionable_outside_backup q Hqa) as Hqnb.
    rewrite Hq, reroot_lookup.
    destruct (relative_to q dst) as [t|] eqn:Hr.
    + apply relative_to_Some in Hr as ->. intros Hsome.
      destruct (decide (t = [])) as [->|Ht].
      { rewrite app_nil_r in Hqa. destruct Hqa as (_ & _ & Hn). done. }
      right. exists t. split; [done|].
      pose proof (below_outside_backup p t Hin Hnb) as Hptnb.
      split.
      * destruct Hqa as (_ & _ & Hn). rewrite name_app in Hn by done.
        split_and!.
        -- apply in_parents_spec in Hin as (u & Hu & ->).
           apply in_parents_spec. exists (u ++ t). split; [by destruct u|].
           by rewrite app_assoc.
        -- by apply not_prefix_in_parents.
        -- by rewrite name_app.
      * rewrite <- (backup_phase_frame dst s s2 (p ++ t)); try done.
        intros Hd. destruct Hne.
        apply (same_length_prefixes dst p (p ++ t)); [done|done|by apply prefix_app_r].
    + apply relative_to_None in Hr. case_bool_decide as Hpq; [by intros [? ?]|].
      intros Hsome. left. split; [done|].
      by rewrite <- (backup_phase_frame dst s s2 q).
Qed.

(** A file that is not there cannot be processed with success. *)
Lemma missing_source_fails (r : path) (s s1 : fs) :
  wf s → actionable r → s !! r = None →
  FixNames.process_file r false s = (Ok true, s1) → False.
Proof.
  intros Hwf Hact Hnone Hrun.
  pose proof (actionable_outside_backup r Hact) as Hnb.
  destruct Hact as (Hin & Hnib & Hname).
  destruct (destination_facts r Hin Hnb Hname) as (Hpar & Hlen & Hdin & Hdnb & Hdm & Hdne).
  destruct (model_name_entry _ Hdm) as [Hentry _].
  destruct (fix_names_step r s s1 Hwf Hin Hnb Hname Hrun)
    as (s2 & Hph & Hwf2 & Hwf1 & Hd2 & Hp2 & Hne & Hq).
  rewrite (backup_phase_frame (FixNames.get_original_name r) s s2 r) in Hp2; try done.
  - rewrite Hnone in Hp2. by destruct Hp2.
  - by apply same_length_not_prefix.
Qed.

Lemma path_le_lt (p q : path) : path_le p q → p ≠ q → path_cmp p q = Lt.
Proof.
  unfold path_le. intros Hle Hne. destruct (path_cmp p q) eqn:E; [|done|done].
  by apply path_cmp_eq in E.
Qed.

(** In a sorted list, what follows a path and comes no later than one of
    its descendants is a descendant too. *)
Lemma next_is_descendant (p r x : path) :
  path_le p r → p ≠ r → path_le r x → p `prefix_of` x → p `prefix_of` r.
Proof.
  intros Hpr Hne Hrx [t ->]. apply path_le_lt in Hpr; [|done].
  destruct (decide (r = p ++ t)) as [->|Hne']; [by apply prefix_app_r|].
  apply path_le_lt in Hrx; [|done].
  by apply (lex_cmp_between str_cmp str_cmp_eq str_cmp_opp str_cmp_trans p t r).
Qed.

(** A run in which every discovered file is processed with success, none
    of them renamed to a name the scan would pick up again, leaves nothing
    for the scan to find. *)
Lemma run_ok_clears (files : list path) (s s' : fs) :
  run_ok files s s' → wf s →
  StronglySorted path_le files → NoDup files →
  (∀ p, p ∈ files →
        actionable p ∧ ¬ optimized_name (name (FixNames.get_original_name p))) →
  (∀ q, actionable q → is_Some (s !! q) → q ∈ files) →
  ∀ q, actionable q → s' !! q = None.
Proof.
  induction 1 as [s|p rest s s1 s' Hp Hrest IH]; intros Hwf Hsorted Hnd Hall Hcov q Hq.
  - destruct (s !! q) eqn:E; [|done].
    assert (q ∈ []) as Hin by (apply Hcov; eauto). by apply elem_of_nil in Hin.
  - destruct (Hall p) as [Hpa Hpd]; [apply list_elem_of_here|].
    destruct (step_effect p s s1 Hwf Hpa Hpd Hp) as (Hwf1 & Hgone & Heff).
    apply StronglySorted_inv in Hsorted as [Hsorted Hfirst].
    apply NoDup_cons in Hnd as [Hnotin Hnd].
    apply IH; try done.
    + intros p' Hp'. apply Hall. by apply list_elem_of_further.
    + intros q' Hq' Hsome.
      destruct (Heff q' Hq' Hsome) as [[Hnp Hs]|(t & Ht & Hta & Hts)].
      * specialize (Hcov q' Hq' Hs). apply elem_of_cons in Hcov as [->|Hcov]; [|done].
        by destruct Hnp.
      * exfalso.
        specialize (Hcov (p ++ t) Hta Hts).
        apply elem_of_cons in Hcov as [Heq|Hcov].
        { rewrite <- (app_nil_r p) in Heq at 2. by apply app_inv_head in Heq. }
        inversion Hrest as [|r rest' ? s2 ? Hr Hrest' Heq1 Heq2 Heq3]; subst;
          [by apply elem_of_nil in Hcov|].
        assert (p `prefix_of` r) as Hpr.
        { rewrite Forall_forall in Hfirst.
          apply (next_is_descendant p r (p ++ t)).
          - apply Hfirst. apply list_elem_of_here.
          - intros ->. apply Hnotin. apply list_elem_of_here.
          - apply elem_of_cons in Hcov as [<-|Hcov].
            + unfold path_le. by rewrite (proj2 (path_cmp_eq _ _) eq_refl).
            + apply StronglySorted_inv in Hsorted as [_ Hr1].
              rewrite Forall_forall in Hr1. by apply Hr1.
          - by apply prefix_app_r. }
        eapply (missing_source_fails r s1); [done| |by apply Hgone|exact Hr].
        apply Hall. apply list_elem_of_further, list_elem_of_here.
Qed.

Lemma find_discovered (s : fs) :
  FixNames.find_optimized_files s = (Ok (discovered s), s).
Proof. reflexivity. Qed.

(** C8, as the code has it: after a confirmed run on a well-formed tree
    in which every discovered file was processed with success, and in
    which no discovered file was given a new name that itself ends in
    [-optimized.glb] or [-optimized.gltf], a second scan finds nothing. *)
Theorem second_run_finds_nothing (answer : option string) (s s' : fs) (r : FixNames.summary) :
  wf s →
  FixNames.main answer s = (Ok (Finished r), s') →
  FixNames.failed_files r = [] →
  (∀ p, p ∈ discovered s → ¬ optimized_name (name (FixNames.get_original_name p))) →
  fst (FixNames.find_optimized_files s') = Ok [].
Proof.
  intros Hwf Hmain Hnofail Hnames.
  apply main_finished_inv in Hmain as (_ & s0 & Hmk & Hex).
  destruct (Path_mkdir_spec _ _ _ _ _ _ Hwf Hmk) as (Hwf0 & Hg & _).
  apply execute_all_ok in Hex; [|done].
  destruct (discovered_spec s) as (Hsorted & Hnd & Hmem).
  assert (∀ q, actionable q → s' !! q = None) as Hclear.
  { apply (run_ok_clears (discovered s) s0 s'); try done.
    - intros p Hp. split; [|by apply Hnames]. by apply Hmem in Hp as (_ & _ & ?).
    - intros q Hq Hsome.
      assert (is_Some (s !! q)) as Hs.
      { destruct (Hg q) as [E|(_ & _ & Hp & _)]; [by rewrite <- E|].
        exfalso. apply (actionable_outside_backup q Hq).
        destruct Hq as (Hin & _). apply in_parents_spec in Hin as (u & Hu & ->).
        change FixNames.BACKUP_DIR with (FixNames.ASSETS_DIR ++ ["originals"]) in Hp.
        apply prefix_app_inv in Hp. destruct u as [|y u]; [done|].
        destruct Hp as [k Hk]. injection Hk as <- Hk. destruct u; [|done]. by exists []. }
      apply Hmem. split_and!; try done.
      destruct Hq as (Hin & _). apply in_parents_spec in Hin as (u & Hu & ->).
      by apply (wf_ancestor_dir s FixNames.ASSETS_DIR u). }
  rewrite find_discovered. cbn [fst]. f_equal.
  destruct (discovered s') as [|x l] eqn:Hd; [done|]. exfalso.
  destruct (discovered_spec s') as (_ & _ & Hmem').
  assert (x ∈ discovered s') as Hx by (rewrite Hd; apply list_elem_of_here).
  apply Hmem' in Hx as (_ & [n Hn] & Hact).
  rewrite (Hclear x Hact) in Hn. done.
Qed.

Lemma second_run_finds_nothing_witness :
  let run := FixNames.main (Some "s") fs_car in
  fst run = Ok (Finished (FixNames.Summary 1 [])) ∧
  fst (FixNames.find_optimized_files (snd run)) = Ok [].
Proof.
  cbv zeta. destruct (FixNames.main (Some "s") fs_car) as [r s'] eqn:Hrun.
  assert (r = Ok (Finished (FixNames.Summary 1 []))) as ->.
  { change r with (fst (r, s')). rewrite <- Hrun. vm_compute. reflexivity. }
  cbn [fst snd]. split; [reflexivity|].
  apply (second_run_finds_nothing (Some "s") fs_car s' (FixNames.Summary 1 [])).
  - apply wfb_wf. vm_compute. reflexivity.
  - exact Hrun.
  - reflexivity.
  - assert (discovered fs_car = [["public"; "assets"; "car-optimized.glb"]]) as ->
      by (vm_compute; reflexivity).
    intros p ->%list_elem_of_singleton [H|H]; vm_compute in H; discriminate H.
Defined.

(** Dropping the marker can join two fragments into a new marker:
    [x-opti-optimizedmized-optimized.glb] becomes [x-optimized.glb], which
    the next scan finds. *)
Definition fs_rejoin : fs :=
  list_to_map
    [ (["public"], Dir true);
      (["public"; "assets"], Dir true);
      (["public"; "assets"; "x-opti-optimizedmized-optimized.glb"], File "x") ].

Lemma second_run_finds_rejoined_marker :
  let run := FixNames.main (Some "s") fs_rejoin in
  wfb fs_rejoin = true ∧
  fst run = Ok (Finished (FixNames.Summary 1 [])) ∧
  fst (FixNames.find_optimized_files (snd run)) = Ok [["public"; "assets"; "x-optimized.glb"]].
Proof.
  cbv zeta. split; [|split]; vm_compute; reflexivity.
Qed.

(** ** The listing scripts *)




(** ** The JSON the listing scripts write

    To say that the output is a JSON array of the names, here is a reader
    for JSON arrays of strings: a finite-state scan of the text, with the
    escapes of RFC 8259 (a [\u] escape is accepted for code points below
    128). *)

Inductive pstate :=
  | PStart
  | PFirst
  | PItem (acc : list string)
  | PStr (acc : list string) (cur : list ascii)
  | PEsc (acc : list string) (cur : list ascii)
  | PUni (acc : list string) (cur : list ascii) (digits : list nat)
  | PAfter (acc : list string)
  | PEnd (acc : list string)
  | PFail.

Definition is_ws (c : ascii) : bool :=
  let n := nat_of_ascii c in ((n =? 32) || (n =? 10) || (n =? 13) || (n =? 9))%nat.

Definition hex_val (c : ascii) : option nat :=
  let n := nat_of_ascii c in
  if ((48 <=? n) && (n <=? 57))%nat then Some (n - 48)
  else if ((97 <=? n) && (n <=? 102))%nat then Some (n - 87)
  else if ((65 <=? n) && (n <=? 70))%nat then Some (n - 55)
  else None.

Definition unescape (c : ascii) : option ascii :=
  let n := nat_of_ascii c in
  if (n =? 34)%nat then Some Json.dquote
  else if (n =? 92)%nat then Some "\"%char
  else if (n =? 47)%nat then Some "/"%char
  else if (n =? 98)%nat then Some (ascii_of_nat 8)
  else if (n =? 102)%nat then Some (ascii_of_nat 12)
  else if (n =? 110)%nat then Some (ascii_of_nat 10)
  else if (n =? 114)%nat then Some (ascii_of_nat 13)
  else if (n =? 116)%nat then Some (ascii_of_nat 9)
  else None.

Definition pstep (st : pstate) (c : ascii) : pstate :=
  let n := nat_of_ascii c in
  match st with
  | PStart => if is_ws c then PStart else if (n =? 91)%nat then PFirst else PFail
  | PFirst =>
      if is_ws c then PFirst
      else if (n =? 93)%nat then PEnd []
      else if (n =? 34)%nat then PStr [] []
      else PFail
  | PItem acc =>
      if is_ws c then PItem acc else if (n =? 34)%nat then PStr acc [] else PFail
  | PStr acc cur =>
      if (n =? 34)%nat then PAfter (Str.str (rev cur) :: acc)
      else if (n =? 92)%nat then PEsc acc cur
      else if (n <? 32)%nat then PFail
      else PStr acc (c :: cur)
  | PEsc acc cur =>
      if (n =? 117)%nat then PUni acc cur []
      else match unescape c with
           | Some d => PStr acc (d :: cur)
           | None => PFail
           end
  | PUni acc cur digits =>
      match hex_val c with
      | None => PFail
      | Some v =>
          match digits with
          | [a; b; d] =>
              let code := ((a * 16 + b) * 16 + d) * 16 + v in
              if (code <? 128)%nat then PStr acc (ascii_of_nat code :: cur) else PFail
          | _ => PUni acc cur (digits ++ [v])
          end
      end
  | PAfter acc =>
      if is_ws c then PAfter acc
      else if (n =? 44)%nat then PItem acc
      else if (n =? 93)%nat then PEnd acc
      else PFail
  | PEnd acc => if is_ws c then PEnd acc else PFail
  | PFail => PFail
  end.

Definition parse (text : string) : option (list string) :=
  match fold_left pstep (Str.chars text) PStart with
  | PEnd acc => Some (rev acc)
  | _ => None
  end.

(** The lines of a text. *)
Fixpoint lines_from (cur : list ascii) (l : list ascii) : list (list ascii) :=
  match l with
  | [] => [rev cur]
  | c :: l' =>
      if bool_decide (c = Json.newline) then rev cur :: lines_from [] l'
      else lines_from (c :: cur) l'
  end.




Example parse_ex :
  parse (Json.dump ["b.glb"; "a b"; "çé"] 2) = Some ["b.glb"; "a b"; "çé"].
Proof. vm_compute. reflexivity. Qed.













(** Layout: one line per name. *)
Lemma lines_from_plain (cur a : list ascii) :
  forallb (λ x, negb (bool_decide (x = Json.newline))) a = true →
  lines_from cur a = [rev cur ++ a].
Proof.
  revert cur. induction a as [|c a IH]; intros cur; simpl.
  - intros _. by rewrite app_nil_r.
  - intros [Hc Ha]%andb_true_iff. apply negb_true_iff in Hc. rewrite Hc.
    rewrite IH by done. simpl. by rewrite <- app_assoc.
Qed.








(** The names a listing function returns on a tree. *)
Definition names_of (listing : M (list string)) (s : fs) : list string :=
  match fst (listing s) with
  | Ok l => l
  | Raise _ => []
  end.

Lemma listing_written (listing : M (list string)) (out : path) (s s' : fs) (n : nat) :
  (∀ s, ∃ l, listing s = (Ok l, s)) →
  (let! arquivos := listing in
   write_file out (Json.dump arquivos 2) >> ret (length arquivos)) s = (Ok n, s') →
  n = length (names_of listing s) ∧
  s' = <[out := File (Json.dump (names_of listing s) 2)]> s.
Proof.
  intros Hl. destruct (Hl s) as [l Hls]. unfold names_of. rewrite Hls. cbn [fst].
  rewrite (bind_ok _ _ _ _ _ Hls).
  intros ([] & s1 & Hw & [= <- <-])%bind_inv_ok.
  by apply write_file_inv in Hw as [(_ & _ & _ & _ & ->)|(e & [=] & _)].
Qed.



(** * Further properties

    What the scripts do whatever the outcome of each call: the tree stays
    a tree, and only the paths a call names are touched. *)

Lemma bind_inv {A B} (m : M A) (k : A → M B) (s s' : fs) (r : result B) :
  bind m k s = (r, s') →
  (∃ a s1, m s = (Ok a, s1) ∧ k a s1 = (r, s')) ∨
  (∃ e, m s = (Raise e, s') ∧ r = Raise e).
Proof.
  unfold bind. destruct (m s) as [[a|e] s1]; [by eauto|].
  intros [= <- <-]. by eauto.
Qed.

Lemma try_except_inv {A} (m : M A) (h : exn → M A) (s s' : fs) (r : result A) :
  try_except m h s = (r, s') →
  (∃ a, m s = (Ok a, s') ∧ r = Ok a) ∨
  (∃ e s1, m s = (Raise e, s1) ∧ h e s1 = (r, s')).
Proof.
  unfold try_except. destruct (m s) as [[a|e] s1]; [|by eauto].
  intros [= <- <-]. by eauto.
Qed.

Lemma grows_by_dirs_wider (p p' : path) (s s' : fs) :
  p `prefix_of` p' → grows_by_dirs p s s' → grows_by_dirs p' s s'.
Proof.
  intros Hp H q. destruct (H q) as [E|(E1 & E2 & Hq & Hne)]; [by left|].
  right. split_and!; try done. by etrans.
Qed.

(** [os.makedirs], whatever its outcome: directories appear along the
    path, nothing else changes. *)
Lemma os_makedirs_any (dst : path) (s sb : fs) (r : result ()) :
  wf s → os_makedirs dst s = (r, sb) →
  wf sb ∧ grows_by_dirs dst s sb.
Proof.
  intros Hwf. unfold os_makedirs, bind at 1, get at 1.
  assert (parent dst `prefix_of` dst) as Hpp by by apply prefix_of_parent.
  intros [([] & sa & Hpre & Hmk)|(e & Hpre & ->)]%bind_inv.
  - assert (wf sa ∧ grows_by_dirs (parent dst) s sa) as [Hwfa Hga].
    { destruct (exists_ s (parent dst)).
      - injection Hpre as <-. split; [done|apply grows_by_dirs_refl].
      - by destruct (Path_mkdir_spec _ _ _ _ _ _ Hwf Hpre) as (? & ? & _). }
    destruct r as [[]|e].
    + destruct (os_mkdir_spec _ _ _ Hwfa Hmk) as (Hwfb & Hgb & _).
      split; [done|]. by eapply grows_by_dirs_trans.
    + apply os_mkdir_inv in Hmk as [([=] & _)|(e' & _ & -> & _)].
      split; [done|]. by eapply grows_by_dirs_wider.
  - destruct (exists_ s (parent dst)); [done|].
    destruct (Path_mkdir_spec _ _ _ _ _ _ Hwf Hpre) as (? & ? & _).
    split; [done|]. by eapply grows_by_dirs_wider.
Qed.

Lemma joinpath_prefix (d : path) (n : string) : d `prefix_of` joinpath d n.
Proof.
  unfold joinpath. destruct (_ || _); [done|]. by apply prefix_app_r.
Qed.

Lemma joinpath_parent (d : path) (n : string) :
  joinpath d n = d ∨ parent (joinpath d n) = d.
Proof.
  unfold joinpath. destruct (_ || _); [by left|]. right. apply parent_snoc.
Qed.

(** What a call may do to the entries outside the trees at [src] and
    [dst]: nothing, except that a fall-back copy of a directory creates
    the missing ancestors of its destination. *)
Definition moved_within (src dst : path) (s s' : fs) : Prop :=
  ∀ q, ¬ src `prefix_of` q → ¬ dst `prefix_of` q →
       s' !! q = s !! q ∨
       (s !! q = None ∧ q `prefix_of` parent dst ∧ q ≠ [] ∧ is_Some (s !! src)).

Lemma proper_prefix_parent (q d : path) : q `prefix_of` d → q ≠ d → q `prefix_of` parent d.
Proof.
  intros Hq Hne. apply prefix_parent. unfold in_parents.
  by rewrite bool_decide_eq_true_2, bool_decide_eq_false_2.
Qed.

(** [shutil.move], whatever its outcome. *)
Lemma shutil_move_any (src dst : path) (s s' : fs) (r : result ()) :
  wf s → shutil_move src dst s = (r, s') →
  wf s' ∧ moved_within src dst s s'.
Proof.
  intros Hwf. unfold shutil_move.
  assert (moved_within src dst s s) as Hsame by (intros q _ _; by left).
  destruct (is_dir s dst && bool_decide (src = dst)) eqn:Hself.
  { intros [(e & _ & ->)|(_ & _ & _ & [[_ ->]|(Hne & _)])]%os_rename_inv; try done.
    apply andb_true_iff in Hself as [_ Heq%bool_decide_eq_true]. done. }
  set (real_dst := if is_dir s dst then joinpath dst (name src) else dst).
  assert (dst `prefix_of` real_dst) as Hreal.
  { unfold real_dst. destruct (is_dir s dst); [apply joinpath_prefix|done]. }
  destruct (is_dir s dst && exists_ s real_dst) eqn:Hthere.
  { by intros [= <- <-]. }
  assert (real_dst ≠ []) as Hrne.
  { intros E. unfold real_dst in *. destruct (is_dir s dst) eqn:Hd.
    - rewrite E in Hthere. done.
    - rewrite E in Hd. done. }
  assert (real_dst = dst ∨ parent real_dst = dst ∧ stat s real_dst = None) as Hshape.
  { unfold real_dst in *. destruct (is_dir s dst); [|by left].
    destruct (joinpath_parent dst (name src)) as [E|E]; [by left|right].
    split; [done|]. cbn [andb] in Hthere. apply bool_decide_eq_false in Hthere.
    destruct (stat s _); [|done]. destruct Hthere. eauto. }
  assert (∀ q, q `prefix_of` real_dst → ¬ dst `prefix_of` q → q `prefix_of` parent dst) as Hanc.
  { intros q Hq Hnd.
    assert (q ≠ real_dst) as Hqr by (intros E; apply Hnd; by rewrite E).
    assert (q ≠ dst) as Hqd by (intros ->; by apply Hnd).
    pose proof (proper_prefix_parent _ _ Hq Hqr) as Hq'.
    destruct Hshape as [E|[E _]]; rewrite E in Hq'; [done|].
    by apply proper_prefix_parent. }
  assert (is_Some (stat s src) → src `prefix_of` real_dst → src `prefix_of` dst) as Hsrp.
  { intros Hsome Hp. destruct Hshape as [E|[E Hnone]]; [by rewrite <- E|].
    rewrite <- E. apply proper_prefix_parent; [done|]. intros E'.
    rewrite E', Hnone in Hsome. by destruct Hsome. }
  clearbody real_dst.
  intros [([] & Hren & ->)|(e & s1 & Hren & Hfall)]%try_except_inv.
  - apply os_rename_inv in Hren
      as [(e & [=] & _)|(_ & Hne & Hsome & [[-> ->]|(Hneq & Hpd & Hnp & _ & ->)])]; [done|].
    split; [by apply wf_reroot|].
    intros q Hqs Hqd. left. rewrite reroot_lookup.
    rewrite (proj2 (relative_to_None q real_dst)) by (intros H; apply Hqd; by etrans).
    by rewrite bool_decide_eq_false_2.
  - apply os_rename_inv in Hren as [(e0 & _ & ->)|([=] & _)].
    destruct (stat s src) as [[c|w]|] eqn:Hsrc.
    + (* a regular file: copy, then unlink *)
      assert (src ≠ []) as Hsne by (by intros ->).
      pose proof Hsrc as Hsrc'. rewrite stat_lookup in Hsrc' by done.
      apply bind_inv in Hfall as [([] & s2 & Hw & Hu)|(e' & Hw & ->)].
      2:{ by apply write_file_inv in Hw as [([=] & _)|(? & _ & ->)]. }
      apply write_file_inv in Hw as [(_ & _ & Hnd & Hpw & ->)|(e' & [=] & _)].
      assert (is_dir s (parent real_dst) = true) as Hpd.
      { destruct Hpw as [[n Hn]|Hpw]; [|by apply dir_writable_is_dir].
        eapply wf_stat_parent; [done|]. by rewrite stat_lookup. }
      assert (wf (<[real_dst := File c]> s)) as Hwf1 by by apply wf_insert.
      assert (moved_within src dst s (<[real_dst := File c]> s)) as Hm1.
      { intros q Hqs Hqd. left. rewrite lookup_insert_ne; [done|].
        intros <-. by apply Hqd. }
      apply os_unlink_inv in Hu as [(_ & _ & _ & ->)|(e' & _ & ->)]; [|done].
      split.
      * apply wf_delete; [done|]. intros q Hq.
        rewrite lookup_insert_ne; [by eapply wf_below_file|].
        intros <-. apply prefix_parent in Hq.
        destruct (decide (src = parent real_dst)) as [Heq|Hneq].
        -- rewrite <- Heq in Hpd. apply is_dir_stat in Hpd as [w Hw]. congruence.
        -- assert (in_parents src (parent real_dst) = true) as Hin.
           { unfold in_parents. by rewrite bool_decide_eq_true_2, bool_decide_eq_false_2. }
           pose proof (wf_below_file _ _ _ _ Hwf Hsrc Hin) as Hnone.
           apply is_dir_lookup in Hpd as [Hpd|[w Hw]]; [|congruence].
           rewrite Hpd in Hq. by apply prefix_nil_inv in Hq.
      * intros q Hqs Hqd. left. rewrite lookup_delete_ne by (intros <-; by apply Hqs).
        rewrite lookup_insert_ne; [done|]. intros <-. by apply Hqd.
    + (* a directory: copy the tree, then remove the source *)
      case_bool_decide as Hnp; [by injection Hfall as <- <-|].
      assert (src ≠ []) as Hsne by (intros ->; apply Hnp, prefix_nil).
      pose proof Hsrc as Hsrc'. rewrite stat_lookup in Hsrc' by done.
      assert (¬ src `prefix_of` real_dst) as Hnr by (intros H; apply Hnp, Hsrp; eauto).
      assert (∀ sb, grows_by_dirs real_dst s sb → moved_within src dst s sb) as Hgrow.
      { intros sb Hg q Hqs Hqd. destruct (Hg q) as [E|(E1 & E2 & Hp & Hq)]; [by left|].
        right. split_and!; eauto. }
      apply bind_inv in Hfall as [([] & s2 & Hc & Hr)|(e' & Hc & ->)].
      2:{ unfold copytree in Hc.
          apply bind_inv in Hc as [([] & sb & Hmk & [=])|(e'' & Hmk & _)].
          destruct (os_makedirs_any _ _ _ _ Hwf Hmk) as [Hwfb Hgb]. split; [done|].
          by apply Hgrow. }
      unfold copytree in Hc. apply bind_inv_ok in Hc as ([] & sb & Hmk & [= <-]).
      destruct (os_makedirs_any _ _ _ _ Hwf Hmk) as [_ Hgb].
      destruct (os_makedirs_ok _ _ _ Hwf Hmk) as (sa & Hwfa & Hga & Hda & _ & -> & Hwfb).
      assert (∀ t, <[real_dst := Dir true]> sa !! (src ++ t) = s !! (src ++ t)) as Hsb.
      { intros t. rewrite lookup_insert_ne.
        - destruct (Hga (src ++ t)) as [E|(_ & _ & Hp & _)]; [done|].
          destruct Hnr. etrans; [by apply prefix_app_r|].
          etrans; [exact Hp|]. by apply prefix_of_parent.
        - intros ->. apply Hnr. by apply prefix_app_r. }
      assert (is_Some (<[real_dst := Dir true]> sa !! src)) as Hsome.
      { specialize (Hsb []). rewrite app_nil_r in Hsb. rewrite Hsb. eauto. }
      assert (∀ t, t ≠ [] → <[real_dst := Dir true]> sa !! (real_dst ++ t) = None) as Hbelow.
      { intros t Ht. rewrite lookup_insert_ne.
        - eapply wf_below_missing; [done| |].
          + by rewrite stat_lookup.
          + apply in_parents_spec. eauto.
        - intros H. rewrite <- (app_nil_r real_dst) in H at 1. apply app_inv_head in H. done. }
      assert (wf (shifted src real_dst (<[real_dst := Dir true]> sa) ∪ <[real_dst := Dir true]> sa))
        as Hwfc by (apply wf_copy; try done; by rewrite lookup_insert_eq).
      assert (moved_within src dst s
                (shifted src real_dst (<[real_dst := Dir true]> sa) ∪ <[real_dst := Dir true]> sa))
        as Hmc.
      { intros q Hqs Hqd. rewrite copy_lookup by done.
        rewrite (proj2 (relative_to_None q real_dst)) by (intros H; apply Hqd; by etrans).
        by apply Hgrow. }
      unfold rmtree in Hr. destruct (rmtree_permitted _ src); injection Hr as <- <-; [|done].
      split; [by apply wf_remove_subtree|].
      intros q Hqs Hqd. rewrite remove_subtree_lookup, bool_decide_eq_false_2 by done.
      by apply Hmc.
    + by injection Hfall as <- <-.
Qed.

(** ** What processing a file can touch *)

(** A handler that turns every exception into a value keeps the state
    the failed command left. *)
Lemma try_except_ret_inv {A} (m : M A) (a0 : A) (s s' : fs) (r : result A) :
  try_except m (λ _, ret a0) s = (r, s') → ∃ r', m s = (r', s').
Proof.
  intros [(a & H & _)|(e & s1 & H & [= _ <-])]%try_except_inv; eauto.
Qed.

Lemma bind_ret_inv {A B} (m : M A) (f : A → B) (s s' : fs) (r : result B) :
  (let! a := m in ret (f a)) s = (r, s') → ∃ r', m s = (r', s').
Proof.
  intros [(a & s1 & H & [= _ <-])|(e & H & _)]%bind_inv; eauto.
Qed.

(** [keeps roots s s']: from [s] to [s'], every entry outside the backup
    tree that is not at or below one of the [roots] is what it was, and
    every entry of the backup tree is still there, unchanged. *)
Definition keeps (roots : list path) (s s' : fs) : Prop :=
  (∀ q, ¬ FixNames.BACKUP_DIR `prefix_of` q → Forall (λ r, ¬ r `prefix_of` q) roots →
        s' !! q = s !! q) ∧
  (∀ b x, FixNames.BACKUP_DIR `prefix_of` b → s !! b = Some x → s' !! b = Some x).

Lemma keeps_refl (roots : list path) (s : fs) : keeps roots s s.
Proof. by split. Qed.

Lemma keeps_trans (roots : list path) (s1 s2 s3 : fs) :
  keeps roots s1 s2 → keeps roots s2 s3 → keeps roots s1 s3.
Proof.
  intros [H1 H1'] [H2 H2']. split.
  - intros q Hq Hr. rewrite H2, H1; done.
  - intros b x Hb Hx. by apply H2', H1'.
Qed.

Lemma keeps_weaken (roots roots' : list path) (s s' : fs) :
  roots ⊆ roots' → keeps roots s s' → keeps roots' s s'.
Proof.
  intros Hsub [H1 H2]. split; [|done].
  intros q Hq Hr. apply H1; [done|].
  apply Forall_forall. intros r Hin. rewrite Forall_forall in Hr. by apply Hr, Hsub.
Qed.

(** Choosing the backup path creates directories in the backup tree and
    nothing else, and the path it returns lies in that tree. *)
Lemma backup_path_for_any (original : path) (s s1 : fs) (r : result path) :
  wf s → in_parents FixNames.ASSETS_DIR original = true → entry_name (name original) →
  is_Some (s !! original) →
  FixNames.backup_path_for original s = (r, s1) →
  wf s1 ∧ (∃ bk, r = Ok bk ∧ FixNames.BACKUP_DIR `prefix_of` bk) ∧ keeps [] s s1.
Proof.
  intros Hwf Hin Hname Hsome Hb.
  destruct (backup_path_for_spec _ _ _ _ Hwf Hin Hname Hb) as (Hwf1 & Hg & Hr).
  split; [done|]. split; [|split].
  - destruct Hr as [[-> _]| ->]; eexists; (split; [done|]).
    + by apply prefix_app_r.
    + by apply prefix_app_r.
  - intros q Hq _. destruct (Hg q) as [E|(E1 & _ & Hp & Hne)]; [done|].
    assert (is_Some (s !! q)) as [? ?]; [|congruence].
    apply (outer_ancestor_exists s q (parent (mirrored_backup original)) original); try done.
    destruct (asset_path_inv _ Hin) as (r0 & Hp0 & _).
    rewrite Hp0. rewrite mirrored_backup_asset, app_assoc, parent_snoc.
    by apply prefix_app_r.
  - intros b x _ Hx. destruct (Hg b) as [E|(E1 & _)]; congruence.
Qed.

(** Moving the original to its backup, or unlinking it when a backup
    exists already. *)
Lemma clear_original_any (original bk : path) (s s' : fs) (r : result ()) :
  wf s → in_parents FixNames.ASSETS_DIR original = true →
  ¬ FixNames.BACKUP_DIR `prefix_of` original →
  FixNames.BACKUP_DIR `prefix_of` bk →
  (if negb (exists_ s bk) then shutil_move original bk else os_unlink original) s = (r, s') →
  wf s' ∧ keeps [original] s s'.
Proof.
  intros Hwf Hin Hnb Hbk. destruct (exists_ s bk) eqn:Hex; cbn [negb].
  - intros [(_ & [c Hc] & _ & ->)|(e & _ & ->)]%os_unlink_inv; [|split; [done|apply keeps_refl]].
    assert (original ≠ []) as Hne by (by eapply wf_lookup_nonempty).
    split; [|split].
    + apply wf_delete; [done|]. intros q Hq. eapply wf_below_file; [done| |done].
      by rewrite stat_lookup.
    + intros q _ [Hq _]%Forall_cons. rewrite lookup_delete_ne; [done|]. intros <-. by apply Hq.
    + intros b x Hb Hx. rewrite lookup_delete_ne; [done|]. by intros <-.
  - intros Hmv. destruct (shutil_move_any _ _ _ _ _ Hwf Hmv) as [Hwf' Hm].
    apply bool_decide_eq_false in Hex.
    assert (stat s bk = None) as Hnone by (destruct (stat s bk); [destruct Hex; eauto|done]).
    split; [done|]. split.
    + intros q Hqb [Hqo _]%Forall_cons.
      destruct (Hm q Hqo) as [E|(E1 & Hp & Hne & Hsome)]; [|done|].
      { intros H. apply Hqb. by etrans. }
      assert (is_Some (s !! q)) as [? ?]; [|congruence].
      eapply (outer_ancestor_exists s q bk original); try done.
      by apply prefix_of_parent.
    + intros b x Hb Hx.
      destruct (Hm b) as [E|(E1 & _)]; [| |congruence..].
      * by apply outside_backup_not_prefix.
      * intros Hp. destruct (decide (b = bk)) as [->|Hne].
        -- rewrite stat_lookup in Hnone by (by intros ->). congruence.
        -- rewrite (wf_below_missing s bk b Hwf Hnone) in Hx; [done|].
           unfold in_parents. by rewrite bool_decide_eq_true_2, bool_decide_eq_false_2.
Qed.

(** The last step: the processed file takes the place of the original.
    Both are siblings, so no directory has to be created. *)
Lemma replace_original_any (src dst : path) (s s' : fs) (r : result ()) :
  wf s → parent dst = parent src →
  in_parents FixNames.ASSETS_DIR src = true → ¬ FixNames.BACKUP_DIR `prefix_of` src →
  in_parents FixNames.ASSETS_DIR dst = true → ¬ FixNames.BACKUP_DIR `prefix_of` dst →
  shutil_move src dst s = (r, s') →
  wf s' ∧ keeps [src; dst] s s'.
Proof.
  intros Hwf Hpar Hsin Hsnb Hdin Hdnb Hmv.
  destruct (shutil_move_any _ _ _ _ _ Hwf Hmv) as [Hwf' Hm].
  assert (∀ q, ¬ src `prefix_of` q → ¬ dst `prefix_of` q → s' !! q = s !! q) as Hsame.
  { intros q Hqs Hqd.
    destruct (Hm q Hqs Hqd) as [E|(E1 & Hp & Hqne & [n Hn])]; [done|].
    rewrite Hpar in Hp. destruct (Hwf _ _ Hn) as [_ Hd].
    assert (is_dir s q = true) as Hq.
    { destruct Hp as [t Ht]. destruct (decide (t = [])) as [->|Hte].
      - rewrite app_nil_r in Ht. by rewrite <- Ht.
      - apply (wf_ancestor_dir s q t); [done..|]. rewrite <- Ht.
        apply is_dir_lookup in Hd as [Hd|[w Hw]]; [|eauto].
        rewrite Ht in Hd. by destruct q. }
    apply is_dir_lookup in Hq as [Hq|[w Hw]]; [done|congruence]. }
  split; [done|]. split.
  - intros q _ [Hq1 [Hq2 _]%Forall_cons]%Forall_cons. by apply Hsame.
  - intros b x Hb Hx. rewrite Hsame; [done|by apply outside_backup_not_prefix..].
Qed.

(** [fix-names.py], one file, whatever happens: the tree stays a tree,
    what is in the backup tree stays there, and every entry outside it
    that lies neither at or below the file nor at or below its new name
    is what it was. *)
Lemma fix_names_process_file_effect (p : path) (s s' : fs) (ok : bool) :
  wf s → actionable p →
  FixNames.process_file p false s = (Ok ok, s') →
  wf s' ∧ keeps [p; FixNames.get_original_name p] s s'.
Proof.
  intros Hwf Hact Hrun.
  pose proof (actionable_outside_backup _ Hact) as Hnb.
  destruct Hact as (Hin & _ & Hname).
  set (dst := FixNames.get_original_name p) in *.
  destruct (destination_facts p Hin Hnb Hname) as (Hpar & Hlen & Hdin & Hdnb & Hdm & Hdne).
  fold dst in Hpar, Hlen, Hdin, Hdnb, Hdm, Hdne.
  destruct (model_name_entry _ Hdm) as [Hentry _].
  unfold FixNames.process_file in Hrun. fold dst in Hrun.
  unfold bind at 1, get at 1 in Hrun. cbn iota in Hrun.
  apply try_except_ret_inv in Hrun as [r1 Hrun].
  assert (∃ s2, wf s2 ∧ keeps [p; dst] s s2 ∧
                (s' = s2 ∨ ∃ r2, shutil_move p dst s2 = (r2, s')))
    as (s2 & Hwf2 & Hk2 & Hlast).
  { assert (∀ r0 s2,
             (if exists_ s dst
              then let! backup_path := FixNames.backup_path_for dst in
                   let! backed_up := get (λ s, exists_ s backup_path) in
                   if negb backed_up then shutil_move dst backup_path else os_unlink dst
              else ret ()) s = (r0, s2) → wf s2 ∧ keeps [p; dst] s s2) as Hphase.
    { intros r0 s2 Hphase.
      destruct (exists_ s dst) eqn:Hex; [|injection Hphase as _ <-; split; [done|apply keeps_refl]].
      apply bool_decide_eq_true in Hex. rewrite stat_lookup in Hex by done.
      apply bind_inv in Hphase as [(bk & s1 & Hbk & Hphase)|(e' & Hbk & _)].
      - unfold bind at 1, get at 1 in Hphase.
        destruct (backup_path_for_any _ _ _ _ Hwf Hdin Hentry Hex Hbk)
          as (Hwf1 & (bk' & [= <-] & Hbkp) & Hk1).
        destruct (clear_original_any _ _ _ _ _ Hwf1 Hdin Hdnb Hbkp Hphase) as [Hwf2 Hk2].
        split; [done|]. eapply keeps_trans; (eapply keeps_weaken; [|eassumption]); set_solver.
      - destruct (backup_path_for_any _ _ _ _ Hwf Hdin Hentry Hex Hbk) as (Hwf1 & _ & Hk1).
        split; [done|]. eapply keeps_weaken; [|eassumption]. set_solver. }
    apply bind_inv in Hrun as [([] & s2 & Hph & Hrest)|(e & Hph & _)].
    - apply bind_ret_inv in Hrest as [r2 Hmv].
      destruct (Hphase _ _ Hph). exists s2. eauto.
    - destruct (Hphase _ _ Hph). exists s'. eauto. }
  destruct Hlast as [->|[r2 Hmv]]; [done|].
  destruct (replace_original_any _ _ _ _ _ Hwf2 Hpar Hin Hnb Hdin Hdnb Hmv) as [Hwf' Hk'].
  split; [done|]. by eapply keeps_trans.
Qed.

(** Creating the backup directory itself. *)
Lemma backup_dir_mkdir_any (s s0 : fs) (r : result ()) :
  wf s → exists_ s FixNames.ASSETS_DIR = true →
  Path_mkdir false true FixNames.BACKUP_DIR s = (r, s0) →
  wf s0 ∧ keeps [] s s0.
Proof.
  intros Hwf Hroot Hmk.
  destruct (Path_mkdir_spec _ _ _ _ _ _ Hwf Hmk) as (Hwf0 & Hg & _).
  split; [done|]. split.
  - intros q Hq _.
    destruct (Hg q) as [E|(E1 & _ & Hp & Hne)]; [done|].
    apply prefix_of_backup_inv in Hp as [t Ht]; [|done].
    apply bool_decide_eq_true in Hroot. rewrite stat_lookup in Hroot by done.
    assert (is_dir s q = true) as Hd.
    { destruct (decide (t = [])) as [->|Hte].
      - rewrite app_nil_r in Ht. subst q. destruct Hroot as [n Hn]. congruence.
      - apply (wf_ancestor_dir s q t); [done..|]. by rewrite <- Ht. }
    apply is_dir_lookup in Hd as [Hd|[w Hw]]; [done|congruence].
  - intros b x _ Hx. destruct (Hg b) as [E|(E1 & _)]; congruence.
Qed.

(** The paths a run of [fix-names.py] may touch outside the backup
    tree: the files it works on and the names it gives them. *)
Definition fix_names_roots (files : list path) : list path :=
  flat_map (λ p, [p; FixNames.get_original_name p]) files.

Lemma fix_names_execute_effect (files : list path) (acc r : FixNames.summary) (s s' : fs) :
  wf s → Forall actionable files →
  FixNames.execute files acc s = (Ok r, s') →
  wf s' ∧ keeps (fix_names_roots files) s s'.
Proof.
  revert acc s. induction files as [|p files IH]; intros acc s Hwf Hact.
  - intros [= _ <-]. split; [done|apply keeps_refl].
  - apply Forall_cons in Hact as [Hp Hact]. cbn [FixNames.execute].
    intros (ok & s1 & Hfile & Hrest)%bind_inv_ok.
    destruct (fix_names_process_file_effect _ _ _ _ Hwf Hp Hfile) as [Hwf1 Hk1].
    destruct (IH _ _ Hwf1 Hact Hrest) as [Hwf' Hk'].
    split; [done|].
    eapply keeps_trans; (eapply keeps_weaken; [|eassumption]);
      unfold fix_names_roots; simpl; set_solver.
Qed.

(** A whole run of [fix-names.py], whatever the answer and whatever
    happens to the files. *)
Lemma fix_names_main_effect (answer : option string) (s : fs) :
  wf s →
  wf (snd (FixNames.main answer s)) ∧
  keeps (fix_names_roots (discovered s)) s (snd (FixNames.main answer s)).
Proof.
  intros Hwf.
  destruct (confirms answer) eqn:Hc.
  2:{ destruct (main_unconfirmed answer s Hc) as (code & -> & _).
      split; [done|apply keeps_refl]. }
  destruct (FixNames.main answer s) as [r s'] eqn:Hmain. cbn [snd].
  unfold FixNames.main in Hmain. unfold bind at 1, get at 1 in Hmain.
  destruct (exists_ s FixNames.ASSETS_DIR) eqn:Hroot;
    [|injection Hmain as <- <-; split; [done|apply keeps_refl]].
  cbn [negb] in Hmain. unfold bind at 1 in Hmain.
  pose proof (discovered_spec s) as (_ & _ & Hd). unfold discovered in *.
  destruct (FixNames.find_optimized_files s) as [rl s1] eqn:Hfind.
  assert (s1 = s ∧ ∃ l, rl = Ok l) as [-> [l ->]].
  { unfold FixNames.find_optimized_files, get in Hfind. injection Hfind as <- <-. eauto. }
  cbn [fst] in Hd. cbn [fst].
  destruct l as [|p l]; [injection Hmain as <- <-; split; [done|apply keeps_refl]|].
  rewrite (bind_ok _ _ _ _ _ (preview_pure _ s)) in Hmain.
  destruct answer as [line|]; [|done]. simpl in Hc. rewrite Hc in Hmain. cbn [negb] in Hmain.
  apply bind_inv in Hmain as [([] & s0 & Hmk & Hmain)|(e & Hmk & _)].
  - destruct (backup_dir_mkdir_any _ _ _ Hwf Hroot Hmk) as [Hwf0 Hk0].
    destruct (fix_names_execute_total (p :: l) (FixNames.Summary 0 []) s0)
      as (r' & s2 & Hex & _).
    rewrite (bind_ok _ _ _ _ _ Hex) in Hmain. injection Hmain as <- <-.
    assert (Forall actionable (p :: l)) as Hall.
    { apply Forall_forall. intros x Hx. by apply Hd in Hx as (_ & _ & ?). }
    destruct (fix_names_execute_effect _ _ _ _ _ Hwf0 Hall Hex) as [Hwf' Hk'].
    split; [done|]. eapply keeps_trans; [|exact Hk'].
    eapply keeps_weaken; [|exact Hk0]. set_solver.
  - destruct (backup_dir_mkdir_any _ _ _ Hwf Hroot Hmk) as [Hwf0 Hk0].
    split; [done|]. eapply keeps_weaken; [|exact Hk0]. set_solver.
Qed.

(** *** optimize-assets.py *)

(** [optimize_file] leaves the tree as the optimizer left it; it reports
    success only for an input that is there and is not empty. *)
Lemma optimize_file_inv (E : env) (input_path output_path : path) (s s1 : fs)
    (r : result (bool * nat * nat)) :
  OptimizeAssets.optimize_file E input_path output_path s = (r, s1) →
  s1 = snd (OptimizeAssets.run_optimizer E input_path output_path s) ∧
  match r with
  | Ok (true, o, n) =>
      o ≠ 0 ∧ OptimizeAssets.st_size input_path s1 = (Ok o, s1) ∧
      OptimizeAssets.st_size output_path s1 = (Ok n, s1) ∧
      exit_ok (optimizer E input_path output_path s) = true
  | Ok (false, o, n) => o = 0 ∧ n = 0
  | Raise e =>
      exit_ok (optimizer E input_path output_path s) = true ∧
      exists_ s1 output_path = true ∧
      (e = FileNotFoundError ∧ stat s1 input_path = None ∨
       e = ZeroDivisionError ∧ OptimizeAssets.st_size input_path s1 = (Ok 0, s1))
  end.
Proof.
  unfold OptimizeAssets.optimize_file.
  set (st := snd (OptimizeAssets.run_optimizer E input_path output_path s)).
  rewrite (bind_ok _ _ s (exit_ok (optimizer E input_path output_path s)) st) by done.
  unfold bind at 1, get at 1.
  destruct (exit_ok _) eqn:Hok, (exists_ st output_path) eqn:Hex; cbn [andb];
    try (by intros [= <- <-]).
  unfold bind at 1.
  destruct (OptimizeAssets.st_size input_path st) as [[o|e] s2] eqn:Ho.
  2:{ intros [= <- <-]. unfold OptimizeAssets.st_size in Ho.
      destruct (stat st input_path) as [[|]|] eqn:Hst; try done.
      injection Ho as <- <-. split; [done|]. split_and!; try done. by left. }
  assert (s2 = st) as ->.
  { unfold OptimizeAssets.st_size in Ho. destruct (stat st input_path) as [[|]|]; congruence. }
  unfold bind at 1.
  destruct (OptimizeAssets.st_size output_path st) as [[n|e] s3] eqn:Hn.
  2:{ unfold OptimizeAssets.st_size in Hn. apply bool_decide_eq_true in Hex as [x Hx].
      rewrite Hx in Hn. by destruct x. }
  assert (s3 = st) as ->.
  { unfold OptimizeAssets.st_size in Hn. destruct (stat st output_path) as [[|]|]; congruence. }
  case_bool_decide as Hz; intros [= <- <-]; (split; [done|]).
  - subst o. split_and!; try done. by right.
  - done.
Qed.

Lemma temp_path_in_assets (file_path : path) :
  in_parents OptimizeAssets.ASSETS_DIR file_path = true →
  ¬ OptimizeAssets.BACKUP_DIR `prefix_of` file_path →
  let temp := OptimizeAssets.temp_path_of file_path in
  in_parents OptimizeAssets.ASSETS_DIR temp = true ∧
  ¬ OptimizeAssets.BACKUP_DIR `prefix_of` temp.
Proof.
  intros Hin Hnb temp.
  assert (file_path ≠ []) as Hne by (intros ->; by vm_compute in Hin).
  destruct (temp_path_facts file_path Hne) as (Hpar & _ & _ & Hentry & Hno).
  fold temp in Hpar, Hentry, Hno.
  assert (temp ≠ []) as Htne by apply temp_path_nonempty.
  destruct (asset_path_inv _ Hin) as (r0 & Hp & Hpp).
  rewrite (path_snoc temp Htne), Hpar, Hpp. split.
  - apply in_parents_spec. exists (r0 ++ [name temp]). split; [by destruct r0|].
    by rewrite app_assoc.
  - apply sibling_outside_backup; [|done]. rewrite <- Hpp.
    intros H. by apply Hnb, prefix_of_parent.
Qed.

(** [optimize-assets.py], one file, whatever happens (an exception
    included): the tree stays a tree, what is in the backup tree stays
    there, and outside it only the file and its temporary sibling are
    touched. *)
Lemma optimize_process_file_effect (E : env) (file_path : path) (s s' : fs)
    (r : result (bool * nat * nat)) :
  wf s → in_parents OptimizeAssets.ASSETS_DIR file_path = true →
  ¬ OptimizeAssets.BACKUP_DIR `prefix_of` file_path → entry_name (name file_path) →
  OptimizeAssets.process_file E file_path s = (r, s') →
  wf s' ∧ keeps [file_path; OptimizeAssets.temp_path_of file_path] s s'.
Proof.
  intros Hwf Hin Hnb Hname Hrun.
  assert (file_path ≠ []) as Hne by (intros ->; by vm_compute in Hin).
  destruct (temp_path_in_assets file_path Hin Hnb) as [Htin Htnb].
  set (temp := OptimizeAssets.temp_path_of file_path) in *.
  destruct (temp_path_facts file_path Hne) as (Hpar & _ & Hneq & _ & _). fold temp in Hpar, Hneq.
  unfold OptimizeAssets.process_file in Hrun. fold temp in Hrun.
  destruct (run_optimizer_spec E file_path temp s Hwf) as (_ & Hwf1 & Hf1 & _).
  assert (keeps [file_path; temp] s (snd (OptimizeAssets.run_optimizer E file_path temp s)))
    as Hk1.
  { split.
    - intros q _ [_ [Hq _]%Forall_cons]%Forall_cons. apply Hf1. intros ->. by apply Hq.
    - intros b x Hb Hx. rewrite Hf1; [done|]. intros ->. by apply Htnb. }
  apply bind_inv in Hrun as [([[success o] n] & s1 & Hopt & Hrun)|(e & Hopt & _)].
  2:{ by apply optimize_file_inv in Hopt as [-> _]. }
  apply optimize_file_inv in Hopt as [-> Hres].
  set (s1 := snd (OptimizeAssets.run_optimizer E file_path temp s)) in *.
  destruct success; cbn [negb] in Hrun.
  - (* the optimizer succeeded *)
    destruct Hres as (_ & Hsz & _ & _).
    assert (is_Some (s1 !! file_path)) as Hsome.
    { unfold OptimizeAssets.st_size in Hsz. rewrite stat_lookup in Hsz by done.
      destruct (s1 !! file_path); [eauto|done]. }
    apply bind_inv in Hrun as [(bk & s2 & Hbk & Hrun)|(e & Hbk & _)].
    2:{ destruct (backup_path_for_any _ _ _ _ Hwf1 Hin Hname Hsome Hbk) as (Hwf2 & _ & Hk2).
        split; [done|]. eapply keeps_trans; [exact Hk1|].
        eapply keeps_weaken; [|exact Hk2]. set_solver. }
    destruct (backup_path_for_any _ _ _ _ Hwf1 Hin Hname Hsome Hbk)
      as (Hwf2 & (bk' & [= <-] & Hbkp) & Hk2).
    assert (keeps [file_path; temp] s s2) as Hk12.
    { eapply keeps_trans; [exact Hk1|]. eapply keeps_weaken; [|exact Hk2]. set_solver. }
    unfold bind at 1, get at 1 in Hrun.
    apply bind_inv in Hrun as [([] & s3 & Hclear & Hrun)|(e & Hclear & _)].
    2:{ destruct (clear_original_any _ _ _ _ _ Hwf2 Hin Hnb Hbkp Hclear) as [Hwf3 Hk3].
        split; [done|]. eapply keeps_trans; [exact Hk12|].
        eapply keeps_weaken; [|exact Hk3]. set_solver. }
    destruct (clear_original_any _ _ _ _ _ Hwf2 Hin Hnb Hbkp Hclear) as [Hwf3 Hk3].
    apply bind_ret_inv in Hrun as [r' Hmv].
    destruct (replace_original_any temp file_path _ _ _ Hwf3 (eq_sym Hpar) Htin Htnb Hin Hnb Hmv)
      as [Hwf' Hk'].
    split; [done|]. eapply keeps_trans; [exact Hk12|].
    eapply keeps_trans; [eapply keeps_weaken; [|exact Hk3]; set_solver|].
    eapply keeps_weaken; [|exact Hk']. set_solver.
  - (* the optimizer failed: a leftover is unlinked *)
    unfold bind at 1, get at 1 in Hrun.
    apply bind_ret_inv in Hrun as [r' Hun].
    destruct (exists_ s1 temp); [|by injection Hun as _ <-].
    apply os_unlink_inv in Hun as [(_ & [c Hc] & _ & ->)|(e & _ & ->)]; [|done].
    split.
    + apply wf_delete; [done|]. intros q Hq. eapply wf_below_file; [done| |done].
      rewrite stat_lookup; [done|]. apply temp_path_nonempty.
    + eapply keeps_trans; [exact Hk1|]. split.
      * intros q _ [_ [Hq _]%Forall_cons]%Forall_cons.
        rewrite lookup_delete_ne; [done|]. intros <-. by apply Hq.
      * intros b x Hb Hx. rewrite lookup_delete_ne; [done|]. intros <-. by apply Htnb.
Qed.

(** What [find_files_to_process] returns on a tree. *)
Definition to_process (s : fs) : list path :=
  match fst (OptimizeAssets.find_files_to_process s) with
  | Ok l => l
  | Raise _ => []
  end.

Lemma to_process_spec (s : fs) :
  StronglySorted path_le (to_process s) ∧ NoDup (to_process s) ∧
  ∀ p, p ∈ to_process s ↔
       is_dir s OptimizeAssets.ASSETS_DIR = true ∧ is_Some (s !! p) ∧
       in_parents OptimizeAssets.ASSETS_DIR p = true ∧
       in_parents OptimizeAssets.BACKUP_DIR p = false ∧ model_name (name p).
Proof.
  pose proof (scan_spec OptimizeAssets.ASSETS_DIR OptimizeAssets.in_backup "" s)
    as (Hs & Hn & Hm).
  split; [exact Hs|]. split; [exact Hn|].
  intros p. change OptimizeAssets.BACKUP_DIR with FixNames.BACKUP_DIR.
  rewrite <- in_backup_parents. apply Hm.
Qed.

(** A path the optimize scan looks for. *)
Definition processable (p : path) : Prop :=
  in_parents OptimizeAssets.ASSETS_DIR p = true ∧
  in_parents OptimizeAssets.BACKUP_DIR p = false ∧ model_name (name p).

Definition optimize_roots (files : list path) : list path :=
  flat_map (λ p, [p; OptimizeAssets.temp_path_of p]) files.

Lemma optimize_execute_effect (E : env) (files : list path) (acc : OptimizeAssets.summary)
    (s s' : fs) (r : result OptimizeAssets.summary) :
  wf s → Forall processable files →
  OptimizeAssets.execute E files acc s = (r, s') →
  wf s' ∧ keeps (optimize_roots files) s s'.
Proof.
  revert acc s. induction files as [|p files IH]; intros acc s Hwf Hact.
  - intros [= _ <-]. split; [done|apply keeps_refl].
  - apply Forall_cons in Hact as [(Hin & Hb & Hm) Hact]. cbn [OptimizeAssets.execute].
    destruct (model_name_entry _ Hm) as [Hentry Hno].
    pose proof (not_backup_prefix p Hb Hno) as Hnb.
    intros [([[ok o] n] & s1 & Hfile & Hrest)|(e & Hfile & _)]%bind_inv.
    + destruct (optimize_process_file_effect _ _ _ _ _ Hwf Hin Hnb Hentry Hfile) as [Hwf1 Hk1].
      destruct (IH _ _ Hwf1 Hact Hrest) as [Hwf' Hk'].
      split; [done|].
      eapply keeps_trans; (eapply keeps_weaken; [|eassumption]);
        unfold optimize_roots; simpl; set_solver.
    + destruct (optimize_process_file_effect _ _ _ _ _ Hwf Hin Hnb Hentry Hfile) as [Hwf1 Hk1].
      split; [done|]. eapply keeps_weaken; [|eassumption].
      unfold optimize_roots; simpl; set_solver.
Qed.

(** A whole run of [optimize-assets.py], however it ends. *)
Lemma optimize_main_effect (E : env) (s : fs) :
  wf s →
  wf (snd (OptimizeAssets.main E s)) ∧
  keeps (optimize_roots (to_process s)) s (snd (OptimizeAssets.main E s)).
Proof.
  intros Hwf.
  destruct (OptimizeAssets.main E s) as [r s'] eqn:Hmain. cbn [snd].
  unfold OptimizeAssets.main in Hmain. unfold bind at 1, get at 1 in Hmain.
  destruct (exists_ s OptimizeAssets.ASSETS_DIR) eqn:Hroot;
    [|injection Hmain as <- <-; split; [done|apply keeps_refl]].
  cbn [negb] in Hmain.
  apply bind_inv in Hmain as [([] & s0 & Hmk & Hmain)|(e & Hmk & _)];
    destruct (backup_dir_mkdir_any _ _ _ Hwf Hroot Hmk) as [Hwf0 Hk0].
  2:{ split; [done|]. eapply keeps_weaken; [|exact Hk0]. set_solver. }
  assert (keeps (optimize_roots (to_process s)) s s0) as Hk0'
    by (eapply keeps_weaken; [|exact Hk0]; set_solver).
  destruct (negb (version_check_ok E) && negb (install_ok E));
    [by injection Hmain as <- <-|].
  unfold bind at 1 in Hmain.
  pose proof (to_process_spec s0) as (_ & _ & Hd). unfold to_process in Hd.
  destruct (OptimizeAssets.find_files_to_process s0) as [rl s1] eqn:Hfind.
  assert (s1 = s0 ∧ ∃ l, rl = Ok l) as [-> [l ->]].
  { unfold OptimizeAssets.find_files_to_process, get in Hfind. injection Hfind as <- <-. eauto. }
  cbn [fst] in Hd.
  destruct l as [|p l]; [by injection Hmain as <- <-|].
  apply bind_ret_inv in Hmain as [r' Hex].
  assert (Forall processable (p :: l)) as Hall.
  { apply Forall_forall. intros x Hx. by apply Hd in Hx as (_ & _ & ?). }
  destruct (optimize_execute_effect _ _ _ _ _ _ Hwf0 Hall Hex) as [Hwf' Hk'].
  split; [done|]. eapply keeps_trans; [exact Hk0'|].
  eapply keeps_weaken; [|exact Hk'].
  assert (p :: l ⊆ to_process s) as Hsub.
  { intros x Hx. apply Hd in Hx as (Hdir & Hsome & Hin & Hb & Hm).
    destruct (model_name_entry _ Hm) as [_ Hno].
    pose proof (not_backup_prefix x Hb Hno) as Hnb.
    apply to_process_spec. split_and!; try done.
    - apply bool_decide_eq_true in Hroot. rewrite stat_lookup in Hroot by done.
      apply is_dir_lookup in Hdir as [Hdir|[w Hw]]; [done|].
      apply is_dir_lookup. right. exists w.
      destruct Hk0 as [Hk0 _]. rewrite <- Hk0; [done| |by constructor].
      intros H%prefix_length. simpl in H. lia.
    - destruct Hk0 as [Hk0 _]. rewrite <- Hk0; [done|done|by constructor]. }
  unfold optimize_roots. intros q (x & Hx & Hq)%list_elem_of_In%in_flat_map.
  apply list_elem_of_In, in_flat_map. exists x. split; [|done].
  apply list_elem_of_In, Hsub. by apply list_elem_of_In.
Qed.

(** A garage: a model and its optimized twin, a wheel that has a backup,
    and a note that is nobody's business. *)
Definition fs_garage : fs :=
  list_to_map
    [ (["public"], Dir true);
      (["public"; "assets"], Dir true);
      (["public"; "assets"; "car.glb"], File "old car");
      (["public"; "assets"; "car-optimized.glb"], File "new car");
      (["public"; "assets"; "wheel.glb"], File "wheel");
      (["public"; "assets"; "readme.txt"], File "note");
      (["public"; "assets"; "originals"], Dir true);
      (["public"; "assets"; "originals"; "wheel.glb"], File "first wheel") ].

(** X1: [fix-names.py], [process_file] on a file the scan can return,
    whatever its outcome.  The tree stays well formed; every entry outside
    the backup tree that is neither at or below the file nor at or below
    its new name is unchanged; every entry of the backup tree is still
    there, unchanged. *)
Theorem fix_names_process_file_confined (p : path) (s s' : fs) (ok : bool) :
  wf s →
  in_parents FixNames.ASSETS_DIR p = true → in_parents FixNames.BACKUP_DIR p = false →
  optimized_name (name p) →
  FixNames.process_file p false s = (Ok ok, s') →
  wf s' ∧
  (∀ q, ¬ FixNames.BACKUP_DIR `prefix_of` q →
        ¬ p `prefix_of` q → ¬ FixNames.get_original_name p `prefix_of` q →
        s' !! q = s !! q) ∧
  (∀ b x, FixNames.BACKUP_DIR `prefix_of` b → s !! b = Some x → s' !! b = Some x).
Proof.
  intros Hwf Hin Hb Hn Hrun.
  destruct (fix_names_process_file_effect p s s' ok Hwf) as (Hwf' & Hq & Hbk); try done.
  split; [done|]. split; [|done].
  intros q H1 H2 H3. apply Hq; [done|]. by repeat constructor.
Qed.

Lemma fix_names_process_file_confined_witness :
  let s' := snd (FixNames.process_file ["public"; "assets"; "car-optimized.glb"] false fs_garage) in
  wf s' ∧
  s' !! ["public"; "assets"; "wheel.glb"] = Some (File "wheel") ∧
  s' !! ["public"; "assets"; "readme.txt"] = Some (File "note") ∧
  s' !! ["public"; "assets"; "originals"; "wheel.glb"] = Some (File "first wheel").
Proof.
  cbv zeta.
  destruct (FixNames.process_file ["public"; "assets"; "car-optimized.glb"] false fs_garage)
    as [r s'] eqn:Hrun.
  assert (r = Ok true) as ->.
  { change r with (fst (r, s')). rewrite <- Hrun. vm_compute. reflexivity. }
  assert (wf fs_garage) as Hwf by (apply wfb_wf; vm_compute; reflexivity).
  assert (optimized_name (name ["public"; "assets"; "car-optimized.glb"])) as Hn
    by (left; vm_compute; reflexivity).
  assert (in_parents FixNames.ASSETS_DIR ["public"; "assets"; "car-optimized.glb"] = true) as Hin
    by (vm_compute; reflexivity).
  assert (in_parents FixNames.BACKUP_DIR ["public"; "assets"; "car-optimized.glb"] = false) as Hb
    by (vm_compute; reflexivity).
  destruct (fix_names_process_file_confined _ _ _ _ Hwf Hin Hb Hn Hrun) as (Hwf' & Hq & Hbk).
  cbn [snd]. split; [exact Hwf'|]. split_and!.
  - rewrite Hq; [vm_compute; reflexivity|by intros [k [=]]..].
  - rewrite Hq; [vm_compute; reflexivity|by intros [k [=]]..].
  - apply Hbk; [by exists ["wheel.glb"]|vm_compute; reflexivity].
Defined.

(** X2: a whole run of [fix-names.py], whatever the answer at the prompt
    and whatever happens to each file.  The tree stays well formed; an
    entry outside the backup tree changes only if it lies at or below a
    discovered file or the new name of one; nothing that is in the backup
    tree is removed or overwritten. *)
Theorem fix_names_run_confined (answer : option string) (s : fs) :
  wf s →
  let s' := snd (FixNames.main answer s) in
  wf s' ∧
  (∀ q, ¬ FixNames.BACKUP_DIR `prefix_of` q →
        (∀ p, p ∈ discovered s →
              ¬ p `prefix_of` q ∧ ¬ FixNames.get_original_name p `prefix_of` q) →
        s' !! q = s !! q) ∧
  (∀ b x, FixNames.BACKUP_DIR `prefix_of` b → s !! b = Some x → s' !! b = Some x).
Proof.
  intros Hwf s'. destruct (fix_names_main_effect answer s Hwf) as (Hwf' & Hq & Hbk).
  split; [done|]. split; [|done].
  intros q H1 H2. apply Hq; [done|].
  apply Forall_forall. intros r (p & Hp & Hr)%list_elem_of_In%in_flat_map.
  apply list_elem_of_In, H2 in Hp as [? ?].
  destruct Hr as [<-|[<-|[]]]; done.
Qed.

Lemma fix_names_run_confined_witness :
  let s' := snd (FixNames.main (Some "s") fs_garage) in
  wf s' ∧
  s' !! ["public"; "assets"; "wheel.glb"] = Some (File "wheel") ∧
  s' !! ["public"; "assets"; "readme.txt"] = Some (File "note") ∧
  s' !! ["public"; "assets"; "originals"; "wheel.glb"] = Some (File "first wheel").
Proof.
  assert (wf fs_garage) as Hwf by (apply wfb_wf; vm_compute; reflexivity).
  destruct (fix_names_run_confined (Some "s") fs_garage Hwf) as (Hwf' & Hq & Hbk).
  assert (discovered fs_garage = [["public"; "assets"; "car-optimized.glb"]]) as Hd
    by (vm_compute; reflexivity).
  rewrite Hd in Hq.
  cbv zeta. split; [exact Hwf'|]. split_and!.
  - rewrite Hq; [vm_compute; reflexivity|by intros [k [=]]|].
    intros p ->%list_elem_of_singleton. split; by intros [k [=]].
  - rewrite Hq; [vm_compute; reflexivity|by intros [k [=]]|].
    intros p ->%list_elem_of_singleton. split; by intros [k [=]].
  - apply Hbk; [by exists ["wheel.glb"]|vm_compute; reflexivity].
Defined.

(** X3: [optimize-assets.py], [process_file] on a path the scan can
    return, whatever its outcome, an uncaught exception included.  The
    tree stays well formed; outside the backup tree only the file and its
    temporary sibling (and what is below them) can change; every entry of
    the backup tree is still there, unchanged. *)
Theorem optimize_process_file_confined (E : env) (file_path : path) (s s' : fs)
    (r : result (bool * nat * nat)) :
  wf s →
  in_parents OptimizeAssets.ASSETS_DIR file_path = true →
  in_parents OptimizeAssets.BACKUP_DIR file_path = false →
  model_name (name file_path) →
  OptimizeAssets.process_file E file_path s = (r, s') →
  wf s' ∧
  (∀ q, ¬ OptimizeAssets.BACKUP_DIR `prefix_of` q →
        ¬ file_path `prefix_of` q → ¬ OptimizeAssets.temp_path_of file_path `prefix_of` q →
        s' !! q = s !! q) ∧
  (∀ b x, OptimizeAssets.BACKUP_DIR `prefix_of` b → s !! b = Some x → s' !! b = Some x).
Proof.
  intros Hwf Hin Hb Hm Hrun.
  destruct (model_name_entry _ Hm) as [Hentry Hno].
  pose proof (not_backup_prefix file_path Hb Hno) as Hnb.
  destruct (optimize_process_file_effect E file_path s s' r Hwf Hin Hnb Hentry Hrun)
    as (Hwf' & Hq & Hbk).
  split; [done|]. split; [|done].
  intros q H1 H2 H3. apply Hq; [done|]. by repeat constructor.
Qed.

Lemma optimize_process_file_confined_witness :
  let s' := snd (OptimizeAssets.process_file env_ok ["public"; "assets"; "wheel.glb"] fs_garage) in
  wf s' ∧
  s' !! ["public"; "assets"; "car.glb"] = Some (File "old car") ∧
  s' !! ["public"; "assets"; "readme.txt"] = Some (File "note") ∧
  s' !! ["public"; "assets"; "originals"; "wheel.glb"] = Some (File "first wheel").
Proof.
  cbv zeta.
  destruct (OptimizeAssets.process_file env_ok ["public"; "assets"; "wheel.glb"] fs_garage)
    as [r s'] eqn:Hrun.
  assert (wf fs_garage) as Hwf by (apply wfb_wf; vm_compute; reflexivity).
  assert (model_name (name ["public"; "assets"; "wheel.glb"])) as Hn
    by (left; vm_compute; reflexivity).
  assert (in_parents OptimizeAssets.ASSETS_DIR ["public"; "assets"; "wheel.glb"] = true) as Hin
    by (vm_compute; reflexivity).
  assert (in_parents OptimizeAssets.BACKUP_DIR ["public"; "assets"; "wheel.glb"] = false) as Hb
    by (vm_compute; reflexivity).
  destruct (optimize_process_file_confined _ _ _ _ _ Hwf Hin Hb Hn Hrun) as (Hwf' & Hq & Hbk).
  cbn [snd]. split; [exact Hwf'|]. split_and!.
  - rewrite Hq; [vm_compute; reflexivity|by intros [k [=]]..].
  - rewrite Hq; [vm_compute; reflexivity|by intros [k [=]]..].
  - apply Hbk; [by exists ["wheel.glb"]|vm_compute; reflexivity].
Defined.

(** X4: a whole run of [optimize-assets.py], however it ends (summary,
    [sys.exit] or uncaught exception).  The tree stays well formed; an
    entry outside the backup tree changes only if it lies at or below a
    discovered path or its temporary sibling; nothing that is in the
    backup tree is removed or overwritten. *)
Theorem optimize_run_confined (E : env) (s : fs) :
  wf s →
  let s' := snd (OptimizeAssets.main E s) in
  wf s' ∧
  (∀ q, ¬ OptimizeAssets.BACKUP_DIR `prefix_of` q →
        (∀ p, p ∈ to_process s →
              ¬ p `prefix_of` q ∧ ¬ OptimizeAssets.temp_path_of p `prefix_of` q) →
        s' !! q = s !! q) ∧
  (∀ b x, OptimizeAssets.BACKUP_DIR `prefix_of` b → s !! b = Some x → s' !! b = Some x).
Proof.
  intros Hwf s'. destruct (optimize_main_effect E s Hwf) as (Hwf' & Hq & Hbk).
  split; [done|]. split; [|done].
  intros q H1 H2. apply Hq; [done|].
  apply Forall_forall. intros r (p & Hp & Hr)%list_elem_of_In%in_flat_map.
  apply list_elem_of_In, H2 in Hp as [? ?].
  destruct Hr as [<-|[<-|[]]]; done.
Qed.

Lemma optimize_run_confined_witness :
  let s' := snd (OptimizeAssets.main env_ok fs_garage) in
  wf s' ∧
  s' !! ["public"; "assets"; "readme.txt"] = Some (File "note") ∧
  s' !! ["public"; "assets"; "originals"; "wheel.glb"] = Some (File "first wheel").
Proof.
  assert (wf fs_garage) as Hwf by (apply wfb_wf; vm_compute; reflexivity).
  destruct (optimize_run_confined env_ok fs_garage Hwf) as (Hwf' & Hq & Hbk).
  assert (to_process fs_garage =
          [["public"; "assets"; "car-optimized.glb"]; ["public"; "assets"; "car.glb"];
           ["public"; "assets"; "wheel.glb"]]) as Hd by (vm_compute; reflexivity).
  rewrite Hd in Hq.
  cbv zeta. split; [exact Hwf'|]. split.
  - rewrite Hq; [vm_compute; reflexivity|by intros [k [=]]|].
    intros p Hp. rewrite !elem_of_cons, elem_of_nil in Hp.
    destruct Hp as [->|[->|[->|[]]]]; split; by intros [k [=]].
  - apply Hbk; [by exists ["wheel.glb"]|vm_compute; reflexivity].
Defined.

(** ** How the runs end *)

(** [Path.mkdir(exist_ok=True)] without [parents]: one [os.mkdir], and
    an error is forgiven when the directory is there. *)
Lemma Path_mkdir_flat (p : path) (s s' : fs) (r : result ()) :
  Path_mkdir false true p s = (r, s') →
  (r = Ok () ∧ s !! p = None ∧ stat s (parent p) = Some (Dir true) ∧ s' = <[p := Dir true]> s) ∨
  (r = Ok () ∧ is_dir s p = true ∧ s' = s) ∨
  (∃ e, r = Raise e ∧ is_dir s p = false ∧ s' = s ∧ os_mkdir p s = (Raise e, s)).
Proof.
  unfold Path_mkdir. rewrite Path_mkdir_fuel_unfold. cbn [negb orb].
  intros [([] & Hm & ->)|(e & s1 & Hm & Hh)]%try_except_inv.
  - apply os_mkdir_inv in Hm as [(_ & _ & ? & ? & ->)|(e & [=] & _)]. by left.
  - pose proof Hm as Hm'.
    apply os_mkdir_inv in Hm as [([=] & _)|(e' & [= <-] & -> & _)].
    right. destruct e; try (unfold bind, get in Hh; destruct (is_dir s p) eqn:Hd;
      injection Hh as <- <-; [by left|right; by eauto]).
    injection Hh as <- <-. right. eexists. split_and!; try done.
    unfold os_mkdir in Hm'. unfold is_dir.
    destruct (stat s p); [done|]. done.
Qed.

(** The recursion of [Path.mkdir(parents=True)] climbs at most as many
    levels as the path has components: the fuel [Path_mkdir] gives it is
    never used up. *)
Lemma os_mkdir_exn (p : path) (s s' : fs) (e : exn) :
  os_mkdir p s = (Raise e, s') → e ≠ RecursionError.
Proof.
  unfold os_mkdir.
  destruct (stat s p); [by intros [= <- _]|].
  destruct (stat s (parent p)) as [[c|[|]]|]; by intros [= <- _].
Qed.

Lemma Path_mkdir_fuel_enough (fuel : nat) (parents exist_ok : bool) (p : path)
    (s s' : fs) (r : result ()) :
  (length p ≤ fuel)%nat →
  Path_mkdir_fuel fuel parents exist_ok p s = (r, s') → r ≠ Raise RecursionError.
Proof.
  revert parents exist_ok p s s' r.
  induction fuel as [|k IH]; intros parents exist_ok p s s' r Hlen;
    rewrite Path_mkdir_fuel_unfold;
    intros [([] & _ & ->)|(e & s1 & Hm & Hh)]%try_except_inv; try done;
    pose proof (os_mkdir_exn _ _ _ _ Hm) as He.
  - destruct p; [|simpl in Hlen; lia].
    destruct e; try done;
      try (unfold bind, get in Hh; destruct (negb exist_ok || negb (is_dir s1 [])); by injection Hh as <- _).
    all: try (rewrite bool_decide_eq_true_2, orb_true_r in Hh by done; by injection Hh as <- _).
  - destruct e; try done;
      try (unfold bind, get in Hh; destruct (negb exist_ok || negb (is_dir s1 p)); by injection Hh as <- _).
    destruct (negb parents || bool_decide (parent p = p)) eqn:Hb; [by injection Hh as <- _|].
    apply orb_false_iff in Hb as [_ Hpp%bool_decide_eq_false].
    assert (length (parent p) ≤ k)%nat as Hlen'.
    { destruct (decide (p = [])) as [->|Hne]; [done|].
      rewrite (path_snoc p Hne), length_app in Hlen. simpl in Hlen. lia. }
    apply bind_inv in Hh as [([] & s2 & Hrec & Hh)|(e & Hrec & ->)].
    + apply try_except_inv in Hh as [([] & _ & ->)|(e & s3 & Hm2 & Hh)]; [done|].
      pose proof (os_mkdir_exn _ _ _ _ Hm2) as He2.
      destruct e; try done;
        try (unfold bind, get in Hh; destruct (negb exist_ok || negb (is_dir s3 p));
             by injection Hh as <- _).
      all: try (by injection Hh as <- _).
    + by apply (IH _ _ _ _ _ _ Hlen' Hrec).
Qed.

Lemma Path_mkdir_no_recursion_error (parents exist_ok : bool) (p : path) (s s' : fs)
    (r : result ()) :
  Path_mkdir parents exist_ok p s = (r, s') → r ≠ Raise RecursionError.
Proof. by apply Path_mkdir_fuel_enough. Qed.


(** *** optimize-assets.py: an empty original *)

Definition fs_empty_model : fs :=
  list_to_map
    [ (["public"], Dir true);
      (["public"; "assets"], Dir true);
      (["public"; "assets"; "blank.glb"], File "");
      (["public"; "assets"; "kart.glb"], File "kart") ].

(** X6: [optimize_file] divides by the size of the original.  When the
    original is an empty file and the optimizer reports success and
    leaves an output, [optimize_file] raises [ZeroDivisionError];
    [process_file] and the loop of [main] do not catch it, so the run
    ends there: the files after it are not processed, the original is
    untouched and the output stays at the temporary path. *)
Theorem optimize_empty_original_raises (E : env) (file_path : path) (rest : list path)
    (acc : OptimizeAssets.summary) (s : fs) :
  let temp := OptimizeAssets.temp_path_of file_path in
  let st := snd (OptimizeAssets.run_optimizer E file_path temp s) in
  stat s file_path = Some (File "") →
  exit_ok (optimizer E file_path temp s) = true →
  exists_ st temp = true →
  OptimizeAssets.optimize_file E file_path temp s = (Raise ZeroDivisionError, st) ∧
  OptimizeAssets.process_file E file_path s = (Raise ZeroDivisionError, st) ∧
  OptimizeAssets.execute E (file_path :: rest) acc s = (Raise ZeroDivisionError, st) ∧
  st !! file_path = Some (File "") ∧ is_Some (st !! temp).
Proof.
  intros temp st Hfile Hok Hex.
  assert (file_path ≠ []) as Hne by (by intros ->).
  rewrite stat_lookup in Hfile by done.
  assert (st !! file_path = Some (File "")) as Hst.
  { unfold st. rewrite run_optimizer_frame; [done|]. apply not_eq_sym, temp_path_fresh. }
  assert (OptimizeAssets.optimize_file E file_path temp s = (Raise ZeroDivisionError, st)) as Hopt.
  { unfold OptimizeAssets.optimize_file.
    rewrite (bind_ok _ _ s (exit_ok (optimizer E file_path temp s)) st) by done.
    unfold bind at 1, get at 1. rewrite Hok, Hex. cbn [andb].
    unfold bind at 1, OptimizeAssets.st_size at 1. rewrite stat_lookup, Hst by done.
    cbn [String.length].
    unfold bind at 1, OptimizeAssets.st_size at 1.
    apply bool_decide_eq_true in Hex as [x Hx]. rewrite Hx. by destruct x. }
  assert (OptimizeAssets.process_file E file_path s = (Raise ZeroDivisionError, st)) as Hproc.
  { unfold OptimizeAssets.process_file. fold temp. by rewrite (bind_raise _ _ _ _ _ Hopt). }
  split_and!; try done.
  - cbn [OptimizeAssets.execute]. by rewrite (bind_raise _ _ _ _ _ Hproc).
  - apply bool_decide_eq_true in Hex. rewrite stat_lookup in Hex; [done|].
    apply temp_path_nonempty.
Qed.

Lemma optimize_empty_original_raises_witness :
  let r := OptimizeAssets.main env_ok fs_empty_model in
  fst r = Raise ZeroDivisionError ∧
  snd r !! ["public"; "assets"; "blank.glb"] = Some (File "") ∧
  snd r !! ["public"; "assets"; "blank-temp-optimized.glb"] = Some (File "opt") ∧
  snd r !! ["public"; "assets"; "kart.glb"] = Some (File "kart") ∧
  fst (OptimizeAssets.execute env_ok
         [["public"; "assets"; "blank.glb"]; ["public"; "assets"; "kart.glb"]]
         (OptimizeAssets.Summary 0 [] 0 0) fs_empty_model) = Raise ZeroDivisionError.
Proof.
  assert (stat fs_empty_model ["public"; "assets"; "blank.glb"] = Some (File "")) as Hfile
    by (vm_compute; reflexivity).
  destruct (optimize_empty_original_raises env_ok ["public"; "assets"; "blank.glb"]
              [["public"; "assets"; "kart.glb"]] (OptimizeAssets.Summary 0 [] 0 0)
              fs_empty_model Hfile) as (_ & _ & Hex & _);
    [vm_compute; reflexivity..|].
  cbv zeta. split_and!; [vm_compute; reflexivity..|by rewrite Hex].
Defined.

(** *** optimize-assets.py: exits and summary *)

(** The scan of [optimize-assets.py] runs after [originals] has been
    created; that makes no difference to what it finds. *)
Lemma to_process_after_mkdir (s s0 : fs) :
  Path_mkdir false true OptimizeAssets.BACKUP_DIR s = (Ok (), s0) →
  to_process s0 = to_process s.
Proof.
  intros [(_ & Hnone & _ & ->)|[(_ & _ & ->)|(e & [=] & _)]]%Path_mkdir_flat; [|done].
  destruct (to_process_spec s) as (Hs & Hn & Hm).
  destruct (to_process_spec (<[OptimizeAssets.BACKUP_DIR := Dir true]> s)) as (Hs' & Hn' & Hm').
  apply (StronglySorted_unique path_le); [done..|].
  apply NoDup_Permutation; [done..|].
  intros p. rewrite Hm, Hm'.
  assert (is_dir (<[OptimizeAssets.BACKUP_DIR := Dir true]> s) OptimizeAssets.ASSETS_DIR
          = is_dir s OptimizeAssets.ASSETS_DIR) as ->.
  { unfold is_dir. rewrite !stat_lookup by done. by rewrite lookup_insert_ne. }
  split; intros (H1 & H2 & H3 & H4 & H5); split_and!; try done.
  - rewrite lookup_insert_ne in H2; [done|]. intros <-.
    by destruct (model_name_entry _ H5) as [_ ?].
  - rewrite lookup_insert_ne; [done|]. intros <-.
    by destruct (model_name_entry _ H5) as [_ ?].
Qed.

(** [process_file] reports a success with the size of a non-empty
    original, and a failure with two zeros. *)
Lemma optimize_process_file_result (E : env) (file_path : path) (s s' : fs)
    (ok : bool) (o n : nat) :
  OptimizeAssets.process_file E file_path s = (Ok (ok, o, n), s') →
  if ok then o ≠ 0 else o = 0 ∧ n = 0.
Proof.
  unfold OptimizeAssets.process_file.
  intros ([[success o'] n'] & s1 & Hopt & Hrun)%bind_inv_ok.
  apply optimize_file_inv in Hopt as [_ Hres].
  destruct success; cbn [negb] in Hrun.
  - apply bind_inv_ok in Hrun as (bk & s2 & _ & Hrun).
    unfold bind at 1, get at 1 in Hrun.
    apply bind_inv_ok in Hrun as ([] & s3 & _ & Hrun).
    apply bind_inv_ok in Hrun as ([] & s4 & _ & [= <- <- <- _]).
    by destruct Hres.
  - unfold bind at 1, get at 1 in Hrun.
    by apply bind_inv_ok in Hrun as ([] & s2 & _ & [= <- <- <- _]).
Qed.

Lemma optimize_execute_summary (E : env) (files : list path)
    (acc r : OptimizeAssets.summary) (s s' : fs) :
  OptimizeAssets.execute E files acc s = (Ok r, s') →
  OptimizeAssets.success_count r + length (OptimizeAssets.failed_files r) =
    OptimizeAssets.success_count acc + length (OptimizeAssets.failed_files acc) + length files ∧
  (∃ more, OptimizeAssets.failed_files r = OptimizeAssets.failed_files acc ++ more ∧
           more `sublist_of`
             map (λ p, OptimizeAssets.get_relative_path p OptimizeAssets.ASSETS_DIR) files) ∧
  (OptimizeAssets.success_count acc ≤ OptimizeAssets.success_count r)%nat ∧
  (OptimizeAssets.total_original acc
     + (OptimizeAssets.success_count r - OptimizeAssets.success_count acc)
   ≤ OptimizeAssets.total_original r)%nat ∧
  (OptimizeAssets.success_count r = OptimizeAssets.success_count acc →
   OptimizeAssets.total_original r = OptimizeAssets.total_original acc ∧
   OptimizeAssets.total_optimized r = OptimizeAssets.total_optimized acc).
Proof.
  revert acc s. induction files as [|p files IH]; intros acc s.
  - intros [= <- <-]. split_and!; try lia; try done.
    exists []. by rewrite app_nil_r.
  - cbn [OptimizeAssets.execute].
    intros ([[ok o] n] & s1 & Hfile & Hrest)%bind_inv_ok.
    apply optimize_process_file_result in Hfile.
    apply IH in Hrest as (H1 & (more & H2 & H2') & H3 & H4 & H5).
    destruct ok; cbn in *.
    + split_and!; try lia.
      exists more. split; [done|]. by apply sublist_cons.
    + destruct Hfile as [-> ->]. rewrite length_app in H1. cbn in *.
      split_and!; try lia.
      eexists (_ :: more). rewrite H2, <- app_assoc. split; [done|]. by apply sublist_skip.
Qed.

(** X7: the two ways [optimize-assets.py] ends by [sys.exit].  Status 1
    means that the assets root is missing (nothing has been touched) or
    that the optimizer is neither installed nor installable; status 0
    that there is no model to process.  Except when the assets root is
    missing, [originals] exists by then: [main] creates it before it
    looks for the tool or for files, and that is the only change. *)
Theorem optimize_main_exits (E : env) (s s' : fs) (code : nat) :
  OptimizeAssets.main E s = (Ok (Exit code), s') →
  code = 1 ∧ exists_ s OptimizeAssets.ASSETS_DIR = false ∧ s' = s ∨
  exists_ s OptimizeAssets.ASSETS_DIR = true ∧
  is_dir s' OptimizeAssets.BACKUP_DIR = true ∧
  (s' = s ∨ s !! OptimizeAssets.BACKUP_DIR = None ∧
            s' = <[OptimizeAssets.BACKUP_DIR := Dir true]> s) ∧
  (code = 1 ∧ version_check_ok E = false ∧ install_ok E = false ∨
   code = 0 ∧ (version_check_ok E = true ∨ install_ok E = true) ∧ to_process s = []).
Proof.
  unfold OptimizeAssets.main. unfold bind at 1, get at 1.
  destruct (exists_ s OptimizeAssets.ASSETS_DIR) eqn:Hroot; cbn [negb];
    [|intros [= <- <-]; by left].
  intros ([] & s0 & Hmk & Hmain)%bind_inv_ok. right.
  pose proof (to_process_after_mkdir _ _ Hmk) as Hsame.
  assert (is_dir s0 OptimizeAssets.BACKUP_DIR = true ∧
          (s0 = s ∨ s !! OptimizeAssets.BACKUP_DIR = None ∧
                    s0 = <[OptimizeAssets.BACKUP_DIR := Dir true]> s)) as [Hd Hs0].
  { apply Path_mkdir_flat in Hmk as [(_ & Hnone & _ & ->)|[(_ & Hd & ->)|(e & [=] & _)]].
    - split; [|by right]. apply is_dir_lookup. right. exists true. by rewrite lookup_insert_eq.
    - split; [done|by left]. }
  destruct (version_check_ok E), (install_ok E); cbn [negb andb] in Hmain;
    try (injection Hmain as <- <-; split_and!; try done; left; by split_and!).
  all: unfold bind at 1 in Hmain; unfold to_process in Hsame at 1;
    destruct (OptimizeAssets.find_files_to_process s0) as [rl s1] eqn:Hfind;
    unfold OptimizeAssets.find_files_to_process, get in Hfind; injection Hfind as <- <-;
    cbn [fst] in Hsame; rewrite Hsame in Hmain;
    destruct (to_process s) as [|p l];
    [injection Hmain as <- <-; split_and!; try done; right; split_and!; auto
    |by apply bind_inv_ok in Hmain as (r' & s2 & _ & [=])].
Qed.

Lemma optimize_main_exits_witness :
  let r := OptimizeAssets.main env_ok fs_empty_assets in
  fst r = Ok (Exit 0) ∧ is_dir (snd r) OptimizeAssets.BACKUP_DIR = true ∧
  to_process fs_empty_assets = [].
Proof.
  cbv zeta.
  destruct (OptimizeAssets.main env_ok fs_empty_assets) as [r s'] eqn:Hrun.
  assert (r = Ok (Exit 0)) as ->.
  { change r with (fst (r, s')). rewrite <- Hrun. vm_compute. reflexivity. }
  destruct (optimize_main_exits _ _ _ _ Hrun)
    as [(H & _)|(_ & Hd & _ & [(H & _)|(_ & _ & Hnone)])];
    [discriminate H|discriminate H|].
  cbn [fst snd]. split; [reflexivity|]. split; [exact Hd|exact Hnone].
Defined.

(** X8: the summary of [optimize-assets.py].  A run that reaches it
    found at least one model and counts each discovered path once, as a
    success or as a failure; the failures it lists are relative paths of
    discovered entries, in the order of the scan; every success adds the
    size of a non-empty original, so the total is positive exactly when
    something succeeded, which is when the script prints its savings. *)
Theorem optimize_summary_invariant (E : env) (s s' : fs) (r : OptimizeAssets.summary) :
  OptimizeAssets.main E s = (Ok (Finished r), s') →
  to_process s ≠ [] ∧
  OptimizeAssets.success_count r + length (OptimizeAssets.failed_files r)
    = length (to_process s) ∧
  OptimizeAssets.failed_files r `sublist_of`
    map (λ p, OptimizeAssets.get_relative_path p OptimizeAssets.ASSETS_DIR) (to_process s) ∧
  (OptimizeAssets.success_count r ≤ OptimizeAssets.total_original r)%nat ∧
  (OptimizeAssets.success_count r = 0 →
   OptimizeAssets.total_original r = 0 ∧ OptimizeAssets.total_optimized r = 0).
Proof.
  unfold OptimizeAssets.main. unfold bind at 1, get at 1.
  destruct (exists_ s OptimizeAssets.ASSETS_DIR) eqn:Hroot; cbn [negb]; [|done].
  intros ([] & s0 & Hmk & Hmain)%bind_inv_ok.
  pose proof (to_process_after_mkdir _ _ Hmk) as Hsame.
  destruct (negb (version_check_ok E) && negb (install_ok E)); [done|].
  unfold bind at 1 in Hmain. unfold to_process in Hsame at 1.
  destruct (OptimizeAssets.find_files_to_process s0) as [rl s1] eqn:Hfind.
  unfold OptimizeAssets.find_files_to_process, get in Hfind. injection Hfind as <- <-.
  cbn [fst] in Hsame. rewrite Hsame in Hmain.
  destruct (to_process s) as [|p l]; [done|].
  apply bind_inv_ok in Hmain as (r' & s2 & Hex & [= <- <-]).
  apply optimize_execute_summary in Hex as (H1 & (more & H2 & H2') & H3 & H4 & H5).
  cbn in *. subst more. split_and!; try done; lia.
Qed.

Lemma optimize_summary_invariant_witness :
  let r := OptimizeAssets.main env_ok fs_garage in
  fst r = Ok (Finished (OptimizeAssets.Summary 3 [] 19 9)) ∧
  length (to_process fs_garage) = 3.
Proof.
  cbv zeta.
  destruct (OptimizeAssets.main env_ok fs_garage) as [r s'] eqn:Hrun.
  assert (r = Ok (Finished (OptimizeAssets.Summary 3 [] 19 9))) as ->.
  { change r with (fst (r, s')). rewrite <- Hrun. vm_compute. reflexivity. }
  destruct (optimize_summary_invariant _ _ _ _ Hrun) as (_ & Hcount & _).
  cbn [fst]. split; [reflexivity|]. rewrite <- Hcount. reflexivity.
Defined.

(** ** Running a listing script twice *)

(** Two sorted lists without repetition that hold the same names are the
    same list. *)
Lemma sorted_names_unique (l1 l2 : list string) :
  NoDup l1 → NoDup l2 → (∀ x, x ∈ l1 ↔ x ∈ l2) →
  merge_sort str_le l1 = merge_sort str_le l2.
Proof.
  intros H1 H2 Hm.
  apply (StronglySorted_unique str_le);
    [apply StronglySorted_merge_sort; apply _..|].
  rewrite !merge_sort_Permutation. by apply NoDup_Permutation.
Qed.

Lemma elem_of_listdir_insert (d out : path) (x : node) (s : fs) (n : string) :
  n ∈ listdir d (<[out := x]> s) ↔ n ∈ listdir d s ∨ d ++ [n] = out.
Proof.
  rewrite !elem_of_listdir. destruct (decide (d ++ [n] = out)) as [<-|Hne].
  - rewrite lookup_insert_eq. split; eauto.
  - rewrite lookup_insert_ne by done. split; [by left|]. by intros [|].
Qed.

(** X9: [get-names-from-glb.py] is idempotent.  Its output file
    [modelos.json] is not a [.glb] name, so it never lists itself: a
    second run right after a successful one finds the same names, writes
    the same bytes and leaves the tree as the first run left it. *)
Theorem glb_listing_idempotent (pasta : path) (s s' : fs) (n : nat) :
  GetNamesFromGlb.main pasta s = (Ok n, s') →
  GetNamesFromGlb.main pasta s' = (Ok n, s') ∧
  names_of (GetNamesFromGlb.listar_glb pasta) s' = names_of (GetNamesFromGlb.listar_glb pasta) s.
Proof.
  intros Hrun.
  destruct (listing_written (GetNamesFromGlb.listar_glb pasta) ["modelos.json"] s s' n)
    as [-> Hs']; [intros s0; by eexists|exact Hrun|].
  set (l := names_of (GetNamesFromGlb.listar_glb pasta) s) in *.
  assert (names_of (GetNamesFromGlb.listar_glb pasta) s' = l) as Hsame.
  { unfold l, names_of, GetNamesFromGlb.listar_glb, get. cbn [fst].
    apply sorted_names_unique; [apply NoDup_filter, NoDup_listdir..|].
    intros x. rewrite !list_elem_of_filter, Hs', elem_of_listdir_insert.
    split; [|by intuition]. intros [Hx [?|Hout]]; [done|].
    destruct pasta as [|? [|]]; try done. injection Hout as ->. by vm_compute in Hx. }
  split; [|done].
  unfold GetNamesFromGlb.main.
  assert (GetNamesFromGlb.listar_glb pasta s' = (Ok l, s')) as Hl.
  { rewrite <- Hsame. reflexivity. }
  rewrite (bind_ok _ _ _ _ _ Hl).
  assert (write_file ["modelos.json"] (Json.dump l 2) s' = (Ok (), s')) as Hw.
  { unfold write_file. cbn [stat]. rewrite Hs' at 1. rewrite lookup_insert_eq.
    f_equal. rewrite Hs'. apply insert_insert_eq. }
  by rewrite (bind_ok _ _ _ _ _ Hw).
Qed.

Lemma glb_listing_idempotent_witness :
  let s' := snd (GetNamesFromGlb.main ["models"] fs_models) in
  fst (GetNamesFromGlb.main ["models"] fs_models) = Ok 3 ∧
  GetNamesFromGlb.main ["models"] s' = (Ok 3, s').
Proof.
  cbv zeta.
  destruct (GetNamesFromGlb.main ["models"] fs_models) as [r s'] eqn:Hrun.
  assert (r = Ok 3) as ->.
  { change r with (fst (r, s')). rewrite <- Hrun. vm_compute. reflexivity. }
  cbn [fst snd]. split; [reflexivity|].
  exact (proj1 (glb_listing_idempotent _ _ _ _ Hrun)).
Defined.

(** X10: [get-names-files.py] run twice.  The listing is taken before the
    output is written, so the first run never lists a file it creates;
    the second run finds one more name, [arquivos.json], exactly when the
    directory listed is [automations] itself and the file was not there
    before.  In every other case the second run repeats the first. *)
Theorem files_listing_second_run (pasta : path) (s s' : fs) (n : nat) :
  GetNamesFiles.main pasta s = (Ok n, s') →
  let first := names_of (GetNamesFiles.listar_arquivos pasta) s in
  let second := names_of (GetNamesFiles.listar_arquivos pasta) s' in
  (∀ x, x ∈ second ↔ x ∈ first ∨ pasta = ["automations"] ∧ x = "arquivos.json") ∧
  GetNamesFiles.main pasta s' =
    (Ok (length second), <[["automations"; "arquivos.json"] := File (Json.dump second 2)]> s') ∧
  (pasta ≠ ["automations"] ∨ "arquivos.json" ∈ first →
   second = first ∧ GetNamesFiles.main pasta s' = (Ok n, s')).
Proof.
  intros Hrun first second.
  destruct (listing_written (GetNamesFiles.listar_arquivos pasta)
              ["automations"; "arquivos.json"] s s' n)
    as [-> Hs']; [intros s0; by eexists|exact Hrun|]. fold first in Hs'.
  assert (∀ x, x ∈ first ↔ is_file s (pasta ++ [x]) = true) as Hfirst.
  { intros x. unfold first, names_of, GetNamesFiles.listar_arquivos, get. cbn [fst].
    rewrite merge_sort_Permutation, list_elem_of_filter, elem_of_listdir.
    split; [by intros [? _]|]. intros H. split; [done|].
    unfold is_file in H. rewrite stat_lookup in H by (by destruct pasta).
    destruct (s !! (pasta ++ [x])); [eauto|done]. }
  assert (∀ x, x ∈ second ↔ is_file s' (pasta ++ [x]) = true) as Hsecond.
  { intros x. unfold second, names_of, GetNamesFiles.listar_arquivos, get. cbn [fst].
    rewrite merge_sort_Permutation, list_elem_of_filter, elem_of_listdir.
    split; [by intros [? _]|]. intros H. split; [done|].
    unfold is_file in H. rewrite stat_lookup in H by (by destruct pasta).
    destruct (s' !! (pasta ++ [x])); [eauto|done]. }
  assert (∀ x, x ∈ second ↔ x ∈ first ∨ pasta = ["automations"] ∧ x = "arquivos.json") as Hm.
  { intros x. rewrite Hsecond, Hfirst. unfold is_file.
    rewrite !stat_lookup by (by destruct pasta). rewrite Hs'.
    destruct (decide (pasta ++ [x] = ["automations"; "arquivos.json"])) as [Heq|Hne].
    - rewrite Heq, lookup_insert_eq. split; [intros _; right|done].
      destruct pasta as [|? [|? [|]]]; try done; by injection Heq as -> ->.
    - rewrite lookup_insert_ne by done. split; [by left|]. intros [?|[-> ->]]; done. }
  assert (GetNamesFiles.main pasta s' =
          (Ok (length second),
           <[["automations"; "arquivos.json"] := File (Json.dump second 2)]> s')) as Hmain2.
  { unfold GetNamesFiles.main.
    rewrite (bind_ok _ _ s' second s') by reflexivity.
    assert (write_file ["automations"; "arquivos.json"] (Json.dump second 2) s' =
            (Ok (), <[["automations"; "arquivos.json"] := File (Json.dump second 2)]> s')) as Hw.
    { unfold write_file. cbn [stat]. rewrite Hs' at 1. by rewrite lookup_insert_eq. }
    by rewrite (bind_ok _ _ _ _ _ Hw). }
  split; [done|]. split; [done|].
  intros Hcase.
  assert (second = first) as Heq.
  { unfold second, first, names_of, GetNamesFiles.listar_arquivos, get. cbn [fst].
    apply sorted_names_unique; [apply NoDup_filter, NoDup_listdir..|].
    intros x.
    pose proof (Hm x) as Hx. unfold second, first, names_of, GetNamesFiles.listar_arquivos, get in Hx.
    cbn [fst] in Hx. rewrite !merge_sort_Permutation in Hx. rewrite Hx.
    split; [|by left]. intros [?|[-> ->]]; [done|].
    destruct Hcase as [?|Hin]; [done|].
    unfold first, names_of, GetNamesFiles.listar_arquivos, get in Hin. cbn [fst] in Hin.
    by rewrite merge_sort_Permutation in Hin. }
  split; [done|]. rewrite Hmain2, Heq. f_equal. rewrite Hs'. apply insert_insert_eq.
Qed.

(** The scripts' own directory, listed from the repository root. *)
Definition fs_repo : fs :=
  list_to_map
    [ (["automations"], Dir true);
      (["automations"; "fix-names.py"], File "#!/usr/bin/env python3");
      (["public"], Dir true) ].

Lemma files_listing_second_run_witness :
  let s' := snd (GetNamesFiles.main ["automations"] fs_repo) in
  fst (GetNamesFiles.main ["automations"] fs_repo) = Ok 1 ∧
  "arquivos.json" ∈ names_of (GetNamesFiles.listar_arquivos ["automations"]) s' ∧
  fst (GetNamesFiles.main ["automations"] s') = Ok 2.
Proof.
  cbv zeta.
  destruct (GetNamesFiles.main ["automations"] fs_repo) as [r s'] eqn:Hrun.
  assert (r = Ok 1) as Hr.
  { change r with (fst (r, s')). rewrite <- Hrun. vm_compute. reflexivity. }
  subst r. cbn [fst snd]. split; [reflexivity|].
  destruct (files_listing_second_run _ _ _ _ Hrun) as (Hm & Hmain2 & _).
  split; [apply Hm; right; by split|].
  change s' with (snd (Ok 1 : result nat, s')). rewrite <- Hrun. vm_compute. reflexivity.
Defined.

(** ** Names *)

Lemma str_length (l : list ascii) : String.length (Str.str l) = length l.
Proof. induction l as [|c l IH]; simpl; [done|]. by rewrite IH. Qed.

(** [str.replace(pat, "")] in the middle of a match: the rest of the
    match is dropped. *)
Lemma remove_from_length (pat : list ascii) (k : nat) (l : list ascii) :
  (length (Str.remove_from pat k l) + Nat.min k (length l) ≤ length l)%nat.
Proof.
  revert k. induction l as [|c l IH]; intros k; simpl; [lia|].
  destruct k as [|k].
  - case_bool_decide as Hp.
    + specialize (IH (length pat - 1)). lia.
    + specialize (IH 0). simpl. lia.
  - specialize (IH k). lia.
Qed.

(** Where the pattern occurs, at least one occurrence is dropped. *)
Lemma remove_from_occurrence (pat a b : list ascii) :
  pat ≠ [] →
  (length (Str.remove_from pat 0 (a ++ pat ++ b)) + length pat ≤ length (a ++ pat ++ b))%nat.
Proof.
  intros Hpat. induction a as [|x a IH].
  - destruct pat as [|c pat]; [done|]. simpl.
    rewrite bool_decide_eq_true_2 by (by apply prefix_cons, prefix_app_r).
    pose proof (remove_from_length (c :: pat) (length pat - 0) (pat ++ b)) as Hl.
    rewrite length_app in *. simpl in *. lia.
  - cbn [app Str.remove_from]. case_bool_decide as Hp.
    + pose proof (remove_from_length pat (length pat - 1) (a ++ pat ++ b)) as Hl.
      rewrite !length_app in *. simpl. rewrite !length_app. lia.
    + simpl. lia.
Qed.

(** X11: what [get_original_name] does to a name the scan can return.
    The new path is a sibling of the old one, its name keeps the model
    extension and is at least ten bytes shorter (one [-optimized] at
    least is dropped), so it is never the path itself, and renaming a
    file over and over must come to an end. *)
Theorem get_original_name_shortens (p : path) :
  optimized_name (name p) →
  let dst := FixNames.get_original_name p in
  parent dst = parent p ∧ model_name (name dst) ∧ dst ≠ p ∧
  (String.length (name dst) + 10 ≤ String.length (name p))%nat.
Proof.
  intros Hn dst.
  destruct (get_original_name_shape p Hn) as (ext & Hext & Hsuf & Hdst). fold dst in Hdst.
  destruct (optimized_name_inv _ Hn) as (x & ext' & _ & Hname & Hsplit).
  assert (ext' = ext) as -> by (unfold suffix in Hsuf; by rewrite Hsplit in Hsuf).
  assert (stem p = Str.str (x ++ Str.chars "-optimized")) as Hstem
    by (unfold stem; by rewrite Hsplit).
  assert (String.length (name dst) + 10 ≤ String.length (name p))%nat as Hlen.
  { rewrite Hdst, name_snoc, Hname, !str_length_app, Hstem.
    unfold Str.remove_all. change (Str.chars "-optimized") with (Str.chars "-optimized") at 1.
    cbn [Str.chars list_ascii_of_string]. rewrite Str.chars_str, !str_length.
    pose proof (remove_from_occurrence (Str.chars "-optimized") x [] ltac:(done)) as H.
    rewrite app_nil_r in H. cbn [Str.chars list_ascii_of_string] in H.
    rewrite !length_app in *. simpl in *. lia. }
  split_and!.
  - by rewrite Hdst, parent_snoc.
  - rewrite Hdst, name_snoc. by apply model_name_of_ext.
  - intros E. rewrite E in Hlen. lia.
  - done.
Qed.

Lemma get_original_name_shortens_witness :
  let p := ["public"; "assets"; "x-opti-optimizedmized-optimized.glb"] in
  FixNames.get_original_name p = ["public"; "assets"; "x-optimized.glb"] ∧
  FixNames.get_original_name p ≠ p ∧
  (String.length (name (FixNames.get_original_name p)) + 10 ≤ String.length (name p))%nat.
Proof.
  cbv zeta.
  assert (optimized_name (name ["public"; "assets"; "x-opti-optimizedmized-optimized.glb"]))
    as Hn by (left; vm_compute; reflexivity).
  destruct (get_original_name_shortens _ Hn) as (_ & _ & Hne & Hlen).
  split; [vm_compute; reflexivity|]. split; [exact Hne|exact Hlen].
Defined.

(** X12: the path the two asset scripts print for a file.
    [fix-names.py] tests [ASSETS_DIR in p.parents] and falls back to the
    name; [optimize-assets.py] tries [relative_to] and falls back to the
    name on any exception.  They give the same answer for every path
    except the assets root itself, and for a path below the root the
    answer, joined to the root again, is the path. *)
Theorem display_paths_agree (p : path) :
  (FixNames.rel_display p = OptimizeAssets.get_relative_path p OptimizeAssets.ASSETS_DIR
   ↔ p ≠ FixNames.ASSETS_DIR) ∧
  (in_parents FixNames.ASSETS_DIR p = true →
   FixNames.ASSETS_DIR ++ FixNames.rel_display p = p ∧
   OptimizeAssets.ASSETS_DIR ++ OptimizeAssets.get_relative_path p OptimizeAssets.ASSETS_DIR
     = p) ∧
  (¬ FixNames.ASSETS_DIR `prefix_of` p →
   FixNames.rel_display p = [name p] ∧
   OptimizeAssets.get_relative_path p OptimizeAssets.ASSETS_DIR = [name p]).
Proof.
  unfold FixNames.rel_display, OptimizeAssets.get_relative_path.
  change OptimizeAssets.ASSETS_DIR with FixNames.ASSETS_DIR.
  split_and!.
  - destruct (in_parents FixNames.ASSETS_DIR p) eqn:Hin.
    + apply in_parents_spec in Hin as (t & Ht & ->).
      rewrite (proj2 (relative_to_Some (FixNames.ASSETS_DIR ++ t) FixNames.ASSETS_DIR t) eq_refl),
        drop_app_length.
      split; [|done]. intros _ E. rewrite <- (app_nil_r FixNames.ASSETS_DIR) in E at 2.
      by apply app_inv_head in E.
    + destruct (relative_to p FixNames.ASSETS_DIR) as [t|] eqn:Hr.
      * apply relative_to_Some in Hr as ->. destruct t as [|x t].
        -- rewrite app_nil_r. split; [by vm_compute|done].
        -- assert (in_parents FixNames.ASSETS_DIR (FixNames.ASSETS_DIR ++ x :: t) = true)
             as Hin' by (apply in_parents_spec; exists (x :: t); by split).
           congruence.
      * split; [|done]. intros _ ->. by vm_compute in Hr.
  - intros Hin. rewrite Hin. apply in_parents_spec in Hin as (t & Ht & ->).
    by rewrite (proj2 (relative_to_Some (FixNames.ASSETS_DIR ++ t) FixNames.ASSETS_DIR t) eq_refl),
      drop_app_length.
  - intros Hnp. rewrite not_prefix_in_parents by done.
    by rewrite (proj2 (relative_to_None p FixNames.ASSETS_DIR) Hnp).
Qed.

(** X13: the temporary name [optimize-assets.py] gives the optimizer's
    output.  For a model name with a stem ([x.glb], [x.gltf]) it is
    [x-temp-optimized] plus the same extension, in the same directory:
    a name both scans look for.  A temporary file left behind by a run
    that was cut short is therefore picked up by the next run of either
    script. *)
Theorem temp_name_matches_scans (file_path : path) :
  model_name (name file_path) → name file_path ≠ ".glb" → name file_path ≠ ".gltf" →
  let temp := OptimizeAssets.temp_path_of file_path in
  parent temp = parent file_path ∧
  name temp = stem file_path +:+ "-temp-optimized" +:+ suffix file_path ∧
  model_ext (suffix file_path) ∧
  optimized_name (name temp) ∧ model_name (name temp).
Proof.
  intros Hm Hg Hgl temp.
  assert (file_path ≠ []) as Hne by (intros ->; destruct Hm as [H|H]; by vm_compute in H).
  destruct (temp_path_facts file_path Hne) as (Hpar & _ & _ & Hentry & _). fold temp in Hpar, Hentry.
  assert (name temp = stem file_path +:+ "-temp-optimized" +:+ suffix file_path) as Hname.
  { unfold temp, OptimizeAssets.temp_path_of. unfold temp, OptimizeAssets.temp_path_of in Hentry.
    destruct (decide (stem file_path +:+ "-temp-optimized" +:+ suffix file_path = "")) as [E|E1].
    { apply (f_equal String.length) in E. rewrite !str_length_app in E. simpl in E. lia. }
    destruct (decide (stem file_path +:+ "-temp-optimized" +:+ suffix file_path = ".")) as [E|E2].
    { apply (f_equal String.length) in E. rewrite !str_length_app in E. simpl in E. lia. }
    rewrite joinpath_entry by done. apply name_snoc. }
  assert (∃ ext, model_ext ext ∧ suffix file_path = ext) as (ext & Hext & Hsuf).
  { destruct Hm as [H|H]; apply endswith_inv in H as [x Hx].
    - exists ".glb". split; [by left|]. unfold suffix. rewrite Hx.
      change (Str.chars ".glb") with ("."%char :: Str.chars "glb").
      rewrite split_name_ext; [done| |done|].
      + intros ->. by rewrite Hx in Hg.
      + rewrite list_elem_of_In. simpl. intuition discriminate.
    - exists ".gltf". split; [by right|]. unfold suffix. rewrite Hx.
      change (Str.chars ".gltf") with ("."%char :: Str.chars "gltf").
      rewrite split_name_ext; [done| |done|].
      + intros ->. by rewrite Hx in Hgl.
      + rewrite list_elem_of_In. simpl. intuition discriminate. }
  assert (optimized_name (name temp)) as Ho.
  { rewrite Hname, Hsuf. unfold optimized_name.
    assert (∀ a, Str.endswith (a +:+ "-temp-optimized" +:+ ext) ("-optimized" +:+ ext) = true)
      as Hend.
    { intros a. unfold Str.endswith. apply bool_decide_eq_true. rewrite !Str.chars_app.
      exists (Str.chars a ++ Str.chars "-temp"). by rewrite <- app_assoc. }
    destruct Hext as [-> | ->]; [left|right]; apply Hend. }
  split_and!; try done.
  - by rewrite Hsuf.
  - by apply optimized_is_model.
Qed.

Lemma temp_name_matches_scans_witness :
  let temp := OptimizeAssets.temp_path_of ["public"; "assets"; "tracks"; "loop.glb"] in
  temp = ["public"; "assets"; "tracks"; "loop-temp-optimized.glb"] ∧
  optimized_name (name temp) ∧ model_name (name temp).
Proof.
  cbv zeta.
  assert (model_name (name ["public"; "assets"; "tracks"; "loop.glb"])) as Hm
    by (left; vm_compute; reflexivity).
  destruct (temp_name_matches_scans ["public"; "assets"; "tracks"; "loop.glb"] Hm)
    as (_ & _ & _ & Ho & Hmn); [by vm_compute..|].
  split; [vm_compute; reflexivity|]. split; [exact Ho|exact Hmn].
Defined.

(** ** The prompt of the listing scripts *)

(** What [pedir_pasta] makes of a line, and when it takes it. *)
Definition clean (line : string) : string :=
  strip_set (Str.str [Json.dquote]) (Str.strip line).

Definition taken (isdir : string → bool) (line : string) : bool :=
  isabs (clean line) && isdir (clean line).

Lemma pedir_pasta_cons (isdir : string → bool) (line : string) (rest : list string) :
  pedir_pasta isdir (line :: rest) =
  if taken isdir line then Some (clean line, rest) else pedir_pasta isdir rest.
Proof.
  cbn [pedir_pasta]. fold (clean line). unfold taken.
  case_bool_decide as He.
  - rewrite He. reflexivity.
  - by destruct (isabs (clean line)), (isdir (clean line)).
Qed.


Lemma lstrip_chars_app (a b : list ascii) :
  Forall (λ c, Str.is_space c = true) a → Str.lstrip_chars (a ++ b) = Str.lstrip_chars b.
Proof. induction 1 as [|c a Hc _ IH]; simpl; [done|]. by rewrite Hc. Qed.

Lemma lstrip_chars_keep (c : ascii) (l : list ascii) :
  Str.is_space c = false → Str.lstrip_chars (c :: l) = c :: l.
Proof. intros Hc. simpl. by rewrite Hc. Qed.

Lemma lstrip_set_app (set a b : list ascii) :
  Forall (λ c, c ∈ set) a → lstrip_set set (a ++ b) = lstrip_set set b.
Proof. induction 1 as [|c a Hc _ IH]; simpl; [done|]. by rewrite bool_decide_eq_true_2. Qed.

Lemma lstrip_set_keep (set : list ascii) (c : ascii) (l : list ascii) :
  c ∉ set → lstrip_set set (c :: l) = c :: l.
Proof. intros Hc. simpl. by rewrite bool_decide_eq_false_2. Qed.

(** An ASCII character that is neither white space nor a double quote. *)
Definition solid (c : ascii) : Prop :=
  Str.is_space c = false ∧ c ≠ Json.dquote ∧ (nat_of_ascii c < 128)%nat.

(** Stripping from both ends, for a text that begins and ends with
    characters that stay. *)
Lemma strip_both_ends (lstrip : list ascii → list ascii) (junk : ascii → Prop)
    (a b : list ascii) (c d : ascii) (t m : list ascii) :
  (∀ x y, Forall junk x → lstrip (x ++ y) = lstrip y) →
  (∀ x l, ¬ junk x → lstrip (x :: l) = x :: l) →
  Forall junk a → Forall junk b → ¬ junk c → ¬ junk d → c :: t = m ++ [d] →
  rev (lstrip (rev (lstrip (a ++ (c :: t) ++ b)))) = c :: t.
Proof.
  intros Happ Hkeep Ha Hb Hc Hd Hshape.
  rewrite Happ by done. cbn [app]. rewrite Hkeep by done.
  change (c :: t ++ b) with ((c :: t) ++ b). rewrite rev_app_distr, Happ.
  - rewrite Hshape, rev_app_distr. cbn [rev app]. rewrite Hkeep by done.
    change (d :: rev m) with ([d] ++ rev m).
    by rewrite rev_app_distr, rev_involutive.
  - apply Forall_forall. intros x Hx%list_elem_of_In%in_rev%list_elem_of_In.
    rewrite Forall_forall in Hb. by apply Hb.
Qed.

(** Quotes around a text that begins and ends with solid characters:
    the whole begins and ends with a quote or a solid character. *)
Lemma quoted_ends (q1 q2 t m : list ascii) (c d : ascii) :
  Forall (λ x, x = Json.dquote) q1 → Forall (λ x, x = Json.dquote) q2 →
  c :: t = m ++ [d] →
  ∃ c' t' m' d', q1 ++ (c :: t) ++ q2 = c' :: t' ∧ c' :: t' = m' ++ [d'] ∧
                 (c' = Json.dquote ∨ c' = c) ∧ (d' = Json.dquote ∨ d' = d).
Proof.
  intros Hq1 Hq2 Hshape.
  assert (∃ c' t', q1 ++ (c :: t) ++ q2 = c' :: t' ∧ (c' = Json.dquote ∨ c' = c))
    as (c' & t' & Hhead & Hc').
  { destruct Hq1 as [|x q1 -> _]; eexists _, _; (split; [reflexivity|]); auto. }
  assert (∃ m' d', q1 ++ (c :: t) ++ q2 = m' ++ [d'] ∧ (d' = Json.dquote ∨ d' = d))
    as (m' & d' & Hlast & Hd').
  { destruct q2 as [|y q2 _] using rev_ind.
    - exists (q1 ++ m), d. rewrite app_nil_r, Hshape, app_assoc. auto.
    - apply Forall_app in Hq2 as [_ [-> _]%Forall_cons].
      exists (q1 ++ (c :: t) ++ q2), Json.dquote. rewrite <- !app_assoc. auto. }
  exists c', t', m', d'. split_and!; try done. by rewrite <- Hhead.
Qed.

(** X15: a path typed or pasted between double quotes, with blanks
    around it, is taken as the bare path.  [pedir_pasta] strips the white
    space first and the quotes second, so what is between the quotes has
    to begin and end with a character that is neither; an absolute path
    begins with a slash. *)
Theorem pedir_pasta_unquotes (isdir : string → bool)
    (ws1 ws2 q1 q2 t m : list ascii) (c d : ascii) (rest : list string) :
  Forall (λ x, Str.is_space x = true) ws1 → Forall (λ x, Str.is_space x = true) ws2 →
  Forall (λ x, x = Json.dquote) q1 → Forall (λ x, x = Json.dquote) q2 →
  solid c → solid d → c :: t = m ++ [d] →
  let pasta := Str.str (c :: t) in
  let line := Str.str (ws1 ++ (q1 ++ (c :: t) ++ q2) ++ ws2) in
  clean line = pasta ∧
  (isabs pasta = true → isdir pasta = true →
   pedir_pasta isdir (line :: rest) = Some (pasta, rest)).
Proof.
  intros Hw1 Hw2 Hq1 Hq2 (Hcs & Hcq & _) (Hds & Hdq & _) Hshape pasta line.
  assert (Str.is_space Json.dquote = false) as Hqs by (by vm_compute).
  assert (Str.strip line = Str.str (q1 ++ (c :: t) ++ q2)) as Hstrip.
  { unfold line, Str.strip. rewrite Str.chars_str. f_equal.
    destruct (quoted_ends q1 q2 t m c d Hq1 Hq2 Hshape)
      as (c' & t' & m' & d' & -> & Hshape' & Hc' & Hd').
    apply (strip_both_ends Str.lstrip_chars (λ x, Str.is_space x = true) ws1 ws2 c' d' t' m');
      try done.
    - apply lstrip_chars_app.
    - intros x l Hx. apply lstrip_chars_keep. by destruct (Str.is_space x).
    - destruct Hc' as [-> | ->]; congruence.
    - destruct Hd' as [-> | ->]; congruence. }
  assert (clean line = pasta) as Hclean.
  { unfold clean. rewrite Hstrip. unfold strip_set, pasta. rewrite !Str.chars_str. f_equal.
    apply (strip_both_ends (lstrip_set [Json.dquote]) (λ x, x ∈ [Json.dquote]) q1 q2 c d t m);
      try done.
    - intros x y. apply lstrip_set_app.
    - intros x l. apply lstrip_set_keep.
    - eapply Forall_impl; [exact Hq1|]. intros x ->. apply list_elem_of_here.
    - eapply Forall_impl; [exact Hq2|]. intros x ->. apply list_elem_of_here.
    - by intros ?%list_elem_of_singleton.
    - by intros ?%list_elem_of_singleton. }
  split; [done|]. intros Ha Hd.
  rewrite pedir_pasta_cons. unfold taken. by rewrite Hclean, Ha, Hd.
Qed.

Lemma pedir_pasta_unquotes_witness :
  let line := Str.str (Str.chars "  " ++ ([Json.dquote] ++ Str.chars "/srv/my models" ++ [Json.dquote])
                       ++ Str.chars " ") in
  clean line = "/srv/my models" ∧
  pedir_pasta (λ p, bool_decide (p = "/srv/my models")) [line; "/tmp"]
    = Some ("/srv/my models", ["/tmp"]).
Proof.
  cbv zeta.
  destruct (pedir_pasta_unquotes (λ p, bool_decide (p = "/srv/my models"))
              (Str.chars "  ") (Str.chars " ") [Json.dquote] [Json.dquote]
              (Str.chars "srv/my models") (Str.chars "/srv/my model") "/"%char "s"%char ["/tmp"])
    as [Hc Hp];
    [apply (bool_decide_unpack _); by vm_compute..
    |split_and!; [vm_compute; reflexivity|intros H; vm_compute in H; discriminate H|apply Nat.ltb_lt; vm_compute; reflexivity]
    |split_and!; [vm_compute; reflexivity|intros H; vm_compute in H; discriminate H|apply Nat.ltb_lt; vm_compute; reflexivity]
    |reflexivity|].
  split; [exact Hc|]. apply Hp; vm_compute; reflexivity.
Defined.

(** ** Sizes in the report *)

Section SizeArith.
Local Open Scope N_scope.


Lemma round_half_even_zero (a b : N) :
  (0 < b) → round_half_even a b = 0 ↔ (2 * a ≤ b).
Proof.
  intros Hb. unfold round_half_even.
  pose proof (N.div_mod a b ltac:(lia)) as Hdm.
  pose proof (N.mod_lt a b ltac:(lia)) as Hlt.
  destruct (N.eq_dec (a / b) 0) as [Hq|Hq].
  - rewrite Hq in *. cbn [N.even].
    destruct (N.ltb_spec (2 * (a mod b)) b); [lia|].
    destruct (N.ltb_spec b (2 * (a mod b))); lia.
  - set (q := (a / b)) in *. set (r := (a mod b)) in *.
    assert (b ≤ b * q) by nia.
    destruct (N.ltb_spec (2 * r) b); [lia|].
    destruct (N.ltb_spec b (2 * r)); [lia|].
    destruct (N.even q); lia.
Qed.


Lemma float_of_int_small (n : N) : (n < 2 ^ 53) → float_of_int n = n.
Proof.
  intros Hn. unfold float_of_int.
  destruct (N.leb_spec (N.size n) 53) as [|Hs]; [done|].
  destruct (N.eq_dec n 0) as [->|Hne]; [done|].
  rewrite N.size_log2 in Hs by done.
  assert (N.log2 n < 53) as Hl by (apply N.log2_lt_pow2; lia). lia.
Qed.

Lemma float_of_int_big (n : N) : (2 ^ 53 ≤ n) → (2 ^ 52 ≤ float_of_int n).
Proof.
  intros Hn. unfold float_of_int.
  destruct (N.leb_spec (N.size n) 53) as [|Hs]; [lia|].
  assert (n ≠ 0) as Hne by lia.
  rewrite N.size_log2 in * by done.
  set (e := (N.succ (N.log2 n) - 53)).
  pose proof (N.log2_spec n ltac:(lia)) as [Hlo _].
  assert (N.log2 n = 52 + e) as Hl by lia.
  rewrite Hl, N.pow_add_r in Hlo.
  assert (0 < 2 ^ e) as Hpos by (apply N.neq_0_lt_0, N.pow_nonzero; lia).
  assert (2 ^ 52 ≤ n / 2 ^ e) as Hq.
  { apply N.div_le_lower_bound; lia. }
  assert (n / 2 ^ e ≤ round_half_even n (2 ^ e)).
  { unfold round_half_even. repeat destruct (_ <? _); try destruct (N.even _); lia. }
  nia.
Qed.

(** The size that prints as zero: anything up to 5242 bytes. *)
Lemma hundredths_zero (n : N) : hundredths n = 0 ↔ (n ≤ 5242).
Proof.
  unfold hundredths. rewrite round_half_even_zero by done.
  destruct (N.lt_ge_cases n (2 ^ 53)) as [Hs|Hb].
  - rewrite float_of_int_small by done. change (2 ^ 20) with 1048576. lia.
  - pose proof (float_of_int_big n Hb) as Hf.
    change (2 ^ 20) with 1048576. change (2 ^ 52) with 4503599627370496 in Hf.
    change (2 ^ 53) with 9007199254740992 in Hb. lia.
Qed.

End SizeArith.

Lemma digit_inj (j k : N) : (j < 10)%N → (k < 10)%N → digit j = digit k → j = k.
Proof.
  intros Hj Hk H. unfold digit in H.
  apply (f_equal N_of_ascii) in H. rewrite !N_ascii_embedding in H by lia. lia.
Qed.

Lemma string_of_N_inj (j k : N) :
  NilZero.string_of_uint (N.to_uint j) = NilZero.string_of_uint (N.to_uint k) → j = k.
Proof.
  intros H. apply (f_equal NilZero.uint_of_string) in H.
  assert (∀ n, N.to_uint n ≠ Decimal.Nil) as Hnn.
  { intros [|p]; [done|]. apply DecimalPos.Unsigned.to_uint_nonnil. }
  rewrite !NilZero.usu in H by done.
  injection H as H. by apply DecimalN.Unsigned.to_uint_inj.
Qed.

(** The text shows the number: different numbers print differently. *)
Lemma fixed2_inj (h h' : N) : fixed2 h = fixed2 h' → h = h'.
Proof.
  unfold fixed2. intros H%(f_equal Str.chars).
  rewrite !Str.chars_app, !Str.chars_str in H.
  apply app_inj_2 in H as [HD Hd]; [|done].
  apply Str.chars_inj, string_of_N_inj in HD.
  injection Hd as H1 H2.
  pose proof (N.mod_lt h 100 ltac:(lia)). pose proof (N.mod_lt h' 100 ltac:(lia)).
  apply digit_inj in H1; [|apply N.Div0.div_lt_upper_bound; lia..].
  apply digit_inj in H2; [|apply N.mod_lt; lia..].
  assert (∀ x : N, x = (100 * (x / 100) + (10 * (x mod 100 / 10) + x mod 10))%N) as Hsplit.
  { intros x.
    pose proof (N.div_mod x 100 ltac:(lia)) as E.
    pose proof (N.div_mod (x mod 100) 10 ltac:(lia)) as E1.
    pose proof (N.mod_lt (x mod 100) 10 ltac:(lia)) as L1.
    assert ((x mod 100) mod 10 = x mod 10)%N as <-; [|lia].
    apply (N.mod_unique x 10 (10 * (x / 100) + x mod 100 / 10)); lia. }
  rewrite (Hsplit h), (Hsplit h'). congruence.
Qed.

Lemma format_size_inj (n m : N) :
  format_size n = format_size m ↔ hundredths n = hundredths m.
Proof.
  unfold format_size. split; [|by intros ->].
  intros H%(f_equal Str.chars). rewrite !Str.chars_app in H.
  apply app_inv_tail in H. by apply fixed2_inj, Str.chars_inj.
Qed.

(** X16: what [format_size] prints as zero.  The report shows [0.00MB]
    exactly for the sizes up to 5242 bytes (half a hundredth of a MiB is
    5242.88 bytes), and for no other size. *)
Theorem format_size_zero (bytes_size : N) :
  (bytes_size < 2 ^ 1024)%N →
  format_size bytes_size = "0.00MB" ↔ (bytes_size ≤ 5242)%N.
Proof.
  intros _. rewrite <- hundredths_zero.
  change "0.00MB" with (format_size 0). rewrite format_size_inj.
  by change (hundredths 0) with 0%N.
Qed.


Lemma format_size_zero_witness :
  format_size 5242 = "0.00MB" ∧ format_size 5243 ≠ "0.00MB".
Proof.
  assert (5242 < 2 ^ 1024)%N as H1 by (apply N.ltb_lt; vm_compute; reflexivity).
  assert (5243 < 2 ^ 1024)%N as H2 by (apply N.ltb_lt; vm_compute; reflexivity).
  split.
  - apply (format_size_zero 5242 H1). apply N.leb_le. vm_compute. reflexivity.
  - intros H%(format_size_zero 5243 H2). apply N.leb_le in H. vm_compute in H. discriminate H.
Defined.

